(** * AyanBot service core: [include/ayan/core/service.h]

    A shallow embedding of the service composition and dispatch engine:
    [RunResult], the process-wide service registry, [ServiceManager] with its
    [ExecuteStack], the lifecycle template [ServiceImpl] and the root
    dispatcher [ServiceSecheduler], followed by the properties of the
    specification that concern them. *)

From stdpp Require Import base gmap strings list.
From Stdlib Require Import ZArith String Ascii OrdersEx Sorted Permutation Lia.

Local Open Scope string_scope.
Local Open Scope Z_scope.
Local Open Scope list_scope.

(** ** [RunResult] *)

(** [using RetCode = int]: only compared with [NoSignaficantRet], never
    computed with, so it is read as an integer. *)
Definition RetCode := Z.

(** [std::any]: empty, or a value together with the name of its type. *)
Inductive any : Type :=
| any_empty
| any_value (type : string) (value : Z).

Record RunResult : Type := mkRunResult {
  ret : RetCode;
  extra : any
}.

Definition NoSignaficantRet : RetCode := 0.

(** [constexpr RunResult() : ret(NoSignaficantRet), extra() {}] *)
Definition RunResult_default : RunResult :=
  {| ret := NoSignaficantRet; extra := any_empty |}.

(** [static RunResult nothing() { return RunResult{}; }] *)
Definition nothing : RunResult := RunResult_default.

Definition ill (r : RunResult) : bool := ret r =? NoSignaficantRet.
Definition success (r : RunResult) : bool := ret r >? NoSignaficantRet.
Definition failed (r : RunResult) : bool := ret r <? NoSignaficantRet.

(** [as<T>()]: [std::any_cast<T>(extra)], with [bad_any_cast] caught and
    turned into [NullOpt]. *)
Definition as_ (T : string) (r : RunResult) : option Z :=
  match extra r with
  | any_empty => None
  | any_value ty v => if String.eqb ty T then Some v else None
  end.

(** ** [ServiceManager::ExecState] and [ExecuteStack] *)

(** Service objects live on the heap and are held through
    [Shared<ServiceConcept>]; a pointer is an address or null. *)
Definition addr := positive.
Definition ServicePtr := option addr.

Record ExecState : Type := mkExecState {
  result : RunResult;
  sev : ServicePtr
}.

(** A value-initialised [ExecState]: inert result, null service. *)
Definition ExecState_default : ExecState :=
  {| result := RunResult_default; sev := None |}.

(** [std::map<std::string_view, ExecState>]: an ordered map. It is kept as
    the list of its nodes in iteration order, that is by ascending key under
    [std::less<std::string_view>], the lexicographic order on bytes. *)
Definition ExecuteStack := list (string * ExecState).

Definition key_compare : string -> string -> comparison := String_as_OT.compare.
Definition key_lt (a b : string) : Prop := key_compare a b = Lt.
Definition key_ltb (a b : string) : bool :=
  match key_compare a b with Lt => true | _ => false end.

Definition keys (s : ExecuteStack) : list string := map fst s.

(** The representation invariant of the ordered map. *)
Definition stack_wf (s : ExecuteStack) : Prop := StronglySorted key_lt (keys s).

(** [stack_.find(key)] *)
Fixpoint stack_find (key : string) (s : ExecuteStack) : option ExecState :=
  match s with
  | [] => None
  | (k, st) :: s' =>
      match key_compare key k with
      | Lt => None
      | Eq => Some st
      | Gt => stack_find key s'
      end
  end.

(** [stack_[key] = st]: assignment through [operator[]], which overwrites the
    node of [key] or links a new node at its place in the order. *)
Fixpoint stack_assign (key : string) (st : ExecState) (s : ExecuteStack)
  : ExecuteStack :=
  match s with
  | [] => [(key, st)]
  | (k, st') :: s' =>
      match key_compare key k with
      | Lt => (key, st) :: (k, st') :: s'
      | Eq => (k, st) :: s'
      | Gt => (k, st') :: stack_assign key st s'
      end
  end.

(** [stack_[key]] read as an lvalue: the node of [key], value-initialised
    and linked into the map if there was none. *)
Definition stack_subscript (key : string) (s : ExecuteStack)
  : ExecState * ExecuteStack :=
  match stack_find key s with
  | Some st => (st, s)
  | None => (ExecState_default, stack_assign key ExecState_default s)
  end.

(** [stack_[key].result = r] *)
Definition stack_set_result (key : string) (r : RunResult) (s : ExecuteStack)
  : ExecuteStack :=
  let '(st, s1) := stack_subscript key s in
  stack_assign key {| result := r; sev := sev st |} s1.

(** The node after the iterator position [cur] ([None] is before [begin()]):
    the first node whose key is greater. *)
Fixpoint stack_next (cur : option string) (s : ExecuteStack)
  : option (string * ExecState) :=
  match s with
  | [] => None
  | (k, st) :: s' =>
      match cur with
      | None => Some (k, st)
      | Some c => if key_ltb c k then Some (k, st) else stack_next cur s'
      end
  end.

(** [RunResult replace(key, RunResult &&newer)]:
    [auto ret = std::move(stack_[key].result); stack_[key].result = newer;
     return ret;] *)
Definition replace (key : string) (newer : RunResult) (s : ExecuteStack)
  : RunResult * ExecuteStack :=
  let '(st, s1) := stack_subscript key s in
  let ret := result st in
  (ret, stack_set_result key newer s1).

(** [void remove_all() noexcept { stack_.clear(); }] *)
Definition remove_all (s : ExecuteStack) : ExecuteStack := [].

(** ** Outcomes of a call *)

(** What the source leaves to the C++ runtime is made explicit. *)
Inductive crash : Type :=
| NullDeref          (** a member call through a null [Shared<ServiceConcept>] *)
| BadAddress         (** an address or a map node that is no longer there *)
| Terminate_out_of_range.
                     (** [std::out_of_range] leaving a [noexcept] function:
                         [std::terminate] *)

Inductive outcome (A : Type) : Type :=
| Returned (a : A)
| Crashed (c : crash)
| OutOfFuel.

Arguments Returned {A} a.
Arguments Crashed {A} c.
Arguments OutOfFuel {A}.

Global Instance outcome_ret : MRet outcome := fun A a => Returned a.
Global Instance outcome_bind : MBind outcome := fun A B f m =>
  match m with
  | Returned a => f a
  | Crashed c => Crashed c
  | OutOfFuel => OutOfFuel
  end.

Definition returns {A} (m : outcome A) : Prop := exists a, m = Returned a.

(** ** Iteration over the live map *)

(** [std::for_each(stack_.begin(), stack_.end(), visit)]: the iterator walks
    the map as it is when it is advanced, so nodes that a visit links in
    ahead of the iterator are visited too. [stack_of] reads the map out of
    the state, [visit] receives the key and the value of the current node. *)
Fixpoint foreach {W : Type} (fuel : nat) (stack_of : W -> outcome ExecuteStack)
    (visit : string -> ExecState -> W -> outcome W)
    (cur : option string) (w : W) : outcome W :=
  match fuel with
  | O => OutOfFuel
  | S fuel' =>
      s ← stack_of w;
      match stack_next cur s with
      | None => Returned w
      | Some (k, state) =>
          w' ← visit k state w;
          foreach fuel' stack_of visit (Some k) w'
      end
  end.

(** The same walk over a fixed list of keys, reading each node when it is
    reached; [foreach] agrees with it as long as the visits leave the keys of
    the map alone ([foreach_walk]). *)
Fixpoint walk {W : Type} (stack_of : W -> outcome ExecuteStack)
    (visit : string -> ExecState -> W -> outcome W)
    (ks : list string) (w : W) : outcome W :=
  match ks with
  | [] => Returned w
  | k :: ks' =>
      s ← stack_of w;
      match stack_find k s with
      | None => Crashed BadAddress
      | Some state =>
          w' ← visit k state w;
          walk stack_of visit ks' w'
      end
  end.

(** The keys in the order in which [foreach] hands them to a visitor that
    only records them. *)
Definition visit_order (s : ExecuteStack) : outcome (list string) :=
  foreach (S (List.length s)) (fun _ => Returned s)
    (fun k _ visited => Returned (visited ++ [k])) None [].

(** The map after a sequence of assignments [stack_[k] = st], starting from
    the empty map. *)
Definition stack_after (l : list (string * ExecState)) : ExecuteStack :=
  fold_left (fun s e => stack_assign (fst e) (snd e) s) l [].

(** [std::erase_if(stack_, pred)]: the number of erased nodes and the rest. *)
Fixpoint erase_if (pred : ExecState -> outcome bool) (s : ExecuteStack)
  : outcome (nat * ExecuteStack) :=
  match s with
  | [] => Returned (O, [])
  | (k, state) :: s' =>
      b ← pred state;
      '(n, rest) ← erase_if pred s';
      Returned (if b : bool then (S n, rest) else (n, (k, state) :: rest))
  end.

(** [size_t invalid_if(const std::function<bool(const ExecState &)> &cond)] *)
Fixpoint invalid_if (cond : ExecState -> outcome bool) (s : ExecuteStack)
  : outcome (nat * ExecuteStack) :=
  match s with
  | [] => Returned (O, [])
  | (k, state) :: s' =>
      b ← cond state;
      '(count, rest) ← invalid_if cond s';
      Returned (if b : bool
                then (S count, (k, {| result := RunResult_default; sev := sev state |}) :: rest)
                else (count, (k, state) :: rest))
  end.

(** [size_t invalid_if(const std::function<bool(RetCode)> &cond)] *)
Definition invalid_if_ret (cond : RetCode -> outcome bool) (s : ExecuteStack)
  : outcome (nat * ExecuteStack) :=
  invalid_if (fun st => cond (ret (result st))) s.

(** [void invalid() noexcept { invalid_if([](auto &_) { return true; }); }] *)
Definition invalid (s : ExecuteStack) : outcome ExecuteStack :=
  '(_, s') ← invalid_if (fun _ => Returned true) s;
  Returned s'.

(** ** Service objects *)

(** The concrete service types: the root dispatcher of the source, and the
    types that the surrounding program derives from [ServiceImpl]. *)
Inductive Impl : Type :=
| ServiceSecheduler
| UserImpl (n : nat).

(** A [ServiceImpl<Impl>] object: its concrete type and its [mgr_]. *)
Record Object : Type := mkObject {
  cls : Impl;
  mgr_ : ExecuteStack
}.

(** The calls that an execution makes, in order. *)
Inductive Call : Type :=
| CallInstall (this : addr)
| CallUninstall (this : addr)
| CallServe (this : addr)
| HookUsuage (this : addr)
| HookLoad (this : addr)
| HookUnload (this : addr)
| HookRun (this : addr).

Section Services.

(** The collaborators that the core only forwards: the hosting [Bot], the
    [Event], and [Env], the state of the surrounding program that the hooks
    of the concrete types act on (the bot, the contents of the event, the
    fields of the services). *)
Variables (Bot Event Env : Type).

Record Store : Type := mkStore {
  (** The service objects. They are held through [Shared] pointers, by the
      maps and by the surrounding program: an object whose last pointer is
      released is destroyed, and then no pointer leads to it any more. The
      heap keeps the cell of such an object; what it says of an address is
      what a holder of a pointer to it finds there. *)
  heap : gmap addr Object;
  (** [inner::all_available_services()]: the constructor stored for a name
      is [ServiceCreator<Sev>::create], that is [std::make_shared<Sev>()]. *)
  registry : gmap string Impl;
  env : Env
}.

Record World : Type := mkWorld {
  store : Store;
  trace : list Call
}.

(** What the program around the core supplies: [util::type_name] (its header
    is not part of the core). *)
Variable type_name : Impl -> string.

Definition log (c : Call) (w : World) : World :=
  {| store := store w; trace := trace w ++ [c] |}.

Definition set_heap (h : gmap addr Object) (st : Store) : Store :=
  {| heap := h; registry := registry st; env := env st |}.

Definition set_env (e : Env) (st : Store) : Store :=
  {| heap := heap st; registry := registry st; env := e |}.

Definition set_registry (reg : gmap string Impl) (st : Store) : Store :=
  {| heap := heap st; registry := reg; env := env st |}.

Definition set_store (st : Store) (w : World) : World :=
  {| store := st; trace := trace w |}.

(** [*p] for a non-null [p]. *)
Definition obj_at (a : addr) (st : Store) : outcome Object :=
  match heap st !! a with
  | Some o => Returned o
  | None => Crashed BadAddress
  end.

Definition stack_at (a : addr) (st : Store) : outcome ExecuteStack :=
  o ← obj_at a st; Returned (mgr_ o).

Definition set_stack (a : addr) (s : ExecuteStack) (st : Store) : outcome Store :=
  o ← obj_at a st;
  Returned (set_heap (<[a := {| cls := cls o; mgr_ := s |}]> (heap st)) st).

(** [p->identity()], a virtual call: [util::type_name<Impl>()] of the
    object's concrete type. *)
Definition identity (p : ServicePtr) (st : Store) : outcome string :=
  match p with
  | None => Crashed NullDeref
  | Some a => o ← obj_at a st; Returned (type_name (cls o))
  end.

(** *** [inner::make_available] and [ServiceManager] on a store *)

(** [map.emplace(sev_name, ServiceCreator<Sev>::create)]: no effect when the
    name is taken. *)
Definition make_available (c : Impl) (reg : gmap string Impl) : gmap string Impl :=
  match reg !! type_name c with
  | Some _ => reg
  | None => <[type_name c := c]> reg
  end.

(** [void add(const ServicePtr &sev)] on the manager of [this]. *)
Definition add (this : addr) (p : ServicePtr) (st : Store) : outcome Store :=
  id ← identity p st;
  s ← stack_at this st;
  set_stack this (stack_assign id {| result := RunResult_default; sev := p |} s) st.

(** [ServiceCreator<Sev>::create]: [std::make_shared<Sev>()], a new object
    with an empty manager at an address that is not in use. *)
Definition make_shared (c : Impl) (st : Store) : addr * Store :=
  let p := fresh (dom (heap st)) in
  (p, set_heap (<[p := {| cls := c; mgr_ := [] |}]> (heap st)) st).

(** [Self &require(const std::string &service_name) noexcept] on the manager
    of [this]:
    [auto ctor = inner::all_available_services().at(service_name);
     Shared<ServiceConcept> sev = std::invoke(ctor);
     stack_[sev->identity()] = ExecState{.sev = std::move(sev)};]
    [.at] throws on an unknown name, and the exception leaves a [noexcept]
    function. In the assignment the right operand is evaluated before the
    left one (C++17, [expr.ass]/1): building the [ExecState] moves the
    pointer out of the local [sev], so the [sev] that [sev->identity()] then
    reads is the empty one. *)
Definition require (this : addr) (service_name : string) (st : Store)
  : outcome Store :=
  match registry st !! service_name with
  | None => Crashed Terminate_out_of_range
  | Some ctor =>
      let '(p, st1) := make_shared ctor st in
      let state := {| result := RunResult_default; sev := Some p |} in
      let sev_moved_from : ServicePtr := None in
      id ← identity sev_moved_from st1;
      s ← stack_at this st1;
      set_stack this (stack_assign id state s) st1
  end.

(** [bool remove(std::string_view service_name) noexcept] *)
Definition remove (this : addr) (service_name : string) (st : Store)
  : outcome (bool * Store) :=
  s ← stack_at this st;
  '(n, s') ← erase_if (fun state =>
                id ← identity (sev state) st;
                Returned (String.eqb service_name id)) s;
  st' ← set_stack this s' st;
  Returned (Nat.leb 1 n, st').

(** [bool invalid(std::string_view sev_name) noexcept] *)
Definition invalid_name (this : addr) (sev_name : string) (st : Store)
  : outcome (bool * Store) :=
  s ← stack_at this st;
  '(n, s') ← invalid_if (fun state =>
                id ← identity (sev state) st;
                Returned (String.eqb id sev_name)) s;
  st' ← set_stack this s' st;
  Returned (Nat.ltb 0 n, st').

(** The operations that work on the map alone, on the manager of [this]. *)
Definition on_stack (this : addr) (f : ExecuteStack -> outcome ExecuteStack)
    (st : Store) : outcome Store :=
  s ← stack_at this st;
  s' ← f s;
  set_stack this s' st.

(** The public operations of [ServiceManager] that change the map; [foreach]
    hands out the nodes but cannot change their keys. *)
Inductive ManagerCall : Type :=
| call_require (service_name : string)
| call_remove_all
| call_remove (service_name : string)
| call_invalid_if (cond : ExecState -> outcome bool)
| call_invalid_if_ret (cond : RetCode -> outcome bool)
| call_invalid_name (sev_name : string)
| call_invalid
| call_replace (key : string) (newer : RunResult)
| call_add (p : ServicePtr).

(** The operation on the manager of [this]. The nodes that [remove_all],
    [remove] and an overwriting [add] unlink give up their pointers; what
    becomes of the objects they led to is the business of the other holders,
    and no lifecycle function is called on them. *)
Definition manager_call (this : addr) (c : ManagerCall) (st : Store)
  : outcome Store :=
  match c with
  | call_require name => require this name st
  | call_remove_all => on_stack this (fun s => Returned (remove_all s)) st
  | call_remove name => '(_, st') ← remove this name st; Returned st'
  | call_invalid_if cond =>
      on_stack this (fun s => '(_, s') ← invalid_if cond s; Returned s') st
  | call_invalid_if_ret cond =>
      on_stack this (fun s => '(_, s') ← invalid_if_ret cond s; Returned s') st
  | call_invalid_name name => '(_, st') ← invalid_name this name st; Returned st'
  | call_invalid => on_stack this invalid st
  | call_replace key newer =>
      on_stack this (fun s => Returned (snd (replace key newer s))) st
  | call_add p => add this p st
  end.

(** [mgr_.replace(key, newer)] on the manager of [this]. *)
Definition mgr_replace (this : addr) (key : string) (newer : RunResult)
    (w : World) : outcome (RunResult * World) :=
  s ← stack_at this (store w);
  let '(old, s') := replace key newer s in
  st' ← set_stack this s' (store w);
  Returned (old, set_store st' w).

(** [exec_state.result = r] through the reference to the node of [key] that
    the visitor of [this]'s manager holds. *)
Definition set_result (this : addr) (key : string) (r : RunResult)
    (w : World) : outcome World :=
  s ← stack_at this (store w);
  match stack_find key s with
  | None => Crashed BadAddress
  | Some state =>
      st' ← set_stack this (stack_assign key {| result := r; sev := sev state |} s) (store w);
      Returned (set_store st' w)
  end.

(** [state = e] through the reference to the node of [key] that a visitor
    of [this]'s manager holds: [foreach] hands out the nodes for writing,
    but not their keys. *)
Definition set_node (this : addr) (key : string) (e : ExecState) (st : Store)
  : outcome Store :=
  s ← stack_at this st;
  match stack_find key s with
  | None => Crashed BadAddress
  | Some _ => set_stack this (stack_assign key e s) st
  end.

(** *** The hooks of the concrete types *)

(** [load], [unload] and [run] are member functions of the concrete type:
    their bodies are the program's, and they have the bot, the event and the
    protected [mgr_] of their object at hand. A body is kept as the steps it
    takes: it reads and writes [Env] ([GetEnv], [PutEnv]), reads the map of
    its own manager ([GetStack]) and writes a node of it as a visitor of
    [foreach] can ([SetNode]), calls a public operation of its own manager
    ([Manager]), reads the registry ([GetRegistry]) and registers a type
    ([MakeAvailable]), makes a new service ([MakeShared]), fails ([Throw]),
    or returns ([Done]); [Invoke] is a call out of the body, whose kind [C]
    depends on the hook. *)
Inductive Action (C A : Type) : Type :=
| Done (a : A)
| Throw (c : crash)
| GetEnv (k : Env -> Action C A)
| PutEnv (e : Env) (k : Action C A)
| GetStack (k : ExecuteStack -> Action C A)
| SetNode (key : string) (e : ExecState) (k : Action C A)
| Manager (c : ManagerCall) (k : Action C A)
| GetRegistry (k : gmap string Impl -> Action C A)
| MakeAvailable (c : Impl) (k : Action C A)
| MakeShared (c : Impl) (k : addr -> Action C A)
| Invoke (c : C) (k : RunResult -> Action C A).

Arguments Done {C A} a.
Arguments Throw {C A} c.
Arguments GetEnv {C A} k.
Arguments PutEnv {C A} e k.
Arguments GetStack {C A} k.
Arguments SetNode {C A} key e k.
Arguments Manager {C A} c k.
Arguments GetRegistry {C A} k.
Arguments MakeAvailable {C A} c k.
Arguments MakeShared {C A} c k.
Arguments Invoke {C A} c k.

(** The body [a] run by the object at [this]; [invoke] carries out its calls. *)
Fixpoint perform {C A : Type}
    (invoke : C -> World -> outcome (RunResult * World))
    (this : addr) (a : Action C A) (w : World) : outcome (A * World) :=
  match a with
  | Done x => Returned (x, w)
  | Throw c => Crashed c
  | GetEnv k => perform invoke this (k (env (store w))) w
  | PutEnv e k => perform invoke this k (set_store (set_env e (store w)) w)
  | GetStack k => s ← stack_at this (store w); perform invoke this (k s) w
  | SetNode key e k =>
      st' ← set_node this key e (store w);
      perform invoke this k (set_store st' w)
  | Manager c k =>
      st' ← manager_call this c (store w);
      perform invoke this k (set_store st' w)
  | GetRegistry k => perform invoke this (k (registry (store w))) w
  | MakeAvailable c k =>
      perform invoke this k
        (set_store (set_registry (make_available c (registry (store w))) (store w)) w)
  | MakeShared c k =>
      let '(p, st') := make_shared c (store w) in
      perform invoke this (k p) (set_store st' w)
  | Invoke c k => '(r, w') ← invoke c w; perform invoke this (k r) w'
  end.

(** [load] and [unload] prepare and release the service itself: they make
    no call out of their body. *)
Definition no_call (c : Empty_set) (w : World) : outcome (RunResult * World) :=
  match c with end.

(** [run] may serve other services, as [ServiceSecheduler::run] does:
    [p->serve(bot, event)]. *)
Definition ServeCall : Type := ServicePtr * Bot * Event.

Definition serve_call
    (serve : Bot -> Event -> addr -> World -> outcome (RunResult * World))
    (c : ServeCall) (w : World) : outcome (RunResult * World) :=
  let '(p, bot, event) := c in
  match p with
  | None => Crashed NullDeref
  | Some child => serve bot event child w
  end.

(** The hooks of a concrete type. [usuage(super, self)] is handed the
    service's manager (both pointers are to the [mgr_] of the object) and
    acts on the store. *)
Record Hooks : Type := mkHooks {
  usuage : addr -> Store -> outcome Store;
  load : addr -> Bot -> Action Empty_set unit;
  unload : addr -> Bot -> Action Empty_set unit;
  run : addr -> Bot -> Event -> Action ServeCall RunResult
}.

(** The defaults of [ServiceImpl]: empty bodies, [run] returns
    [RunResult{}]. *)
Definition ServiceImpl_hooks : Hooks :=
  {| usuage := fun _ st => Returned st;
     load := fun _ _ => Done tt;
     unload := fun _ _ => Done tt;
     run := fun _ _ _ => Done RunResult_default |}.

(** The hooks of each concrete type of the program. *)
Variable hooks : nat -> Hooks.

(** [ServiceSecheduler] overrides [usuage], [load] and [unload] with empty
    bodies. *)
Definition Impl_usuage (c : Impl) (this : addr) (w : World) : outcome World :=
  let w0 := log (HookUsuage this) w in
  match c with
  | ServiceSecheduler => Returned w0
  | UserImpl n => st' ← usuage (hooks n) this (store w0); Returned (set_store st' w0)
  end.

Definition Impl_load (c : Impl) (bot : Bot) (this : addr) (w : World) : outcome World :=
  let w0 := log (HookLoad this) w in
  match c with
  | ServiceSecheduler => Returned w0
  | UserImpl n => '(_, w1) ← perform no_call this (load (hooks n) this bot) w0; Returned w1
  end.

Definition Impl_unload (c : Impl) (bot : Bot) (this : addr) (w : World) : outcome World :=
  let w0 := log (HookUnload this) w in
  match c with
  | ServiceSecheduler => Returned w0
  | UserImpl n => '(_, w1) ← perform no_call this (unload (hooks n) this bot) w0; Returned w1
  end.

(** [ServiceSecheduler::run]:
    [mgr_.foreach([&](auto &sep) { auto &exec_state = sep.second;
       exec_state.result = exec_state.sev->serve(botptr, event); });
     return RunResult::nothing();] *)
Definition ServiceSecheduler_run
    (serve : Bot -> Event -> addr -> World -> outcome (RunResult * World))
    (fuel : nat) (bot : Bot) (event : Event) (this : addr) (w : World)
  : outcome (RunResult * World) :=
  w' ← foreach fuel (fun w => stack_at this (store w))
         (fun key exec_state w =>
            match sev exec_state with
            | None => Crashed NullDeref
            | Some child =>
                '(r, w1) ← serve bot event child w;
                set_result this key r w1
            end) None w;
  Returned (nothing, w').

Definition Impl_run
    (serve : Bot -> Event -> addr -> World -> outcome (RunResult * World))
    (fuel : nat) (c : Impl) (bot : Bot) (event : Event) (this : addr) (w : World)
  : outcome (RunResult * World) :=
  let w0 := log (HookRun this) w in
  match c with
  | ServiceSecheduler => ServiceSecheduler_run serve fuel bot event this w0
  | UserImpl n => perform (serve_call serve) this (run (hooks n) this bot event) w0
  end.

(** *** [ServiceImpl] *)

(** [install]: [impl->usuage(&this->mgr_, &impl->mgr_);
     impl->mgr_.foreach([&](auto &kvp) { state.sev->install(bot); });
     impl->load(bot);] *)
Fixpoint install (fuel : nat) (bot : Bot) (this : addr) (w : World)
  : outcome World :=
  match fuel with
  | O => OutOfFuel
  | S fuel' =>
      o ← obj_at this (store w);
      w1 ← Impl_usuage (cls o) this (log (CallInstall this) w);
      w2 ← foreach fuel' (fun w => stack_at this (store w))
             (fun _ state w =>
                match sev state with
                | None => Crashed NullDeref
                | Some child => install fuel' bot child w
                end) None w1;
      Impl_load (cls o) bot this w2
  end.

(** [uninstall]:
    [impl->mgr_.foreach([&](auto &kvp) { state.sev->uninstall(bot); });
     impl->unload(bot);] *)
Fixpoint uninstall (fuel : nat) (bot : Bot) (this : addr) (w : World)
  : outcome World :=
  match fuel with
  | O => OutOfFuel
  | S fuel' =>
      o ← obj_at this (store w);
      w1 ← foreach fuel' (fun w => stack_at this (store w))
             (fun _ state w =>
                match sev state with
                | None => Crashed NullDeref
                | Some child => uninstall fuel' bot child w
                end) None (log (CallUninstall this) w);
      Impl_unload (cls o) bot this w1
  end.

(** [serve]: [return mgr_.replace(identity(), impl->run(bot, event));] *)
Fixpoint serve (fuel : nat) (bot : Bot) (event : Event) (this : addr) (w : World)
  : outcome (RunResult * World) :=
  match fuel with
  | O => OutOfFuel
  | S fuel' =>
      o ← obj_at this (store w);
      '(r, w1) ← Impl_run (serve fuel') fuel' (cls o) bot event this
                   (log (CallServe this) w);
      mgr_replace this (type_name (cls o)) r w1
  end.

(** [ServiceSecheduler::add]: [mgr_.add(sev)]. *)
Definition ServiceSecheduler_add (this : addr) (p : ServicePtr) (st : Store)
  : outcome Store :=
  add this p st.

End Services.

Arguments heap {Env} s.
Arguments registry {Env} s.
Arguments env {Env} s.
Arguments store {Env} w.
Arguments trace {Env} w.
Arguments mkStore {Env} heap registry env.
Arguments mkWorld {Env} store trace.
Arguments Done {Env C A} a.
Arguments Throw {Env C A} c.
Arguments GetEnv {Env C A} k.
Arguments PutEnv {Env C A} e k.
Arguments GetStack {Env C A} k.
Arguments SetNode {Env C A} key e k.
Arguments Manager {Env C A} c k.
Arguments GetRegistry {Env C A} k.
Arguments MakeAvailable {Env C A} c k.
Arguments MakeShared {Env C A} c k.
Arguments Invoke {Env C A} c k.
Arguments perform {Env} type_name {C A} invoke this a w.
Arguments no_call {Env} c w.
Arguments serve_call {Bot Event Env} serve c w.
Arguments mkHooks {Bot Event Env} usuage load unload run.
Arguments usuage {Bot Event Env} h this st.
Arguments load {Bot Event Env} h this bot.
Arguments unload {Bot Event Env} h this bot.
Arguments run {Bot Event Env} h this bot event.
Arguments ServiceImpl_hooks {Bot Event Env}.
Arguments install {Bot Event Env} type_name hooks fuel bot this w.
Arguments uninstall {Bot Event Env} type_name hooks fuel bot this w.
Arguments serve {Bot Event Env} type_name hooks fuel bot event this w.
Arguments log {Env} c w.
Arguments set_heap {Env} h st.
Arguments set_env {Env} e st.
Arguments set_registry {Env} reg st.
Arguments set_store {Env} st w.
Arguments obj_at {Env} a st.
Arguments stack_at {Env} a st.
Arguments set_stack {Env} a s st.
Arguments identity {Env} type_name p st.
Arguments add {Env} type_name this p st.
Arguments make_shared {Env} c st.
Arguments require {Env} type_name this service_name st.
Arguments remove {Env} type_name this service_name st.
Arguments invalid_name {Env} type_name this sev_name st.
Arguments mgr_replace {Env} this key newer w.
Arguments on_stack {Env} this f st.
Arguments manager_call {Env} type_name this c st.
Arguments set_result {Env} this key r w.
Arguments set_node {Env} this key e st.
Arguments ServiceSecheduler_add {Env} type_name this p st.
Arguments ServiceSecheduler_run {Bot Event Env} serve fuel bot event this w.
Arguments Impl_run {Bot Event Env} type_name hooks serve fuel c bot event this w.
Arguments Impl_usuage {Bot Event Env} hooks c this w.
Arguments Impl_load {Bot Event Env} type_name hooks c bot this w.
Arguments Impl_unload {Bot Event Env} type_name hooks c bot this w.

(** ** Predicates of the statements *)

(** The key [k] is ahead of the iterator position [cur]. *)
Definition before (cur : option string) (k : string) : Prop :=
  match cur with
  | None => True
  | Some c => key_lt c k
  end.

(** The iterator position after the keys [pre] of a sorted map. *)
Definition cursor_ok (cur : option string) (pre : list string) : Prop :=
  match cur with
  | None => pre = []
  | Some c => exists pre0, pre = pre0 ++ [c]
  end.

(** [entry_kept id s s']: the map stays well formed, a node keeps its
    service, and a node that appears has a null service and the key [id]. *)
Definition entry_kept (id : string) (s s' : ExecuteStack) : Prop :=
  (stack_wf s -> stack_wf s') /\
  forall key,
    match stack_find key s with
    | Some e => exists e', stack_find key s' = Some e' /\ sev e' = sev e
    | None => forall e', stack_find key s' = Some e' -> sev e' = None /\ key = id
    end.

Section Predicates.

Variable Env : Type.
Variable type_name : Impl -> string.
Implicit Types (st : Store Env) (w : World Env).

(** The manager of [this] is there and its map is well formed. *)
Definition stack_ok (this : addr) st : Prop :=
  exists s, stack_at this st = Returned s /\ stack_wf s.

(** Every object stays, with its type and a well-formed map. The map of a
    dispatcher, which only [ServiceSecheduler::run] and [serve] write, is
    [entry_kept], a new node being under the dispatcher's own identity. *)
Definition keeps st st' : Prop :=
  forall a o, heap st !! a = Some o ->
    exists o', heap st' !! a = Some o' /\ cls o' = cls o /\
               (stack_wf (mgr_ o) -> stack_wf (mgr_ o')) /\
               (cls o = ServiceSecheduler ->
                entry_kept (type_name (cls o)) (mgr_ o) (mgr_ o')).

(** A node with a null service in the map of [this]. *)
Definition null_entry (this : addr) (key : string) st : Prop :=
  exists o e, heap st !! this = Some o /\ stack_wf (mgr_ o) /\
              stack_find key (mgr_ o) = Some e /\ sev e = None.

(** The non-null services of a map are objects of the heap, as shared
    ownership guarantees. *)
Definition pointers_valid st (s : ExecuteStack) : Prop :=
  forall k e a, In (k, e) s -> sev e = Some a -> is_Some (heap st !! a).

(** The trace of [w'] is the trace of [w] followed by [first] and more. *)
Definition extends (first : Call) w w' : Prop :=
  exists t, trace w' = trace w ++ first :: t.

Definition grows w w' : Prop := exists t, trace w' = trace w ++ t.

End Predicates.

Section HookPredicates.

Variables (Bot Event Env : Type).
Variable type_name : Impl -> string.
Variable hooks : nat -> Hooks Bot Event Env.
Implicit Types (st : Store Env) (w : World Env).

(** The [run] of the concrete type [n] returns and leaves the objects and
    the trace as they are: it serves no other service and changes no map. *)
Definition runs_plainly (n : nat) : Prop :=
  forall invoke this bot event w,
    exists r w', perform type_name invoke this (run (hooks n) this bot event) w
                 = Returned (r, w') /\
                 heap (store w') = heap (store w) /\ trace w' = trace w.

(** [this] is a dispatcher whose map has the keys [ks]; the services in it
    are objects of concrete types of the program whose [run] is plain, and
    only the node of the dispatcher's own identity may lack one. *)
Definition fan_out_ready (this : addr) (ks : list string) st : Prop :=
  exists od, heap st !! this = Some od /\ cls od = ServiceSecheduler /\
    keys (mgr_ od) = ks /\
    forall k e, stack_find k (mgr_ od) = Some e ->
      match sev e with
      | Some p => exists op n, heap st !! p = Some op /\ cls op = UserImpl n /\
                               runs_plainly n
      | None => k = type_name ServiceSecheduler
      end.

(** The children of a dispatcher before its first [serve]: services of
    concrete types of the program whose [run] is plain. *)
Definition plain_children st (s : ExecuteStack) : Prop :=
  forall k e, stack_find k s = Some e ->
    exists p op n, sev e = Some p /\ heap st !! p = Some op /\
                   cls op = UserImpl n /\ runs_plainly n.

End HookPredicates.

Arguments stack_ok {Env} this st.
Arguments keeps {Env} type_name st st'.
Arguments null_entry {Env} this key st.
Arguments pointers_valid {Env} st s.
Arguments extends {Env} first w w'.
Arguments grows {Env} w w'.
Arguments runs_plainly {Bot Event Env} type_name hooks n.
Arguments fan_out_ready {Bot Event Env} type_name hooks this ks st.
Arguments plain_children {Bot Event Env} type_name hooks st s.

(** ** A small program over the core *)

(** Concrete types for the examples: [X] always fails with status -1, [Y]
    always succeeds with status 1, [P] and [Q] keep the default hooks, and
    [Host] makes a [Q] and a [P] and adds them in its [usuage], resets the
    cached results in its [load] and lets its children go in its [unload]. *)
Module Demo.

Definition type_name (c : Impl) : string :=
  match c with
  | ServiceSecheduler => "ayan::ServiceSecheduler"
  | UserImpl 0 => "X"
  | UserImpl 1 => "Y"
  | UserImpl 2 => "P"
  | UserImpl 3 => "Q"
  | UserImpl 4 => "Host"
  | UserImpl _ => "Other"
  end.

Definition X : Impl := UserImpl 0.
Definition Y : Impl := UserImpl 1.
Definition P : Impl := UserImpl 2.
Definition Q : Impl := UserImpl 3.
Definition Host : Impl := UserImpl 4.

Definition status (code : RetCode) : RunResult := {| ret := code; extra := any_empty |}.

Definition hooks (n : nat) : Hooks unit unit unit :=
  match n with
  | 0%nat => mkHooks (fun _ st => Returned st) (fun _ _ => Done tt) (fun _ _ => Done tt)
               (fun _ _ _ => Done (status (-1)))
  | 1%nat => mkHooks (fun _ st => Returned st) (fun _ _ => Done tt) (fun _ _ => Done tt)
               (fun _ _ _ => Done (status 1))
  | 4%nat => mkHooks
               (fun this st =>
                  let '(q, st1) := make_shared (UserImpl 3) st in
                  st2 ← add type_name this (Some q) st1;
                  let '(p, st3) := make_shared (UserImpl 2) st2 in
                  add type_name this (Some p) st3)
               (fun _ _ => Manager call_invalid (Done tt))
               (fun _ _ => Manager call_remove_all (Done tt))
               (fun _ _ _ => Done RunResult_default)
  | _ => ServiceImpl_hooks
  end.

(** Static initialisation has registered every concrete type. *)
Definition registered : gmap string Impl :=
  fold_right (make_available type_name) ∅
    [ServiceSecheduler; X; Y; P; Q; Host].

Definition object (c : Impl) : Object := {| cls := c; mgr_ := [] |}.

(** A dispatcher at address 1, an [X] at 2, a [Y] at 3 and a second [X] at
    4, none of them added yet. *)
Definition st0 : Store unit :=
  {| heap := <[1%positive := object ServiceSecheduler]>
             (<[2%positive := object X]>
             (<[3%positive := object Y]>
             (<[4%positive := object X]> ∅)));
     registry := registered; env := tt |}.

Definition world_of (st : Store unit) : World unit := {| store := st; trace := [] |}.

Definition the_store (o : outcome (Store unit)) : Store unit :=
  match o with Returned st => st | _ => st0 end.

Definition the_world {A} (o : outcome (A * World unit)) : World unit :=
  match o with Returned (_, w) => w | _ => world_of st0 end.

Definition installed (o : outcome (World unit)) : World unit :=
  match o with Returned w => w | _ => world_of st0 end.

(** The dispatcher after [add(Y)] and [add(X)]. *)
Definition dispatcher_store : Store unit :=
  the_store (st1 ← ServiceSecheduler_add type_name 1%positive (Some 3%positive) st0;
             ServiceSecheduler_add type_name 1%positive (Some 2%positive) st1).

Definition dispatcher_world : World unit := world_of dispatcher_store.

(** One event served by the dispatcher, and the world it leaves. *)
Definition served_once : outcome (RunResult * World unit) :=
  serve type_name hooks 10 tt tt 1%positive dispatcher_world.

Definition world_once : World unit := the_world served_once.

(** A second event served after the first. *)
Definition served_twice : outcome (RunResult * World unit) :=
  serve type_name hooks 10 tt tt 1%positive world_once.

(** The [Y] at 3 served on its own, and the world after its [run] hook. *)
Definition Y_ran : World unit :=
  the_world (Impl_run type_name hooks (serve type_name hooks 0) 0 Y tt tt 3%positive
               (log (CallServe 3%positive) dispatcher_world)).

Definition Y_served : outcome (RunResult * World unit) :=
  serve type_name hooks 1 tt tt 3%positive dispatcher_world.

(** A [Host] at address 1, installed and then uninstalled. *)
Definition host_store : Store unit :=
  {| heap := <[1%positive := object Host]> ∅; registry := registered; env := tt |}.

Definition host_world : World unit := world_of host_store.

Definition host_declared : World unit :=
  installed (Impl_usuage hooks Host 1%positive (log (CallInstall 1%positive) host_world)).

Definition host_P_installed : World unit :=
  installed (install type_name hooks 3 tt 3%positive host_declared).

Definition host_Q_installed : World unit :=
  installed (install type_name hooks 3 tt 2%positive host_P_installed).

Definition host_installed : World unit :=
  world_of (store (installed (install type_name hooks 4 tt 1%positive host_world))).

Definition host_P_uninstalled : World unit :=
  installed (uninstall type_name hooks 3 tt 3%positive (log (CallUninstall 1%positive) host_installed)).

Definition host_Q_uninstalled : World unit :=
  installed (uninstall type_name hooks 3 tt 2%positive host_P_uninstalled).

(** The installed [Host] after it served one event. *)
Definition host_served : World unit :=
  the_world (serve type_name hooks 5 tt tt 1%positive host_installed).

(** Three services whose identities are ["b"], ["a"] and ["c"]. *)
Definition entry (a : addr) : ExecState :=
  {| result := RunResult_default; sev := Some a |}.

Definition added_bac : list (string * ExecState) :=
  [("b", entry 1%positive); ("a", entry 2%positive); ("c", entry 3%positive)].

Definition added_cab : list (string * ExecState) :=
  [("c", entry 3%positive); ("a", entry 2%positive); ("b", entry 1%positive)].

(** A dispatcher at address 1 to which a second dispatcher, at 2, was
    added: the only node of its map is under the identity of both. *)
Definition nested_store : Store unit :=
  the_store
    (ServiceSecheduler_add type_name 1%positive (Some 2%positive)
       {| heap := <[1%positive := object ServiceSecheduler]>
                  (<[2%positive := object ServiceSecheduler]> ∅);
          registry := registered; env := tt |}).

Definition nested_world : World unit := world_of nested_store.

Definition nested_served : outcome (RunResult * World unit) :=
  serve type_name hooks 10 tt tt 1%positive nested_world.

End Demo.


(** ** Further predicates and examples *)

(** [state.result = RunResult{}] on one node. *)
Definition reset (e : ExecState) : ExecState :=
  {| result := RunResult_default; sev := sev e |}.

(** The calls of a fan-out over the nodes of a map, each service being of a
    concrete type of the program: [serve] and its [run] hook, node by node. *)
Definition serve_calls (s : ExecuteStack) : list Call :=
  flat_map (fun n => match sev (snd n) with
                     | Some p => [CallServe p; HookRun p]
                     | None => []
                     end) s.

(** The calls of [uninstall] and of [install] over nodes whose services have
    no children of their own. *)
Definition uninstall_calls (s : ExecuteStack) : list Call :=
  flat_map (fun n => match sev (snd n) with
                     | Some p => [CallUninstall p; HookUnload p]
                     | None => []
                     end) s.

Definition install_calls (s : ExecuteStack) : list Call :=
  flat_map (fun n => match sev (snd n) with
                     | Some p => [CallInstall p; HookUsuage p; HookLoad p]
                     | None => []
                     end) s.

Section MorePredicates.

Variable Env : Type.
Variable type_name : Impl -> string.
Implicit Types (st : Store Env).

(** Every node holds a live service whose identity is the key of the node:
    what [add] establishes. *)
Definition stack_consistent st (s : ExecuteStack) : Prop :=
  forall k e, In (k, e) s -> identity type_name (sev e) st = Returned k.

(** A node of some map holds a pointer to the object at [a]. An object
    that no map holds, and that the surrounding program does not hold
    either, has been destroyed. *)
Definition owned_by_map st (a : addr) : Prop :=
  exists b o k e, heap st !! b = Some o /\ In (k, e) (mgr_ o) /\ sev e = Some a.

(** What a store is after the map of the object [o] at [this] was replaced
    by [s']. *)
Definition stack_replaced (this : addr) (o : Object) (s' : ExecuteStack) st st'
  : Prop :=
  heap st' = <[this := {| cls := cls o; mgr_ := s' |}]> (heap st) /\
  registry st' = registry st /\ env st' = env st.

End MorePredicates.

Arguments stack_consistent {Env} type_name st s.
Arguments stack_replaced {Env} this o s' st st'.
Arguments owned_by_map {Env} st a.

Section PlainHooks.

Variables (Bot Event Env : Type).
Variable type_name : Impl -> string.
Variable hooks : nat -> Hooks Bot Event Env.

(** The [usuage] hook of the concrete type [c] has an empty body, as the
    default of [ServiceImpl] and the one of [ServiceSecheduler] have. *)
Definition usuage_is_empty (c : Impl) : Prop :=
  match c with
  | ServiceSecheduler => True
  | UserImpl n => forall a st, usuage (hooks n) a st = Returned st
  end.

(** A body of [load] or [unload] that returns and leaves the objects as
    they are, whatever it does to the environment. *)
Definition body_is_plain (body : addr -> Bot -> Action Env Empty_set unit) : Prop :=
  forall this bot (w : World Env),
    exists w', perform type_name no_call this (body this bot) w = Returned (tt, w') /\
               heap (store w') = heap (store w).

Definition loads_plainly (c : Impl) : Prop :=
  match c with
  | ServiceSecheduler => True
  | UserImpl n => body_is_plain (load (hooks n))
  end.

Definition unloads_plainly (c : Impl) : Prop :=
  match c with
  | ServiceSecheduler => True
  | UserImpl n => body_is_plain (unload (hooks n))
  end.

End PlainHooks.

Arguments usuage_is_empty {Bot Event Env} hooks c.
Arguments body_is_plain {Bot Env} type_name body.
Arguments loads_plainly {Bot Event Env} type_name hooks c.
Arguments unloads_plainly {Bot Event Env} type_name hooks c.

(** The maps and objects of the examples of [Demo], by name. *)
Module Examples.

(** The map of the dispatcher after [add(Y)] and [add(X)]. *)
Definition xy_stack : ExecuteStack :=
  [("X", Demo.entry 2%positive); ("Y", Demo.entry 3%positive)].

(** The same map with cached results: a failure for [X], a success for [Y]. *)
Definition xy_cached : ExecuteStack :=
  [("X", {| result := Demo.status (-1); sev := Some 2%positive |});
   ("Y", {| result := Demo.status 1; sev := Some 3%positive |})].

Definition dispatcher_object : Object :=
  {| cls := ServiceSecheduler; mgr_ := xy_stack |}.

(** The map of the [Host] after its [usuage]. *)
Definition pq_stack : ExecuteStack :=
  [("P", Demo.entry 3%positive); ("Q", Demo.entry 2%positive)].

Definition host_object : Object := {| cls := Demo.Host; mgr_ := pq_stack |}.

(** The [Host] uninstalled: its [unload] has emptied its map. *)
Definition host_uninstalled : World unit :=
  Demo.installed (uninstall Demo.type_name Demo.hooks 4 tt 1%positive Demo.host_installed).

(** A status is a failure. *)
Definition is_failure (r : RetCode) : bool := r <? 0.

End Examples.
(** * Properties *)

(** ** Outcomes *)

Lemma bind_returned {A B} (m : outcome A) (f : A -> outcome B) (b : B) :
  m ≫= f = Returned b -> exists a, m = Returned a /\ f a = Returned b.
Proof. destruct m as [a | c |]; simpl; intros H; [now exists a | |]; discriminate. Qed.

(** ** The key order *)

Lemma key_compare_refl k : key_compare k k = Eq.
Proof.
  unfold key_compare.
  destruct (String_as_OT.compare_spec k k) as [_ | H | H]; [reflexivity | |];
    exfalso; exact (StrictOrder_Irreflexive (R := String_as_OT.lt) k H).
Qed.

Lemma key_compare_eq a b : key_compare a b = Eq -> a = b.
Proof.
  unfold key_compare. intros H.
  destruct (String_as_OT.compare_spec a b) as [E | _ | _]; [exact E | |];
    discriminate.
Qed.

Lemma key_compare_gt a b : key_compare a b = Gt -> key_lt b a.
Proof.
  unfold key_lt, key_compare. intros H.
  destruct (String_as_OT.compare_spec a b) as [_ | _ | L];
    [discriminate | discriminate | exact L].
Qed.

Lemma key_lt_irrefl k : ~ key_lt k k.
Proof. unfold key_lt. rewrite key_compare_refl. discriminate. Qed.

Lemma key_lt_trans a b c : key_lt a b -> key_lt b c -> key_lt a c.
Proof. exact (StrictOrder_Transitive (R := String_as_OT.lt) a b c). Qed.

Lemma key_lt_gt a b : key_lt a b -> key_compare b a = Gt.
Proof.
  intros L. destruct (key_compare b a) eqn:E.
  - apply key_compare_eq in E. subst. destruct (key_lt_irrefl _ L).
  - destruct (key_lt_irrefl a). exact (key_lt_trans _ _ _ L E).
  - reflexivity.
Qed.

Lemma key_ltb_lt a b : key_ltb a b = true <-> key_lt a b.
Proof.
  unfold key_ltb, key_lt. destruct (key_compare a b); split; congruence.
Qed.

Lemma key_ltb_refl k : key_ltb k k = false.
Proof. unfold key_ltb. now rewrite key_compare_refl. Qed.

(** ** The ordered map *)

Lemma stack_find_assign_eq k v s : stack_find k (stack_assign k v s) = Some v.
Proof.
  induction s as [| [k0 v0] s IH]; simpl.
  - now rewrite key_compare_refl.
  - destruct (key_compare k k0) eqn:E; simpl.
    + now rewrite E.
    + now rewrite key_compare_refl.
    + now rewrite E.
Qed.

Lemma stack_find_assign_ne k k' v s :
  k <> k' -> stack_find k' (stack_assign k v s) = stack_find k' s.
Proof.
  intros Hne. induction s as [| [k0 v0] s IH]; simpl.
  - destruct (key_compare k' k) eqn:E; try reflexivity.
    apply key_compare_eq in E. congruence.
  - destruct (key_compare k k0) eqn:E; simpl.
    + apply key_compare_eq in E. subst k0.
      destruct (key_compare k' k) eqn:E'; try reflexivity.
      apply key_compare_eq in E'. congruence.
    + destruct (key_compare k' k) eqn:E'.
      * apply key_compare_eq in E'. congruence.
      * change (key_lt k' k) in E'. change (key_lt k k0) in E.
        pose proof (key_lt_trans _ _ _ E' E) as L. unfold key_lt in L.
        now rewrite L.
      * reflexivity.
    + destruct (key_compare k' k0); try reflexivity. exact IH.
Qed.

Lemma keys_assign_In k v s k' :
  In k' (keys (stack_assign k v s)) <-> k' = k \/ In k' (keys s).
Proof.
  induction s as [| [k0 v0] s IH]; simpl.
  - intuition.
  - destruct (key_compare k k0) eqn:E; simpl.
    + apply key_compare_eq in E. subst k0. intuition.
    + intuition.
    + rewrite IH. intuition.
Qed.

Lemma stack_wf_assign k v s : stack_wf s -> stack_wf (stack_assign k v s).
Proof.
  unfold stack_wf. induction s as [| [k0 v0] s IH]; simpl; intros Hwf.
  - repeat constructor.
  - apply StronglySorted_inv in Hwf as [Hs Hall].
    destruct (key_compare k k0) eqn:E; simpl.
    + constructor; assumption.
    + constructor.
      * constructor; assumption.
      * constructor; [exact E |].
        eapply List.Forall_impl; [| exact Hall].
        intros x Hx. exact (key_lt_trans _ _ _ E Hx).
    + constructor; [apply IH; exact Hs |].
      apply List.Forall_forall. intros x Hx.
      apply (keys_assign_In k v s x) in Hx as [-> | Hx].
      * apply key_compare_gt. exact E.
      * rewrite List.Forall_forall in Hall. apply Hall. exact Hx.
Qed.

Lemma stack_wf_NoDup s : stack_wf s -> NoDup (keys s).
Proof.
  unfold stack_wf. induction 1 as [| k l Hs IH Hall].
  - constructor.
  - apply NoDup_cons_2; [| exact IH].
    intros Hin. apply list_elem_of_In in Hin.
    rewrite List.Forall_forall in Hall.
    exact (key_lt_irrefl k (Hall k Hin)).
Qed.

Lemma stack_assign_assign k v v' s :
  stack_assign k v (stack_assign k v' s) = stack_assign k v s.
Proof.
  induction s as [| [k0 v0] s IH]; simpl.
  - now rewrite key_compare_refl.
  - destruct (key_compare k k0) eqn:E; simpl.
    + now rewrite E.
    + now rewrite key_compare_refl.
    + now rewrite E, IH.
Qed.

Lemma stack_find_In k st s : stack_find k s = Some st -> In (k, st) s.
Proof.
  induction s as [| [k0 v0] s IH]; simpl; [discriminate |].
  destruct (key_compare k k0) eqn:E; intros H.
  - apply key_compare_eq in E. left. congruence.
  - discriminate.
  - right. exact (IH H).
Qed.

Lemma stack_find_None_keys k s : stack_wf s -> stack_find k s = None -> ~ In k (keys s).
Proof.
  unfold stack_wf. induction s as [| [k0 v0] s IH]; simpl; intros Hwf H; [tauto |].
  apply StronglySorted_inv in Hwf as [Hs Hall].
  destruct (key_compare k k0) eqn:E; [discriminate | |].
  - intros [-> | Hin]; [exact (key_lt_irrefl _ E) |].
    rewrite List.Forall_forall in Hall.
    exact (key_lt_irrefl _ (key_lt_trans _ _ _ E (Hall _ Hin))).
  - intros [-> | Hin]; [rewrite key_compare_refl in E; discriminate |].
    exact (IH Hs H Hin).
Qed.

Lemma stack_find_subscript k s :
  stack_find k (snd (stack_subscript k s)) = Some (fst (stack_subscript k s)).
Proof.
  unfold stack_subscript. destruct (stack_find k s) eqn:E; simpl.
  - exact E.
  - apply stack_find_assign_eq.
Qed.

Lemma stack_wf_subscript k s : stack_wf s -> stack_wf (snd (stack_subscript k s)).
Proof.
  intros Hwf. unfold stack_subscript. destruct (stack_find k s); simpl.
  - exact Hwf.
  - now apply stack_wf_assign.
Qed.

Lemma stack_wf_set_result k r s : stack_wf s -> stack_wf (stack_set_result k r s).
Proof.
  intros Hwf. unfold stack_set_result.
  pose proof (stack_wf_subscript k s Hwf) as H.
  destruct (stack_subscript k s) as [st s1]. simpl in H.
  now apply stack_wf_assign.
Qed.

(** What [replace] returns and what it leaves behind. *)
Lemma replace_spec k r s :
  replace k r s =
    (match stack_find k s with Some st => result st | None => RunResult_default end,
     stack_assign k {| result := r;
                       sev := match stack_find k s with
                              | Some st => sev st
                              | None => None
                              end |} s).
Proof.
  unfold replace, stack_set_result, stack_subscript.
  destruct (stack_find k s) as [st |] eqn:E.
  - rewrite E. reflexivity.
  - rewrite stack_find_assign_eq. simpl. now rewrite stack_assign_assign.
Qed.

Lemma stack_wf_replace k r s : stack_wf s -> stack_wf (snd (replace k r s)).
Proof. intros Hwf. rewrite replace_spec. simpl. now apply stack_wf_assign. Qed.

Lemma keys_erase_if pred s n s' :
  erase_if pred s = Returned (n, s') -> sublist (keys s') (keys s).
Proof.
  revert n s'. induction s as [| [k st] s IH]; simpl; intros n s' H.
  - injection H as <- <-. constructor.
  - destruct (pred st) as [b | |]; simpl in H; try discriminate.
    destruct (erase_if pred s) as [[m rest] | |]; simpl in H; try discriminate.
    specialize (IH _ _ eq_refl).
    destruct b; injection H as <- <-; simpl.
    + now apply sublist_cons.
    + now apply sublist_skip.
Qed.

Lemma StronglySorted_sublist {A} (R : A -> A -> Prop) (l1 l2 : list A) :
  sublist l1 l2 -> StronglySorted R l2 -> StronglySorted R l1.
Proof.
  induction 1 as [| x l1 l2 Hsub IH | x l1 l2 Hsub IH]; intros Hs.
  - constructor.
  - apply StronglySorted_inv in Hs as [Hs Hall]. constructor; [now apply IH |].
    rewrite List.Forall_forall in *. intros y Hy. apply Hall.
    apply list_elem_of_In. apply list_elem_of_In in Hy.
    eapply elem_of_sublist; eassumption.
  - apply StronglySorted_inv in Hs as [Hs _]. now apply IH.
Qed.

Lemma stack_wf_erase_if pred s n s' :
  erase_if pred s = Returned (n, s') -> stack_wf s -> stack_wf s'.
Proof.
  intros H. apply StronglySorted_sublist. eapply keys_erase_if. exact H.
Qed.

Lemma keys_invalid_if cond s n s' :
  invalid_if cond s = Returned (n, s') -> keys s' = keys s.
Proof.
  revert n s'. induction s as [| [k st] s IH]; simpl; intros n s' H.
  - now injection H as <- <-.
  - destruct (cond st) as [b | |]; simpl in H; try discriminate.
    destruct (invalid_if cond s) as [[m rest] | |]; simpl in H; try discriminate.
    specialize (IH _ _ eq_refl).
    destruct b; injection H as <- <-; simpl; now rewrite IH.
Qed.

Lemma stack_wf_invalid_if cond s n s' :
  invalid_if cond s = Returned (n, s') -> stack_wf s -> stack_wf s'.
Proof. intros H. unfold stack_wf. now rewrite (keys_invalid_if _ _ _ _ H). Qed.

(** Two sorted key lists with the same members are the same list. *)
Lemma sorted_keys_unique (l1 l2 : list string) :
  StronglySorted key_lt l1 -> StronglySorted key_lt l2 ->
  (forall k, In k l1 <-> In k l2) -> l1 = l2.
Proof.
  revert l2. induction l1 as [| a l1 IH]; intros l2 H1 H2 Hmem.
  - destruct l2 as [| b l2]; [reflexivity |].
    destruct (proj2 (Hmem b) (or_introl eq_refl)).
  - destruct l2 as [| b l2].
    + destruct (proj1 (Hmem a) (or_introl eq_refl)).
    + apply StronglySorted_inv in H1 as [H1 A1].
      apply StronglySorted_inv in H2 as [H2 A2].
      rewrite List.Forall_forall in A1, A2.
      assert (a = b) as ->.
      { destruct (proj1 (Hmem a) (or_introl eq_refl)) as [E | Ha]; [congruence |].
        destruct (proj2 (Hmem b) (or_introl eq_refl)) as [E | Hb]; [congruence |].
        destruct (key_lt_irrefl a).
        exact (key_lt_trans _ _ _ (A1 _ Hb) (A2 _ Ha)). }
      f_equal. apply IH; try assumption.
      intros k. split; intros Hk.
      * destruct (proj1 (Hmem k) (or_intror Hk)) as [E | Hk']; [| exact Hk'].
        subst k. destruct (key_lt_irrefl _ (A1 _ Hk)).
      * destruct (proj2 (Hmem k) (or_intror Hk)) as [E | Hk']; [| exact Hk'].
        subst k. destruct (key_lt_irrefl _ (A2 _ Hk)).
Qed.

Lemma keys_assign_found k v s e :
  stack_find k s = Some e -> keys (stack_assign k v s) = keys s.
Proof.
  induction s as [| [k0 v0] s IH]; simpl; [discriminate |].
  destruct (key_compare k k0) eqn:E; simpl; intros H.
  - reflexivity.
  - discriminate.
  - now rewrite IH.
Qed.

Lemma length_assign_new k v s :
  stack_find k s = None -> List.length (stack_assign k v s) = S (List.length s).
Proof.
  induction s as [| [k0 v0] s IH]; simpl; [reflexivity |].
  destruct (key_compare k k0) eqn:E; simpl; intros H.
  - discriminate.
  - reflexivity.
  - now rewrite IH.
Qed.

(** ** Walking the live map *)

Lemma stack_next_first cur k st s :
  before cur k -> stack_next cur ((k, st) :: s) = Some (k, st).
Proof.
  destruct cur as [c |]; simpl; [| reflexivity].
  intros H. apply key_ltb_lt in H. now rewrite H.
Qed.

Lemma stack_next_app_skip c s1 s2 :
  (forall k, In k (keys s1) -> ~ key_lt c k) ->
  stack_next (Some c) (s1 ++ s2) = stack_next (Some c) s2.
Proof.
  induction s1 as [| [k st] s1 IH]; simpl; intros H; [reflexivity |].
  destruct (key_ltb c k) eqn:E.
  - apply key_ltb_lt in E. destruct (H k (or_introl eq_refl) E).
  - apply IH. intros k' Hk'. apply H. now right.
Qed.

Lemma sorted_app_lt (pre post : list string) a b :
  StronglySorted key_lt (pre ++ post) -> In a pre -> In b post -> key_lt a b.
Proof.
  induction pre as [| x pre IH]; simpl; intros Hs Ha Hb; [destruct Ha |].
  apply StronglySorted_inv in Hs as [Hs Hall].
  destruct Ha as [-> | Ha].
  - rewrite List.Forall_forall in Hall. apply Hall. apply in_or_app. now right.
  - now apply IH.
Qed.

Lemma sorted_app_l (pre post : list string) :
  StronglySorted key_lt (pre ++ post) -> StronglySorted key_lt pre.
Proof.
  intros Hs. eapply StronglySorted_sublist; [| exact Hs].
  now apply sublist_inserts_r.
Qed.

(** In a sorted list the keys up to the cursor are not ahead of it. *)
Lemma cursor_not_before c pre0 post k :
  StronglySorted key_lt ((pre0 ++ [c]) ++ post) -> In k (pre0 ++ [c]) -> ~ key_lt c k.
Proof.
  intros Hs Hk L. apply in_app_or in Hk as [Hk | [-> | []]].
  - apply sorted_app_l in Hs.
    pose proof (sorted_app_lt pre0 [c] k c Hs Hk (or_introl eq_refl)) as L'.
    exact (key_lt_irrefl _ (key_lt_trans _ _ _ L L')).
  - exact (key_lt_irrefl _ L).
Qed.

Lemma stack_find_app s1 k st s2 :
  stack_wf (s1 ++ (k, st) :: s2) -> stack_find k (s1 ++ (k, st) :: s2) = Some st.
Proof.
  unfold stack_wf, keys. induction s1 as [| [k1 st1] s1 IH]; simpl; intros Hs.
  - now rewrite key_compare_refl.
  - apply StronglySorted_inv in Hs as [Hs Hall].
    rewrite List.Forall_forall in Hall.
    assert (key_lt k1 k) as L.
    { apply Hall. rewrite map_app. apply in_or_app. right. now left. }
    rewrite (key_lt_gt _ _ L). now apply IH.
Qed.

Lemma keys_split s pre k post :
  keys s = pre ++ k :: post ->
  exists s1 st s2, s = s1 ++ (k, st) :: s2 /\ keys s1 = pre /\ keys s2 = post.
Proof.
  unfold keys. intros H.
  apply List.map_eq_app in H as (s1 & s2' & -> & H1 & H2).
  destruct s2' as [| [k' st] s2]; simpl in H2; [discriminate |].
  injection H2 as -> H2. now exists s1, st, s2.
Qed.

Lemma stack_next_at cur s pre k post :
  stack_wf s -> keys s = pre ++ k :: post -> cursor_ok cur pre ->
  exists st, stack_next cur s = Some (k, st) /\ stack_find k s = Some st.
Proof.
  intros Hwf Hk Hc.
  destruct (keys_split _ _ _ _ Hk) as (s1 & st & s2 & -> & H1 & H2).
  exists st. split; [| now apply stack_find_app].
  unfold stack_wf in Hwf. rewrite Hk in Hwf.
  destruct cur as [c |]; simpl in Hc.
  - destruct Hc as [pre0 ->].
    rewrite stack_next_app_skip.
    + apply stack_next_first. simpl.
      apply (sorted_app_lt (pre0 ++ [c]) (k :: post)); [exact Hwf | | now left].
      apply in_or_app. right. now left.
    + rewrite H1. intros k' Hk'.
      exact (cursor_not_before c pre0 (k :: post) k' Hwf Hk').
  - subst pre. destruct s1; [| discriminate]. reflexivity.
Qed.

Lemma stack_next_end cur s pre :
  stack_wf s -> keys s = pre -> cursor_ok cur pre -> stack_next cur s = None.
Proof.
  intros Hwf Hk Hc. destruct cur as [c |]; simpl in Hc.
  - destruct Hc as [pre0 ->].
    rewrite <- (app_nil_r s). rewrite stack_next_app_skip; [reflexivity |].
    rewrite Hk. intros k' Hk'. unfold stack_wf in Hwf. rewrite Hk in Hwf.
    rewrite <- (app_nil_r (pre0 ++ [c])) in Hwf.
    exact (cursor_not_before c pre0 [] k' Hwf Hk').
  - subst pre. destruct s; [reflexivity | discriminate].
Qed.

Section Walk.

Context {W : Type}.
Variable stack_of : W -> outcome ExecuteStack.
Variable visit : string -> ExecState -> W -> outcome W.

(** [I] holds along the walk and fixes the keys of the map. *)
Variable I : W -> Prop.
Variable ks : list string.
Hypothesis ks_sorted : StronglySorted key_lt ks.
Hypothesis I_keys : forall w, I w -> exists s, stack_of w = Returned s /\ keys s = ks.
Hypothesis I_visit : forall w s k st w',
  I w -> stack_of w = Returned s -> stack_find k s = Some st ->
  visit k st w = Returned w' -> I w'.

Lemma foreach_walk_from post : forall pre cur fuel w,
  ks = pre ++ post -> cursor_ok cur pre -> (List.length post < fuel)%nat -> I w ->
  foreach fuel stack_of visit cur w = walk stack_of visit post w.
Proof.
  induction post as [| k post IH]; intros pre cur fuel w Hks Hc Hf HI;
    (destruct fuel as [| fuel]; [simpl in Hf; lia |]);
    destruct (I_keys w HI) as (s & Hs & Hkeys); simpl; rewrite Hs; simpl.
  - rewrite (stack_next_end cur s pre); [reflexivity | | | exact Hc].
    + unfold stack_wf. now rewrite Hkeys.
    + rewrite Hkeys, Hks. apply app_nil_r.
  - destruct (stack_next_at cur s pre k post) as (st & Hn & Hfind);
      [unfold stack_wf; now rewrite Hkeys | now rewrite Hkeys | exact Hc |].
    rewrite Hn, Hfind.
    destruct (visit k st w) as [w' | c | ] eqn:Hv; simpl; try reflexivity.
    apply (IH (pre ++ [k])).
    + rewrite Hks, <- app_assoc. reflexivity.
    + simpl. now exists pre.
    + simpl in Hf. lia.
    + exact (I_visit w s k st w' HI Hs Hfind Hv).
Qed.

Lemma foreach_walk fuel w :
  (List.length ks < fuel)%nat -> I w ->
  foreach fuel stack_of visit None w = walk stack_of visit ks w.
Proof. intros Hf HI. now apply (foreach_walk_from ks []). Qed.

End Walk.

(** ** [ServiceManager] on its map *)

Lemma stack_find_keys k s :
  stack_wf s -> In k (keys s) -> exists st, stack_find k s = Some st.
Proof.
  intros Hwf Hin. apply in_split in Hin as (pre & post & Hk).
  destruct (keys_split _ _ _ _ Hk) as (s1 & st & s2 & -> & _ & _).
  exists st. now apply stack_find_app.
Qed.

Lemma walk_record s : stack_wf s -> forall ks visited,
  (forall k, In k ks -> In k (keys s)) ->
  walk (fun _ : list string => Returned s)
       (fun k _ visited => Returned (visited ++ [k])) ks visited
  = Returned (visited ++ ks).
Proof.
  intros Hwf. induction ks as [| k ks IH]; intros visited Hin; simpl.
  - now rewrite app_nil_r.
  - destruct (stack_find_keys k s Hwf (Hin k (or_introl eq_refl))) as [st ->].
    simpl. rewrite IH.
    + now rewrite <- app_assoc.
    + intros k' Hk'. apply Hin. now right.
Qed.

Lemma visit_order_keys s : stack_wf s -> visit_order s = Returned (keys s).
Proof.
  intros Hwf. unfold visit_order.
  rewrite (foreach_walk _ _ (fun _ => True) (keys s)).
  - now rewrite walk_record.
  - exact Hwf.
  - intros w _. now exists s.
  - trivial.
  - unfold keys. rewrite length_map. lia.
  - trivial.
Qed.

Lemma stack_after_wf l : stack_wf (stack_after l).
Proof.
  unfold stack_after.
  assert (forall s0, stack_wf s0 ->
            stack_wf (fold_left (fun s e => stack_assign (fst e) (snd e) s) l s0)) as H.
  { induction l as [| e l IH]; intros s0 H0; simpl; [exact H0 |].
    apply IH. now apply stack_wf_assign. }
  apply H. constructor.
Qed.

Lemma stack_after_keys l k :
  In k (keys (stack_after l)) <-> In k (map fst l).
Proof.
  unfold stack_after.
  assert (forall s0, In k (keys (fold_left (fun s e => stack_assign (fst e) (snd e) s) l s0))
                     <-> In k (map fst l) \/ In k (keys s0)) as H.
  { induction l as [| e l IH]; intros s0; simpl; [tauto |].
    rewrite IH, keys_assign_In. intuition. }
  rewrite H. simpl. tauto.
Qed.

(** C7. [foreach] visits the nodes by ascending key, and the order of the
    visits is fixed by the set of keys: two maps built by assignments with
    the same keys, in whatever order, are walked in the same order. *)
Theorem foreach_visits_in_key_order (l1 l2 : list (string * ExecState)) :
  (forall k, In k (map fst l1) <-> In k (map fst l2)) ->
  visit_order (stack_after l1) = Returned (keys (stack_after l1)) /\
  StronglySorted key_lt (keys (stack_after l1)) /\
  (forall k, In k (keys (stack_after l1)) <-> In k (map fst l1)) /\
  visit_order (stack_after l2) = visit_order (stack_after l1).
Proof.
  intros Hsame.
  split; [apply visit_order_keys, stack_after_wf |].
  split; [apply stack_after_wf |].
  split; [apply stack_after_keys |].
  rewrite !visit_order_keys by apply stack_after_wf.
  f_equal. apply sorted_keys_unique; try apply stack_after_wf.
  intros k. rewrite !stack_after_keys. symmetry. apply Hsame.
Qed.

(** C9. [replace(id, R1)] followed by [replace(id, R2)] returns [R1] from the
    second call and leaves [R2] in the node of [id]. *)
Theorem replace_round_trip (id : string) (R1 R2 : RunResult) (s : ExecuteStack) :
  let s1 := snd (replace id R1 s) in
  fst (replace id R2 s1) = R1 /\
  result <$> stack_find id (snd (replace id R2 s1)) = Some R2.
Proof.
  simpl. rewrite !replace_spec. simpl.
  rewrite !stack_find_assign_eq. simpl. split; reflexivity.
Qed.

Lemma invalid_if_true s :
  invalid_if (fun _ => Returned true) s =
  Returned (List.length s,
            map (fun e => (fst e, {| result := RunResult_default; sev := sev (snd e) |})) s).
Proof.
  induction s as [| [k st] s IH]; simpl; [reflexivity |].
  rewrite IH. reflexivity.
Qed.

(** C10. The unconditional [invalid()] resets the cached result of every
    node to the inert one, and the [invalid_if] under it counts every node of
    the map, the already inert ones included. *)
Theorem invalid_resets_every_entry (s : ExecuteStack) :
  (exists s', invalid_if (fun _ => Returned true) s = Returned (List.length s, s') /\
              invalid s = Returned s' /\
              keys s' = keys s /\
              map (fun e => sev (snd e)) s' = map (fun e => sev (snd e)) s /\
              Forall (fun e => result (snd e) = RunResult_default /\
                               ill (result (snd e)) = true) s').
Proof.
  eexists. split; [apply invalid_if_true |].
  split; [unfold invalid; now rewrite invalid_if_true |].
  split; [unfold keys; rewrite map_map; reflexivity |].
  split; [rewrite map_map; reflexivity |].
  apply List.Forall_forall. intros e He.
  apply in_map_iff in He as (e0 & <- & _). simpl. split; reflexivity.
Qed.

(** ** [ServiceManager] inside a service object *)

Section Manager.

Variable Env : Type.
Variable type_name : Impl -> string.
Implicit Types (st : Store Env) (s : ExecuteStack) (this : addr).

Lemma stack_at_obj this st s :
  stack_at this st = Returned s <->
  exists o, heap st !! this = Some o /\ mgr_ o = s.
Proof.
  unfold stack_at, obj_at. destruct (heap st !! this) as [o |]; simpl.
  - split; [intros [= <-]; now exists o | intros (o' & [= <-] & <-); reflexivity].
  - split; [discriminate | intros (o' & H & _); discriminate].
Qed.

Lemma set_stack_returns this s st o :
  heap st !! this = Some o ->
  set_stack this s st =
    Returned (set_heap (<[this := {| cls := cls o; mgr_ := s |}]> (heap st)) st).
Proof. intros H. unfold set_stack, obj_at. now rewrite H. Qed.

Lemma set_stack_inv this s st st' :
  set_stack this s st = Returned st' ->
  exists o, heap st !! this = Some o /\
    st' = set_heap (<[this := {| cls := cls o; mgr_ := s |}]> (heap st)) st.
Proof.
  unfold set_stack, obj_at. destruct (heap st !! this) as [o |]; simpl; [| discriminate].
  intros [= <-]. now exists o.
Qed.

Lemma stack_at_set_stack this s st st' :
  set_stack this s st = Returned st' -> stack_at this st' = Returned s.
Proof.
  intros H. apply set_stack_inv in H as (o & Ho & ->).
  apply stack_at_obj. eexists. split; [apply lookup_insert_eq | reflexivity].
Qed.

Lemma on_stack_inv this f st st' :
  on_stack this f st = Returned st' ->
  exists s s', stack_at this st = Returned s /\ f s = Returned s' /\
               stack_at this st' = Returned s'.
Proof.
  unfold on_stack. destruct (stack_at this st) as [s | |] eqn:Hs; simpl; try discriminate.
  destruct (f s) as [s' | |] eqn:Hf; simpl; try discriminate.
  intros H. exists s, s'. repeat split; trivial. eapply stack_at_set_stack, H.
Qed.

Lemma on_stack_ok this f st st' :
  (forall s s', stack_wf s -> f s = Returned s' -> stack_wf s') ->
  stack_ok this st -> on_stack this f st = Returned st' -> stack_ok this st'.
Proof.
  intros Hf (s & Hs & Hwf) H.
  apply on_stack_inv in H as (s0 & s' & Hs0 & Hfs & Hs').
  rewrite Hs in Hs0. injection Hs0 as <-.
  exists s'. split; [exact Hs' | eauto].
Qed.

Lemma add_inv this p st st' :
  add type_name this p st = Returned st' ->
  exists id s, identity type_name p st = Returned id /\
    stack_at this st = Returned s /\
    stack_at this st' =
      Returned (stack_assign id {| result := RunResult_default; sev := p |} s).
Proof.
  unfold add. destruct (identity type_name p st) as [id | |]; simpl; try discriminate.
  destruct (stack_at this st) as [s | |] eqn:Hs; simpl; try discriminate.
  intros H. exists id, s. repeat split; trivial. eapply stack_at_set_stack, H.
Qed.

Lemma add_returns this p st id s :
  identity type_name p st = Returned id -> stack_at this st = Returned s ->
  exists st', add type_name this p st = Returned st' /\
    stack_at this st' =
      Returned (stack_assign id {| result := RunResult_default; sev := p |} s) /\
    (forall q, identity type_name q st' = identity type_name q st).
Proof.
  intros Hid Hs. unfold add. rewrite Hid, Hs. simpl.
  apply stack_at_obj in Hs as (o & Ho & <-).
  rewrite (set_stack_returns _ _ _ _ Ho).
  eexists. split; [reflexivity |]. split.
  - apply stack_at_obj. eexists. split; [apply lookup_insert_eq | reflexivity].
  - intros [q |]; simpl; [| reflexivity]. unfold obj_at. simpl.
    destruct (decide (this = q)) as [<- | Hne].
    + rewrite lookup_insert_eq, Ho. reflexivity.
    + now rewrite lookup_insert_ne.
Qed.

(** [require] never returns: an unknown name terminates, and for a known one
    [sev->identity()] is evaluated on the pointer that was moved from. *)
Lemma require_never_returns this name st : ~ returns (require type_name this name st).
Proof.
  intros [st' H]. unfold require in H.
  destruct (registry st !! name) as [ctor |]; [| discriminate].
  destruct (make_shared ctor st) as [p st1]. simpl in H. discriminate.
Qed.

Lemma remove_inv this name st b st' :
  remove type_name this name st = Returned (b, st') ->
  exists s n s', stack_at this st = Returned s /\
    erase_if (fun state => id ← identity type_name (sev state) st;
                           Returned (String.eqb name id)) s = Returned (n, s') /\
    b = Nat.leb 1 n /\ stack_at this st' = Returned s'.
Proof.
  unfold remove. destruct (stack_at this st) as [s | |]; simpl; try discriminate.
  destruct (erase_if _ s) as [[n s'] | |] eqn:He; simpl; try discriminate.
  destruct (set_stack this s' st) as [st1 | |] eqn:Hset; simpl; try discriminate.
  intros [= <- <-]. exists s, n, s'. repeat split; trivial.
  eapply stack_at_set_stack, Hset.
Qed.

Lemma invalid_name_inv this name st b st' :
  invalid_name type_name this name st = Returned (b, st') ->
  exists s n s', stack_at this st = Returned s /\
    invalid_if (fun state => id ← identity type_name (sev state) st;
                             Returned (String.eqb id name)) s = Returned (n, s') /\
    b = Nat.ltb 0 n /\ stack_at this st' = Returned s'.
Proof.
  unfold invalid_name. destruct (stack_at this st) as [s | |]; simpl; try discriminate.
  destruct (invalid_if _ s) as [[n s'] | |] eqn:He; simpl; try discriminate.
  destruct (set_stack this s' st) as [st1 | |] eqn:Hset; simpl; try discriminate.
  intros [= <- <-]. exists s, n, s'. repeat split; trivial.
  eapply stack_at_set_stack, Hset.
Qed.

Lemma stack_ok_NoDup this st s :
  stack_ok this st -> stack_at this st = Returned s -> NoDup (keys s).
Proof.
  intros (s0 & Hs0 & Hwf) Hs. rewrite Hs0 in Hs. injection Hs as <-.
  now apply stack_wf_NoDup.
Qed.

(** Every operation of the manager leaves the map well formed. *)
Lemma manager_call_ok this c st st' :
  stack_ok this st -> manager_call type_name this c st = Returned st' ->
  stack_ok this st'.
Proof.
  intros Hok Hc. destruct c; simpl in Hc.
  - destruct (require_never_returns this service_name st). now exists st'.
  - eapply on_stack_ok; [| exact Hok | exact Hc].
    intros s s' _ [= <-]. constructor.
  - destruct (remove type_name this service_name st) as [[b st1] | |] eqn:Hr;
      simpl in Hc; try discriminate. injection Hc as <-.
    apply remove_inv in Hr as (s & n & s' & Hs & He & _ & Hs').
    destruct Hok as (s0 & Hs0 & Hwf). rewrite Hs in Hs0. injection Hs0 as <-.
    exists s'. split; [exact Hs' |]. eapply stack_wf_erase_if; eassumption.
  - eapply on_stack_ok; [| exact Hok | exact Hc].
    intros s s' Hwf H. apply bind_returned in H as ([n s1] & He & [= <-]).
    eapply stack_wf_invalid_if; eassumption.
  - eapply on_stack_ok; [| exact Hok | exact Hc].
    intros s s' Hwf H. unfold invalid_if_ret in H.
    apply bind_returned in H as ([n s1] & He & [= <-]).
    eapply stack_wf_invalid_if; eassumption.
  - destruct (invalid_name type_name this sev_name st) as [[b st1] | |] eqn:Hr;
      simpl in Hc; try discriminate. injection Hc as <-.
    apply invalid_name_inv in Hr as (s & n & s' & Hs & He & _ & Hs').
    destruct Hok as (s0 & Hs0 & Hwf). rewrite Hs in Hs0. injection Hs0 as <-.
    exists s'. split; [exact Hs' |]. eapply stack_wf_invalid_if; eassumption.
  - eapply on_stack_ok; [| exact Hok | exact Hc].
    intros s s' Hwf H. unfold invalid in H.
    apply bind_returned in H as ([n s1] & He & [= <-]).
    eapply stack_wf_invalid_if; eassumption.
  - eapply on_stack_ok; [| exact Hok | exact Hc].
    intros s s' Hwf [= <-]. now apply stack_wf_replace.
  - destruct Hok as (s & Hs & Hwf).
    apply add_inv in Hc as (id & s0 & _ & Hs0 & Hs').
    rewrite Hs in Hs0. injection Hs0 as <-.
    eexists. split; [exact Hs' |]. now apply stack_wf_assign.
Qed.

(** [add] twice under one identity: the second service takes the node. *)
Lemma add_twice this st A A' id :
  stack_ok this st ->
  identity type_name (Some A) st = Returned id ->
  identity type_name (Some A') st = Returned id ->
  exists st1 st2 s2,
    add type_name this (Some A) st = Returned st1 /\
    add type_name this (Some A') st1 = Returned st2 /\
    stack_at this st2 = Returned s2 /\
    stack_find id s2 = Some {| result := RunResult_default; sev := Some A' |} /\
    count_occ string_dec (keys s2) id = 1%nat /\
    NoDup (keys s2).
Proof.
  intros (s & Hs & Hwf) HA HA'.
  destruct (add_returns this (Some A) st id s HA Hs) as (st1 & Hadd1 & Hs1 & Hid1).
  rewrite <- Hid1 in HA'.
  destruct (add_returns this (Some A') st1 id _ HA' Hs1) as (st2 & Hadd2 & Hs2 & _).
  rewrite stack_assign_assign in Hs2.
  exists st1, st2. eexists. repeat split; try eassumption.
  - apply stack_find_assign_eq.
  - apply NoDup_count_occ'.
    + apply NoDup_ListNoDup, stack_wf_NoDup. now apply stack_wf_assign.
    + apply keys_assign_In. now left.
  - apply stack_wf_NoDup. now apply stack_wf_assign.
Qed.

End Manager.


(** ** What the calls leave in place *)

Lemma entry_kept_refl id s : entry_kept id s s.
Proof.
  split; [trivial |]. intros key. destruct (stack_find key s) as [e |]; [| discriminate].
  now exists e.
Qed.

Lemma entry_kept_trans id s1 s2 s3 :
  entry_kept id s1 s2 -> entry_kept id s2 s3 -> entry_kept id s1 s3.
Proof.
  intros [W12 K12] [W23 K23]. split; [auto |].
  intros key. specialize (K12 key). specialize (K23 key).
  destruct (stack_find key s1) as [e1 |].
  - destruct K12 as (e2 & H2 & E2). rewrite H2 in K23.
    destruct K23 as (e3 & H3 & E3). exists e3. split; [exact H3 | congruence].
  - destruct (stack_find key s2) as [e2 |] eqn:H2.
    + destruct K23 as (e3 & H3 & E3). intros e' He'.
      rewrite H3 in He'. injection He' as <-. rewrite E3. now apply K12.
    + exact K23.
Qed.

(** Writing the result of a node, as [replace] and the dispatcher do. *)
Lemma entry_kept_assign id k r s :
  (stack_find k s = None -> k = id) ->
  entry_kept id s
    (stack_assign k {| result := r;
                       sev := match stack_find k s with
                              | Some e => sev e
                              | None => None
                              end |} s).
Proof.
  intros Hid. split; [apply stack_wf_assign |].
  intros key. destruct (String.string_dec k key) as [<- | Hne].
  - rewrite stack_find_assign_eq. destruct (stack_find k s) as [e |].
    + eexists. split; [reflexivity | reflexivity].
    + intros e' [= <-]. split; [reflexivity | now apply Hid].
  - rewrite (stack_find_assign_ne k key) by exact Hne.
    destruct (stack_find key s) as [e |]; [now exists e | discriminate].
Qed.

Section Frame.

Variable Env : Type.
Variable type_name : Impl -> string.
Implicit Types (st : Store Env) (w : World Env).

Lemma keeps_refl st : keeps type_name st st.
Proof.
  intros a o H. exists o. split; [exact H |]. split; [reflexivity |].
  split; [trivial | intros _; apply entry_kept_refl].
Qed.

Lemma keeps_trans st1 st2 st3 :
  keeps type_name st1 st2 -> keeps type_name st2 st3 -> keeps type_name st1 st3.
Proof.
  intros H12 H23 a o1 H1.
  destruct (H12 a o1 H1) as (o2 & H2 & C2 & W2 & K2).
  destruct (H23 a o2 H2) as (o3 & H3 & C3 & W3 & K3).
  exists o3. split; [exact H3 |]. split; [congruence |]. split; [auto |].
  intros Hd. rewrite C2 in K3.
  eapply entry_kept_trans; [apply K2, Hd | apply K3; congruence].
Qed.

(** The map of one object is replaced. *)
Lemma keeps_update this o s' st :
  heap st !! this = Some o -> (stack_wf (mgr_ o) -> stack_wf s') ->
  (cls o = ServiceSecheduler -> entry_kept (type_name (cls o)) (mgr_ o) s') ->
  keeps type_name st
    (set_heap (<[this := {| cls := cls o; mgr_ := s' |}]> (heap st)) st).
Proof.
  intros Ho Hwf Hk a oa Ha. simpl. destruct (decide (this = a)) as [<- | Hne].
  - rewrite lookup_insert_eq. rewrite Ho in Ha. injection Ha as <-.
    eexists. split; [reflexivity |]. split; [reflexivity |]. split; [exact Hwf | exact Hk].
  - rewrite lookup_insert_ne by exact Hne. exists oa.
    split; [exact Ha |]. split; [reflexivity |].
    split; [trivial | intros _; apply entry_kept_refl].
Qed.

Lemma keeps_set_stack this o s' st st' :
  heap st !! this = Some o -> entry_kept (type_name (cls o)) (mgr_ o) s' ->
  set_stack this s' st = Returned st' -> keeps type_name st st'.
Proof.
  intros Ho Hk Hset.
  apply set_stack_inv in Hset as (o0 & Ho0 & ->).
  rewrite Ho in Ho0. injection Ho0 as <-.
  apply keeps_update; [exact Ho | apply Hk | intros _; exact Hk].
Qed.

Lemma mgr_replace_inv this key newer w old w' :
  mgr_replace this key newer w = Returned (old, w') ->
  exists s, stack_at this (store w) = Returned s /\
    old = fst (replace key newer s) /\
    stack_at this (store w') = Returned (snd (replace key newer s)) /\
    set_stack this (snd (replace key newer s)) (store w) = Returned (store w') /\
    trace w' = trace w.
Proof.
  unfold mgr_replace. intros H.
  apply bind_returned in H as (s & Hs & H).
  destruct (replace key newer s) as [old0 s'] eqn:Hr.
  apply bind_returned in H as (st' & Hset & [= <- <-]).
  exists s. rewrite Hr. simpl. repeat split; trivial.
  eapply stack_at_set_stack, Hset.
Qed.

Lemma mgr_replace_keeps this o newer w old w' :
  heap (store w) !! this = Some o ->
  mgr_replace this (type_name (cls o)) newer w = Returned (old, w') ->
  keeps type_name (store w) (store w').
Proof.
  intros Ho H. apply mgr_replace_inv in H as (s & Hs & _ & _ & Hset & _).
  apply stack_at_obj in Hs as (o0 & Ho0 & <-).
  rewrite Ho in Ho0. injection Ho0 as <-.
  eapply keeps_set_stack; [exact Ho | | exact Hset].
  rewrite replace_spec. simpl. now apply entry_kept_assign.
Qed.

Lemma set_result_inv this key r w w' :
  set_result this key r w = Returned w' ->
  exists s e, stack_at this (store w) = Returned s /\ stack_find key s = Some e /\
    set_stack this (stack_assign key {| result := r; sev := sev e |} s) (store w)
      = Returned (store w') /\
    trace w' = trace w.
Proof.
  unfold set_result. intros H.
  apply bind_returned in H as (s & Hs & H).
  destruct (stack_find key s) as [e |] eqn:Hf; [| discriminate].
  apply bind_returned in H as (st' & Hset & [= <-]).
  exists s, e. repeat split; trivial.
Qed.

Lemma set_result_keeps this key r w w' :
  set_result this key r w = Returned w' -> keeps type_name (store w) (store w').
Proof.
  intros H. apply set_result_inv in H as (s & e & Hs & Hf & Hset & _).
  apply stack_at_obj in Hs as (o & Ho & <-).
  eapply keeps_set_stack; [exact Ho | | exact Hset].
  pose proof (entry_kept_assign (type_name (cls o)) key r (mgr_ o)) as K.
  rewrite Hf in K. apply K. discriminate.
Qed.

(** The null node of a dispatcher stays. *)
Lemma keeps_null_entry this key st st' o :
  keeps type_name st st' ->
  heap st !! this = Some o -> cls o = ServiceSecheduler ->
  null_entry this key st -> null_entry this key st'.
Proof.
  intros K Hobj Hcls (o0 & e & Ho & Hwf & Hf & Hnull).
  rewrite Hobj in Ho. injection Ho as <-.
  destruct (K this o Hobj) as (o' & Ho' & _ & Hwf' & Hk).
  destruct (Hk Hcls) as [_ Hkey].
  specialize (Hkey key). rewrite Hf in Hkey. destruct Hkey as (e' & Hf' & He').
  exists o', e'. repeat split; auto. congruence.
Qed.

(** A null node stays as long as its object is left alone. *)
Lemma null_entry_kept this key st st' :
  (forall o, heap st !! this = Some o -> heap st' !! this = Some o) ->
  null_entry this key st -> null_entry this key st'.
Proof. intros H (o & e & Ho & Hrest). exists o, e. split; [now apply H | exact Hrest]. Qed.

(** *** What an operation of the manager changes *)

Lemma on_stack_set this f st st' :
  on_stack this f st = Returned st' ->
  exists o s', heap st !! this = Some o /\ f (mgr_ o) = Returned s' /\
    st' = set_heap (<[this := {| cls := cls o; mgr_ := s' |}]> (heap st)) st.
Proof.
  unfold on_stack. intros H.
  apply bind_returned in H as (s & Hs & H).
  apply bind_returned in H as (s' & Hf & H).
  apply stack_at_obj in Hs as (o & Ho & <-).
  apply set_stack_inv in H as (o0 & Ho0 & ->).
  rewrite Ho in Ho0. injection Ho0 as <-. now exists o, s'.
Qed.

(** An operation of the manager of [this] that returns has replaced the map
    of [this] by a well-formed one, and nothing else. *)
Lemma manager_call_inv this c st st' :
  manager_call type_name this c st = Returned st' ->
  exists o s', heap st !! this = Some o /\
    st' = set_heap (<[this := {| cls := cls o; mgr_ := s' |}]> (heap st)) st /\
    (stack_wf (mgr_ o) -> stack_wf s').
Proof.
  intros Hc. destruct c; simpl in Hc.
  - destruct (require_never_returns _ type_name this service_name st). now exists st'.
  - apply on_stack_set in Hc as (o & s' & Ho & [= <-] & ->).
    exists o, (remove_all (mgr_ o)). repeat split; trivial. intros _. constructor.
  - apply bind_returned in Hc as ([b st1] & Hr & [= <-]).
    unfold remove in Hr.
    apply bind_returned in Hr as (s & Hs & Hr).
    apply bind_returned in Hr as ([n s'] & He & Hr).
    apply bind_returned in Hr as (st2 & Hset & [= _ <-]).
    apply stack_at_obj in Hs as (o & Ho & <-).
    apply set_stack_inv in Hset as (o0 & Ho0 & ->).
    rewrite Ho in Ho0. injection Ho0 as <-.
    exists o, s'. repeat split; trivial. intros Hwf.
    eapply stack_wf_erase_if; eassumption.
  - apply on_stack_set in Hc as (o & s' & Ho & Hf & ->).
    exists o, s'. repeat split; trivial. intros Hwf.
    apply bind_returned in Hf as ([n s1] & He & [= <-]).
    eapply stack_wf_invalid_if; eassumption.
  - apply on_stack_set in Hc as (o & s' & Ho & Hf & ->).
    exists o, s'. repeat split; trivial. intros Hwf. unfold invalid_if_ret in Hf.
    apply bind_returned in Hf as ([n s1] & He & [= <-]).
    eapply stack_wf_invalid_if; eassumption.
  - apply bind_returned in Hc as ([b st1] & Hr & [= <-]).
    unfold invalid_name in Hr.
    apply bind_returned in Hr as (s & Hs & Hr).
    apply bind_returned in Hr as ([n s'] & He & Hr).
    apply bind_returned in Hr as (st2 & Hset & [= _ <-]).
    apply stack_at_obj in Hs as (o & Ho & <-).
    apply set_stack_inv in Hset as (o0 & Ho0 & ->).
    rewrite Ho in Ho0. injection Ho0 as <-.
    exists o, s'. repeat split; trivial. intros Hwf.
    eapply stack_wf_invalid_if; eassumption.
  - apply on_stack_set in Hc as (o & s' & Ho & Hf & ->).
    exists o, s'. repeat split; trivial. intros Hwf. unfold invalid in Hf.
    apply bind_returned in Hf as ([n s1] & He & [= <-]).
    eapply stack_wf_invalid_if; eassumption.
  - apply on_stack_set in Hc as (o & s' & Ho & [= <-] & ->).
    eexists o, _. repeat split; trivial. intros Hwf. now apply stack_wf_replace.
  - unfold add in Hc.
    apply bind_returned in Hc as (id & Hid & Hc).
    apply bind_returned in Hc as (s & Hs & Hset).
    apply stack_at_obj in Hs as (o & Ho & <-).
    apply set_stack_inv in Hset as (o0 & Ho0 & ->).
    rewrite Ho in Ho0. injection Ho0 as <-.
    eexists o, _. repeat split; trivial. intros Hwf. now apply stack_wf_assign.
Qed.

Lemma set_node_inv this key e st st' :
  set_node this key e st = Returned st' ->
  exists o s', heap st !! this = Some o /\
    st' = set_heap (<[this := {| cls := cls o; mgr_ := s' |}]> (heap st)) st /\
    (stack_wf (mgr_ o) -> stack_wf s').
Proof.
  unfold set_node. intros H.
  apply bind_returned in H as (s & Hs & H).
  destruct (stack_find key s) as [e0 |]; [| discriminate].
  apply stack_at_obj in Hs as (o & Ho & <-).
  apply set_stack_inv in H as (o0 & Ho0 & ->).
  rewrite Ho in Ho0. injection Ho0 as <-.
  eexists o, _. repeat split; trivial. intros Hwf. now apply stack_wf_assign.
Qed.

End Frame.

(** The iterator cannot pass a node that is ahead of it. *)
Lemma stack_next_le cur key e s :
  stack_find key s = Some e -> before cur key ->
  exists k st, stack_next cur s = Some (k, st) /\
    ((k = key /\ st = e) \/ key_lt k key).
Proof.
  induction s as [| [k0 st0] s IH]; simpl; [discriminate |].
  intros Hf Hb. destruct (key_compare key k0) eqn:E.
  - apply key_compare_eq in E. subst k0. injection Hf as <-.
    exists key, st0. split; [| now left].
    destruct cur as [c |]; [| reflexivity].
    simpl in Hb. apply key_ltb_lt in Hb. now rewrite Hb.
  - discriminate.
  - apply key_compare_gt in E.
    destruct cur as [c |].
    + destruct (key_ltb c k0) eqn:L.
      * exists k0, st0. split; [reflexivity | now right].
      * apply IH; assumption.
    + exists k0, st0. split; [reflexivity | now right].
Qed.

Section ForeachFacts.

Context {W : Type}.
Variable stack_of : W -> outcome ExecuteStack.
Variable visit : string -> ExecState -> W -> outcome W.

(** A relation that every visit establishes holds across the traversal. *)
Lemma foreach_rel (R : W -> W -> Prop) :
  (forall w, R w w) -> (forall a b c, R a b -> R b c -> R a c) ->
  (forall k st w w', visit k st w = Returned w' -> R w w') ->
  forall fuel cur w w', foreach fuel stack_of visit cur w = Returned w' -> R w w'.
Proof.
  intros Hrefl Htrans Hvisit. induction fuel as [| fuel IH]; intros cur w w' H;
    simpl in H; [discriminate |].
  apply bind_returned in H as (s & Hs & H).
  destruct (stack_next cur s) as [[k st] |].
  - apply bind_returned in H as (w1 & Hv & H).
    eapply Htrans; [eapply Hvisit, Hv | eapply IH, H].
  - injection H as <-. apply Hrefl.
Qed.

(** A traversal does not get past a node on which the visitor fails, as
    long as the visits before it leave that node in the map. *)
Lemma foreach_stuck (P : W -> Prop) (key : string) :
  (forall w, P w -> exists s e, stack_of w = Returned s /\
                                stack_find key s = Some e /\ sev e = None) ->
  (forall k st w w', P w -> visit k st w = Returned w' -> P w') ->
  (forall k st w, sev st = None -> ~ returns (visit k st w)) ->
  forall fuel cur w, P w -> before cur key ->
    ~ returns (foreach fuel stack_of visit cur w).
Proof.
  intros HP Hkeep Hnull. induction fuel as [| fuel IH]; intros cur w Pw Hb [w' H];
    simpl in H; [discriminate |].
  destruct (HP w Pw) as (s & e & Hs & Hf & He). rewrite Hs in H. simpl in H.
  destruct (stack_next_le cur key e s Hf Hb) as (k & st & Hn & Hcase).
  rewrite Hn in H. apply bind_returned in H as (w1 & Hv & H).
  destruct Hcase as [[-> ->] | Hlt].
  - apply (Hnull key e w He). now exists w1.
  - apply (IH (Some k) w1); [eapply Hkeep; eassumption | exact Hlt | now exists w'].
Qed.

End ForeachFacts.

(** ** The bodies of the hooks *)

Section Perform.

Variable Env : Type.
Variable type_name : Impl -> string.
Context {C A : Type}.
Variable invoke : C -> World Env -> outcome (RunResult * World Env).
Variable this : addr.
Implicit Types (w : World Env) (a : Action Env C A).

(** A relation that every step of a body establishes holds across the body:
    a step writes the environment, replaces the map of the body's own
    object by a well-formed one, registers a type, makes a new object, or
    is a call out of the body. *)
Lemma perform_rel (R : World Env -> World Env -> Prop) :
  (forall w, R w w) -> (forall w1 w2 w3, R w1 w2 -> R w2 w3 -> R w1 w3) ->
  (forall e w, R w (set_store (set_env e (store w)) w)) ->
  (forall w o s', heap (store w) !! this = Some o ->
     (stack_wf (mgr_ o) -> stack_wf s') ->
     R w (set_store
            (set_heap (<[this := {| cls := cls o; mgr_ := s' |}]> (heap (store w)))
               (store w)) w)) ->
  (forall c w,
     R w (set_store
            (set_registry (make_available type_name c (registry (store w))) (store w))
            w)) ->
  (forall c w, R w (set_store (snd (make_shared c (store w))) w)) ->
  (forall c w r w', invoke c w = Returned (r, w') -> R w w') ->
  forall a w x w', perform type_name invoke this a w = Returned (x, w') -> R w w'.
Proof.
  intros Hrefl Htrans Henv Hmap Hreg Hnew Hinv.
  induction a as [x0 | c | k IH | e k IH | k IH | key e k IH | c k IH
                  | k IH | c k IH | c k IH | c k IH];
    intros w x w' H; cbn [perform] in H.
  - injection H as <- <-. apply Hrefl.
  - discriminate.
  - eapply IH, H.
  - eapply Htrans; [apply Henv | eapply IH, H].
  - apply bind_returned in H as (s & _ & H). eapply IH, H.
  - apply bind_returned in H as (st' & Hc & H).
    apply set_node_inv in Hc as (o & s' & Ho & -> & Hwf).
    eapply Htrans; [eapply Hmap; eassumption | eapply IH, H].
  - apply bind_returned in H as (st' & Hc & H).
    apply manager_call_inv in Hc as (o & s' & Ho & -> & Hwf).
    eapply Htrans; [eapply Hmap; eassumption | eapply IH, H].
  - eapply IH, H.
  - eapply Htrans; [apply Hreg | eapply IH, H].
  - pose proof (Hnew c w) as Hc. destruct (make_shared c (store w)) as [p st'].
    eapply Htrans; [exact Hc | eapply IH, H].
  - apply bind_returned in H as ([r w1] & Hi & H).
    eapply Htrans; [eapply Hinv, Hi | eapply IH, H].
Qed.

(** A new object is at an address that was not in use. *)
Lemma make_shared_frame c (st : Store Env) b o :
  heap st !! b = Some o -> heap (snd (make_shared c st)) !! b = Some o.
Proof.
  intros Hb. unfold make_shared. simpl. rewrite lookup_insert_ne; [exact Hb |].
  intros E. pose proof (is_fresh (dom (heap st))) as Hf. apply Hf.
  rewrite E. apply elem_of_dom. now exists o.
Qed.

End Perform.

(** ** The lifecycle template *)

Section Lifecycle.

Variables (Bot Event Env : Type).
Variable type_name : Impl -> string.
Variable hooks : nat -> Hooks Bot Event Env.
Implicit Types (st : Store Env) (w : World Env) (bot : Bot) (event : Event).

(** A body that makes no call leaves the trace and the other objects as
    they are. *)
Lemma perform_no_call {A} this (a : Action Env Empty_set A) w x w' :
  perform type_name no_call this a w = Returned (x, w') ->
  trace w' = trace w /\
  forall b o, b <> this -> heap (store w) !! b = Some o ->
    heap (store w') !! b = Some o.
Proof.
  apply (perform_rel _ type_name no_call this
           (fun w w' => trace w' = trace w /\
              forall b o, b <> this -> heap (store w) !! b = Some o ->
                heap (store w') !! b = Some o)).
  - now split.
  - intros w1 w2 w3 [T1 H1] [T2 H2]. split; [congruence |].
    intros b o Hb Ho. apply H2; [exact Hb |]. now apply H1.
  - intros e w0. now split.
  - intros w0 o s' Ho _.
    split; [reflexivity |]. intros b ob Hb Hob. simpl.
    rewrite lookup_insert_ne by congruence. exact Hob.
  - intros c w0. now split.
  - intros c w0. split; [reflexivity |]. intros b ob _ Hob. simpl.
    now apply make_shared_frame.
  - intros [].
Qed.

(** The body of a hook of an object of a concrete type of the program keeps
    the objects, whatever it does to the map of its own. *)
Lemma perform_keeps {C A} invoke this (a : Action Env C A) w x w' o n :
  (forall c w r w', invoke c w = Returned (r, w') -> keeps type_name (store w) (store w')) ->
  heap (store w) !! this = Some o -> cls o = UserImpl n ->
  perform type_name invoke this a w = Returned (x, w') ->
  keeps type_name (store w) (store w').
Proof.
  intros Hinv Ho Hcls H.
  refine (perform_rel _ type_name invoke this
            (fun w w' => (exists o, heap (store w) !! this = Some o /\ cls o = UserImpl n) ->
                         keeps type_name (store w) (store w')) _ _ _ _ _ _ _ a w x w' H _);
    [| | | | | | | now exists o].
  - intros w0 _. apply keeps_refl.
  - intros w1 w2 w3 K12 K23 P1. specialize (K12 P1).
    eapply keeps_trans; [exact K12 |]. apply K23.
    destruct P1 as (o1 & Ho1 & Hc1). destruct (K12 this o1 Ho1) as (o2 & Ho2 & Hc2 & _).
    exists o2. split; [exact Ho2 | congruence].
  - intros e w0 _. intros a0 o0 Ha. exists o0. split; [exact Ha |].
    split; [reflexivity |]. split; [trivial | intros _; apply entry_kept_refl].
  - intros w0 o2 s' Ho2 Hwf (o1 & Ho1 & Hc1). simpl.
    rewrite Ho1 in Ho2. injection Ho2 as <-.
    apply keeps_update; [exact Ho1 | exact Hwf | congruence].
  - intros c w0 _. intros a0 o0 Ha. exists o0. split; [exact Ha |].
    split; [reflexivity |]. split; [trivial | intros _; apply entry_kept_refl].
  - intros c w0 _. intros a0 o0 Ha. exists o0.
    split; [now apply make_shared_frame |].
    split; [reflexivity |]. split; [trivial | intros _; apply entry_kept_refl].
  - intros c w0 r w1 Hi _. eapply Hinv, Hi.
Qed.

Lemma Impl_run_keeps serve_rec fuel bot event this w o r w' :
  (forall bot event a w r w',
     serve_rec bot event a w = Returned (r, w') -> keeps type_name (store w) (store w')) ->
  heap (store w) !! this = Some o ->
  Impl_run type_name hooks serve_rec fuel (cls o) bot event this w = Returned (r, w') ->
  keeps type_name (store w) (store w').
Proof.
  intros IH Ho H. unfold Impl_run in H. destruct (cls o) as [| n] eqn:Hcls.
  - unfold ServiceSecheduler_run in H.
    apply bind_returned in H as (w2 & Hfe & [= <- <-]).
    apply (foreach_rel _ _ (fun a b => keeps type_name (store a) (store b))) in Hfe.
    + exact Hfe.
    + intros a. apply keeps_refl.
    + intros a b c. apply keeps_trans.
    + intros k e w0 w0' Hv. destruct (sev e) as [child |]; [| discriminate].
      apply bind_returned in Hv as ([r2 w3] & Hs & Hset).
      eapply keeps_trans; [eapply IH, Hs | eapply set_result_keeps, Hset].
  - eapply (perform_keeps _ this _ (log (HookRun this) w)); [| exact Ho | exact Hcls | exact H].
    intros [[p b] ev] w0 r0 w1 Hi. simpl in Hi.
    destruct p as [child |]; [| discriminate]. eapply IH, Hi.
Qed.

(** [serve] keeps every object, with its type and a well-formed map; in the
    map of a dispatcher it unlinks no node and changes the service of none. *)
Lemma serve_keeps fuel : forall bot event this w r w',
  serve type_name hooks fuel bot event this w = Returned (r, w') ->
  keeps type_name (store w) (store w').
Proof.
  induction fuel as [| fuel IH]; intros bot event this w r w' H; simpl in H;
    [discriminate |].
  apply bind_returned in H as (o & Ho & H).
  apply bind_returned in H as ([r1 w1] & Hrun & H).
  unfold obj_at in Ho.
  destruct (heap (store w) !! this) as [o0 |] eqn:Ho0; [| discriminate].
  injection Ho as ->.
  apply (Impl_run_keeps _ _ _ _ _ (log (CallServe this) w) o) in Hrun;
    [| exact IH | exact Ho0].
  destruct (Hrun this o Ho0) as (o1 & Ho1 & Hcls1 & _).
  eapply keeps_trans; [exact Hrun |].
  rewrite <- Hcls1 in H. eapply mgr_replace_keeps; [exact Ho1 | exact H].
Qed.

(** The [load] and [unload] hooks of the object at [this]: what they leave
    alone. *)
Lemma Impl_load_inv c bot this w w' :
  Impl_load type_name hooks c bot this w = Returned w' ->
  trace w' = trace w ++ [HookLoad this] /\
  forall b o, b <> this -> heap (store w) !! b = Some o ->
    heap (store w') !! b = Some o.
Proof.
  unfold Impl_load. destruct c as [| n].
  - intros [= <-]. now split.
  - intros H. apply bind_returned in H as ([u w1] & Hp & [= <-]).
    apply perform_no_call in Hp. exact Hp.
Qed.

Lemma Impl_unload_inv c bot this w w' :
  Impl_unload type_name hooks c bot this w = Returned w' ->
  trace w' = trace w ++ [HookUnload this] /\
  forall b o, b <> this -> heap (store w) !! b = Some o ->
    heap (store w') !! b = Some o.
Proof.
  unfold Impl_unload. destruct c as [| n].
  - intros [= <-]. now split.
  - intros H. apply bind_returned in H as ([u w1] & Hp & [= <-]).
    apply perform_no_call in Hp. exact Hp.
Qed.

Lemma Impl_unload_keeps bot this w o w' :
  heap (store w) !! this = Some o ->
  Impl_unload type_name hooks (cls o) bot this w = Returned w' ->
  keeps type_name (store w) (store w').
Proof.
  intros Ho H. unfold Impl_unload in H. destruct (cls o) as [| n] eqn:Hcls.
  - injection H as <-. apply keeps_refl.
  - apply bind_returned in H as ([u w1] & Hp & [= <-]).
    eapply (perform_keeps _ this _ (log (HookUnload this) w)); [| exact Ho | exact Hcls | exact Hp].
    intros [].
Qed.

(** [uninstall] keeps every object, with its type and a well-formed map,
    and leaves the maps of the dispatchers as they are. *)
Lemma uninstall_keeps fuel : forall bot this w w',
  uninstall type_name hooks fuel bot this w = Returned w' ->
  keeps type_name (store w) (store w').
Proof.
  induction fuel as [| fuel IH]; intros bot this w w' H; simpl in H; [discriminate |].
  apply bind_returned in H as (o & Ho & H).
  apply bind_returned in H as (w1 & Hfe & H).
  unfold obj_at in Ho.
  destruct (heap (store w) !! this) as [o0 |] eqn:Ho0; [| discriminate].
  injection Ho as ->.
  apply (foreach_rel _ _ (fun a b => keeps type_name (store a) (store b))) in Hfe.
  - simpl in Hfe. destruct (Hfe this o Ho0) as (o1 & Ho1 & Hcls1 & _).
    eapply keeps_trans; [exact Hfe |]. rewrite <- Hcls1 in H.
    eapply Impl_unload_keeps; [exact Ho1 | exact H].
  - intros a. apply keeps_refl.
  - intros a b c. apply keeps_trans.
  - intros k e w0 w0' Hv. destruct (sev e) as [child |]; [| discriminate].
    eapply IH, Hv.
Qed.

Lemma null_entry_stack this key st :
  null_entry this key st ->
  exists s e, stack_at this st = Returned s /\ stack_find key s = Some e /\ sev e = None.
Proof.
  intros (o & e & Ho & _ & Hf & He). exists (mgr_ o), e. repeat split; trivial.
  apply stack_at_obj. now exists o.
Qed.

(** *** Traversals that meet a node with a null service *)

(** An [uninstall] that returns was not the one of the object with the null
    node, and has left that node where it is. *)
Lemma uninstall_null_entry this key fuel : forall bot a w w',
  uninstall type_name hooks fuel bot a w = Returned w' ->
  null_entry this key (store w) ->
  a <> this /\ null_entry this key (store w').
Proof.
  induction fuel as [| fuel IH]; intros bot a w w' H Hnull; simpl in H; [discriminate |].
  apply bind_returned in H as (o & Ho & H).
  apply bind_returned in H as (w1 & Hfe & H).
  assert (forall (k : string) (e : ExecState) w0 w0',
            null_entry this key (store w0) ->
            match sev e with
            | Some child => uninstall type_name hooks fuel bot child w0
            | None => Crashed NullDeref
            end = Returned w0' -> null_entry this key (store w0')) as Hvisit.
  { intros k e w0 w0' P0 Hv. destruct (sev e) as [child |]; [| discriminate].
    eapply IH; eassumption. }
  assert (a <> this) as Hne.
  { intros ->.
    eapply (foreach_stuck _ _ (fun w => null_entry this key (store w)) key);
      [| | | | | exists w1; exact Hfe].
    - intros w0. apply null_entry_stack.
    - intros k e w0 w0' P0 Hv. cbv beta in Hv. eapply Hvisit; eassumption.
    - intros k e w0 He [w0' Hv]. cbv beta in Hv. rewrite He in Hv. discriminate.
    - exact Hnull.
    - exact I. }
  split; [exact Hne |].
  apply Impl_unload_inv in H as [_ Hframe].
  eapply null_entry_kept; [intros o1 Ho1; apply Hframe; [congruence | exact Ho1] |].
  refine (foreach_rel _ _ (fun a b => null_entry this key (store a) ->
                                      null_entry this key (store b))
            _ _ _ _ _ _ _ Hfe Hnull).
  - trivial.
  - auto.
  - intros k e w0 w0' Hv P0. cbv beta in Hv. eapply Hvisit; eassumption.
Qed.

Lemma uninstall_stuck this key fuel bot w :
  null_entry this key (store w) -> ~ returns (uninstall type_name hooks fuel bot this w).
Proof.
  intros Hnull [w' H].
  now destruct (uninstall_null_entry this key _ _ _ _ _ H Hnull).
Qed.

Lemma serve_stuck this key fuel bot event w o :
  heap (store w) !! this = Some o -> cls o = ServiceSecheduler ->
  null_entry this key (store w) ->
  ~ returns (serve type_name hooks fuel bot event this w).
Proof.
  intros Hobj Hcls Hnull. destruct fuel as [| fuel]; intros [[r w'] H]; simpl in H;
    [discriminate |].
  unfold obj_at in H. rewrite Hobj in H. simpl in H. rewrite Hcls in H.
  apply bind_returned in H as ([r1 w1] & Hrun & _).
  unfold Impl_run, ServiceSecheduler_run in Hrun.
  apply bind_returned in Hrun as (w2 & Hfe & _).
  eapply (foreach_stuck _ _
            (fun w => null_entry this key (store w) /\
                      exists o, heap (store w) !! this = Some o /\
                                cls o = ServiceSecheduler) key);
    [| | | | | exists w2; exact Hfe].
  - intros w0 [P0 _]. now apply null_entry_stack.
  - intros k e w0 w0' [P0 (o0 & Ho0 & Hc0)] Hv. cbv beta in Hv.
    destruct (sev e) as [child |]; [| discriminate].
    apply bind_returned in Hv as ([r2 w3] & Hs & Hset).
    assert (keeps type_name (store w0) (store w0')) as K
      by (eapply keeps_trans; [eapply serve_keeps, Hs | eapply set_result_keeps, Hset]).
    split; [eapply keeps_null_entry; eassumption |].
    destruct (K this o0 Ho0) as (o1 & Ho1 & Hc1 & _).
    exists o1. split; [exact Ho1 | congruence].
  - intros k e w0 He [w0' Hv]. cbv beta in Hv. rewrite He in Hv. discriminate.
  - split; [exact Hnull |]. now exists o.
  - exact I.
Qed.

(** An [install] that returns was not the one of the object with the null
    node, and has left that node where it is, given that the [usuage] hooks
    leave it. *)
Lemma install_null_entry this key :
  (forall n a st st', usuage (hooks n) a st = Returned st' ->
     null_entry this key st -> null_entry this key st') ->
  forall fuel bot a w w',
    install type_name hooks fuel bot a w = Returned w' ->
    null_entry this key (store w) ->
    a <> this /\ null_entry this key (store w').
Proof.
  intros Hhook. induction fuel as [| fuel IH]; intros bot a w w' H Hnull;
    simpl in H; [discriminate |].
  apply bind_returned in H as (o & Ho & H).
  apply bind_returned in H as (w1 & Hu & H).
  apply bind_returned in H as (w2 & Hfe & H).
  assert (null_entry this key (store w1)) as P1.
  { unfold Impl_usuage in Hu. destruct (cls o) as [| n].
    - injection Hu as <-. exact Hnull.
    - apply bind_returned in Hu as (st' & Hh & [= <-]). simpl.
      eapply Hhook; [exact Hh | exact Hnull]. }
  assert (forall (k : string) (e : ExecState) w0 w0',
            null_entry this key (store w0) ->
            match sev e with
            | Some child => install type_name hooks fuel bot child w0
            | None => Crashed NullDeref
            end = Returned w0' -> null_entry this key (store w0')) as Hvisit.
  { intros k e w0 w0' P0 Hv. destruct (sev e) as [child |]; [| discriminate].
    eapply IH; eassumption. }
  assert (a <> this) as Hne.
  { intros ->.
    eapply (foreach_stuck _ _ (fun w => null_entry this key (store w)) key);
      [| | | | | exists w2; exact Hfe].
    - intros w0. apply null_entry_stack.
    - intros k e w0 w0' P0 Hv. cbv beta in Hv. eapply Hvisit; eassumption.
    - intros k e w0 He [w0' Hv]. cbv beta in Hv. rewrite He in Hv. discriminate.
    - exact P1.
    - exact I. }
  split; [exact Hne |].
  apply Impl_load_inv in H as [_ Hframe].
  eapply null_entry_kept; [intros o1 Ho1; apply Hframe; [congruence | exact Ho1] |].
  refine (foreach_rel _ _ (fun a b => null_entry this key (store a) ->
                                      null_entry this key (store b))
            _ _ _ _ _ _ _ Hfe P1).
  - trivial.
  - auto.
  - intros k e w0 w0' Hv P0. cbv beta in Hv. eapply Hvisit; eassumption.
Qed.

Lemma install_stuck this key fuel bot w :
  (forall n a st st', usuage (hooks n) a st = Returned st' ->
     null_entry this key st -> null_entry this key st') ->
  null_entry this key (store w) -> ~ returns (install type_name hooks fuel bot this w).
Proof.
  intros Hhook Hnull [w' H].
  now destruct (install_null_entry this key Hhook _ _ _ _ _ H Hnull).
Qed.

Lemma identity_valid st a o :
  heap st !! a = Some o ->
  identity type_name (Some a) st = Returned (type_name (cls o)).
Proof. intros H. unfold identity, obj_at. now rewrite H. Qed.

Lemma erase_if_null st (f : string -> bool) s k e :
  pointers_valid st s -> In (k, e) s -> sev e = None ->
  erase_if (fun state => id ← identity type_name (sev state) st; Returned (f id)) s
  = Crashed NullDeref.
Proof.
  induction s as [| [k0 e0] s IH]; intros Hv Hin He; [destruct Hin |].
  cbn [erase_if]. destruct (sev e0) as [a |] eqn:E0.
  - destruct (Hv k0 e0 a (or_introl eq_refl) E0) as [oa Hoa].
    rewrite (identity_valid st a oa Hoa). cbn [mbind outcome_bind].
    destruct Hin as [[= -> ->] | Hin]; [congruence |].
    rewrite IH; [reflexivity | | exact Hin | exact He].
    intros k' e' a' Hin'. apply (Hv k' e' a'). now right.
  - reflexivity.
Qed.

Lemma invalid_if_null st (f : string -> bool) s k e :
  pointers_valid st s -> In (k, e) s -> sev e = None ->
  invalid_if (fun state => id ← identity type_name (sev state) st; Returned (f id)) s
  = Crashed NullDeref.
Proof.
  induction s as [| [k0 e0] s IH]; intros Hv Hin He; [destruct Hin |].
  cbn [invalid_if]. destruct (sev e0) as [a |] eqn:E0.
  - destruct (Hv k0 e0 a (or_introl eq_refl) E0) as [oa Hoa].
    rewrite (identity_valid st a oa Hoa). cbn [mbind outcome_bind].
    destruct Hin as [[= -> ->] | Hin]; [congruence |].
    rewrite IH; [reflexivity | | exact Hin | exact He].
    intros k' e' a' Hin'. apply (Hv k' e' a'). now right.
  - reflexivity.
Qed.

Lemma mgr_replace_returns this key newer w o :
  heap (store w) !! this = Some o ->
  exists w',
    mgr_replace this key newer w = Returned (fst (replace key newer (mgr_ o)), w') /\
    heap (store w') =
      <[this := {| cls := cls o; mgr_ := snd (replace key newer (mgr_ o)) |}]>
        (heap (store w)) /\
    env (store w') = env (store w) /\ registry (store w') = registry (store w) /\
    trace w' = trace w.
Proof.
  intros Ho. unfold mgr_replace, stack_at, obj_at. rewrite Ho. simpl.
  destruct (replace key newer (mgr_ o)) as [old s'] eqn:Hr.
  rewrite (set_stack_returns _ _ _ _ _ Ho). simpl.
  eexists. split; [reflexivity |]. simpl. repeat split; reflexivity.
Qed.


(** *** A dispatcher over services whose [run] is plain *)

(** [serve] on a service of a concrete type whose [run] is plain returns
    what its own map had cached, and caches what [run] returned. *)
Lemma serve_plain fuel bot event p w op n :
  heap (store w) !! p = Some op -> cls op = UserImpl n ->
  runs_plainly type_name hooks n ->
  exists r_new w1,
    serve type_name hooks (S fuel) bot event p w
      = Returned (fst (replace (type_name (cls op)) r_new (mgr_ op)), w1) /\
    heap (store w1)
      = <[p := {| cls := cls op;
                  mgr_ := snd (replace (type_name (cls op)) r_new (mgr_ op)) |}]>
          (heap (store w)) /\
    trace w1 = trace w ++ [CallServe p; HookRun p].
Proof.
  intros Hop Hn Hplain.
  destruct (Hplain (serve_call (serve type_name hooks fuel)) p bot event
              (log (HookRun p) (log (CallServe p) w)))
    as (r_new & w0 & Hrun & Hheap0 & Htrace0).
  simpl in Hheap0, Htrace0.
  assert (heap (store w0) !! p = Some op) as Hop0 by (now rewrite Hheap0).
  destruct (mgr_replace_returns p (type_name (cls op)) r_new w0 op Hop0)
    as (w1 & Hrep & Hheap1 & _ & _ & Htrace1).
  exists r_new, w1. split; [| split].
  - cbn [serve]. unfold obj_at. rewrite Hop. cbn [mbind outcome_bind].
    unfold Impl_run. rewrite Hn. rewrite Hrun. cbn [mbind outcome_bind].
    rewrite <- Hn. exact Hrep.
  - rewrite Hheap1, Hheap0. reflexivity.
  - rewrite Htrace1, Htrace0. now rewrite <- app_assoc.
Qed.

Section FanOut.

Variables (bot : Bot) (event : Event) (this : addr) (fuel : nat).

Let idd : string := type_name ServiceSecheduler.

Let fan_out : string -> ExecState -> World Env -> outcome (World Env) :=
  fun key exec_state w =>
    match sev exec_state with
    | None => Crashed NullDeref
    | Some child =>
        '(r, w1) ← serve type_name hooks (S fuel) bot event child w;
        set_result this key r w1
    end.

Lemma fan_out_visit_returns ks w od k e p :
  fan_out_ready type_name hooks this ks (store w) ->
  heap (store w) !! this = Some od -> stack_find k (mgr_ od) = Some e ->
  sev e = Some p ->
  exists w', fan_out k e w = Returned w' /\
             fan_out_ready type_name hooks this ks (store w') /\
             trace w' = trace w ++ [CallServe p; HookRun p].
Proof.
  intros (od0 & Hod0 & Hcls & Hkeys & Hchildren) Hod Hfind Hp.
  rewrite Hod in Hod0. injection Hod0 as <-.
  pose proof (Hchildren k e Hfind) as Hc. rewrite Hp in Hc.
  destruct Hc as (op & n & Hop & Hn & Hplain).
  assert (p <> this) as Hne by (intros ->; congruence).
  destruct (serve_plain fuel bot event p w op n Hop Hn Hplain)
    as (r_new & w1 & Hserve & Hheap1 & Htrace1).
  unfold fan_out. rewrite Hp, Hserve. cbn [mbind outcome_bind].
  assert (heap (store w1) !! this = Some od) as Hod1.
  { rewrite Hheap1. rewrite lookup_insert_ne by exact Hne. exact Hod. }
  unfold set_result, stack_at, obj_at. rewrite Hod1. cbn [mbind outcome_bind].
  rewrite Hfind. rewrite (set_stack_returns _ _ _ _ _ Hod1).
  cbn [mbind outcome_bind]. eexists. split; [reflexivity |].
  split; [| exact Htrace1].
  eexists. cbn. split; [apply lookup_insert_eq |]. cbn.
  split; [exact Hcls |]. split; [rewrite (keys_assign_found _ _ _ _ Hfind); exact Hkeys |].
  intros k' e' Hf'.
  assert (forall q oq m, heap (store w) !! q = Some oq -> cls oq = UserImpl m ->
            runs_plainly type_name hooks m ->
            exists oq' m', <[this := {| cls := cls od;
                                        mgr_ := stack_assign k
                                                  {| result := fst (replace (type_name (cls op)) r_new (mgr_ op));
                                                     sev := sev e |} (mgr_ od) |}]>
                             (heap (store w1)) !! q = Some oq' /\ cls oq' = UserImpl m' /\
                           runs_plainly type_name hooks m')
    as Huser.
  { intros q oq m Hq Hm Hpl.
    assert (q <> this) as Hq' by (intros ->; congruence).
    rewrite lookup_insert_ne by (intros E; apply Hq'; now symmetry).
    rewrite Hheap1. destruct (decide (p = q)) as [<- | Hpq].
    - rewrite lookup_insert_eq. eexists. exists n.
      split; [reflexivity |]. split; [exact Hn | exact Hplain].
    - rewrite lookup_insert_ne by exact Hpq. now exists oq, m. }
  destruct (String.string_dec k k') as [<- | Hkk].
  - rewrite stack_find_assign_eq in Hf'. injection Hf' as <-. cbn.
    rewrite Hp in Huser |- *. eapply Huser; eassumption.
  - rewrite (stack_find_assign_ne k k') in Hf' by exact Hkk.
    specialize (Hchildren k' e' Hf'). destruct (sev e') as [q |]; [| exact Hchildren].
    destruct Hchildren as (oq & m & Hq & Hm & Hpl). eapply Huser; eassumption.
Qed.

Lemma fan_out_visit_keeps w k e w' :
  fan_out k e w = Returned w' -> keeps type_name (store w) (store w').
Proof.
  intros Hv. unfold fan_out in Hv. destruct (sev e) as [p |]; [| discriminate].
  apply bind_returned in Hv as ([r w2] & Hserve & Hset).
  eapply keeps_trans; [eapply serve_keeps, Hserve | eapply set_result_keeps, Hset].
Qed.

Lemma fan_out_ready_find ks st k :
  StronglySorted key_lt ks -> fan_out_ready type_name hooks this ks st -> In k ks ->
  exists od e, heap st !! this = Some od /\ stack_find k (mgr_ od) = Some e.
Proof.
  intros Hs (od & Hod & _ & Hkeys & _) Hin.
  destruct (stack_find_keys k (mgr_ od)) as [e He].
  - unfold stack_wf. now rewrite Hkeys.
  - now rewrite Hkeys.
  - now exists od, e.
Qed.

(** The fan-out over keys other than the dispatcher's own returns. *)
Lemma fan_out_walk_returns ks : StronglySorted key_lt ks ->
  forall todo w,
    (forall k, In k todo -> In k ks /\ k <> idd) ->
    fan_out_ready type_name hooks this ks (store w) ->
    exists w', walk (fun w => stack_at this (store w)) fan_out todo w = Returned w' /\
               fan_out_ready type_name hooks this ks (store w').
Proof.
  intros Hs. induction todo as [| k todo IH]; intros w Hin Hready.
  - exists w. now split.
  - destruct (Hin k (or_introl eq_refl)) as [Hk Hne].
    destruct (fan_out_ready_find ks _ k Hs Hready Hk) as (od & e & Hod & Hfind).
    cbn [walk]. cbv beta.
    rewrite (proj2 (stack_at_obj _ this (store w) (mgr_ od)) (ex_intro _ od (conj Hod eq_refl))).
    cbn [mbind outcome_bind].
    rewrite Hfind.
    destruct (sev e) as [p |] eqn:Hp.
    + destruct (fan_out_visit_returns ks w od k e p Hready Hod Hfind Hp)
        as (w1 & Hv & Hready1 & _).
      rewrite Hv. cbn [mbind outcome_bind]. apply IH; [| exact Hready1].
      intros k' Hk'. apply Hin. now right.
    + destruct Hready as (od0 & Hod0 & _ & _ & Hchildren).
      rewrite Hod in Hod0. injection Hod0 as <-.
      specialize (Hchildren k e Hfind). rewrite Hp in Hchildren. contradiction.
Qed.

(** The fan-out that reaches the node of the dispatcher's own identity, whose
    service is null, stops there. *)
Lemma fan_out_walk_crashes ks : StronglySorted key_lt ks ->
  forall todo w,
    (forall k, In k todo -> In k ks) -> In idd todo ->
    fan_out_ready type_name hooks this ks (store w) ->
    null_entry this idd (store w) ->
    walk (fun w => stack_at this (store w)) fan_out todo w = Crashed NullDeref.
Proof.
  intros Hs. induction todo as [| k todo IH]; intros w Hin Hidd Hready Hnull;
    [destruct Hidd |].
  destruct (fan_out_ready_find ks _ k Hs Hready (Hin k (or_introl eq_refl)))
    as (od & e & Hod & Hfind).
  cbn [walk]. cbv beta.
    rewrite (proj2 (stack_at_obj _ this (store w) (mgr_ od)) (ex_intro _ od (conj Hod eq_refl))).
    cbn [mbind outcome_bind].
  rewrite Hfind.
  destruct (sev e) as [p |] eqn:Hp.
  - destruct (fan_out_visit_returns ks w od k e p Hready Hod Hfind Hp)
      as (w1 & Hv & Hready1 & _).
    rewrite Hv. cbn [mbind outcome_bind]. apply IH; trivial.
    + intros k' Hk'. apply Hin. now right.
    + destruct Hidd as [<- | Hidd]; [| exact Hidd].
      destruct Hnull as (od0 & e0 & Hod0 & _ & Hf0 & He0).
      rewrite Hod in Hod0. injection Hod0 as <-. congruence.
    + destruct Hready as (od0 & Hod0 & Hcls0 & _).
      eapply keeps_null_entry; [| exact Hod0 | exact Hcls0 | exact Hnull].
      eapply fan_out_visit_keeps, Hv.
  - unfold fan_out. now rewrite Hp.
Qed.

Lemma fan_out_foreach ks n w :
  StronglySorted key_lt ks -> (List.length ks < n)%nat ->
  fan_out_ready type_name hooks this ks (store w) ->
  foreach n (fun w => stack_at this (store w)) fan_out None w
  = walk (fun w => stack_at this (store w)) fan_out ks w.
Proof.
  intros Hs Hn Hready.
  apply (foreach_walk _ _ (fun w => fan_out_ready type_name hooks this ks (store w)) ks);
    trivial.
  - intros w0 (od & Hod & _ & Hkeys & _). exists (mgr_ od). split; [| exact Hkeys].
    apply stack_at_obj. now exists od.
  - intros w0 s k e w' Hready0 Hs0 Hfind Hv.
    apply stack_at_obj in Hs0 as (od & Hod & <-).
    destruct (sev e) as [p |] eqn:Hp.
    + destruct (fan_out_visit_returns ks w0 od k e p Hready0 Hod Hfind Hp)
        as (w1 & Hv1 & Hready1 & _).
      rewrite Hv in Hv1. now injection Hv1 as ->.
    + unfold fan_out in Hv. rewrite Hp in Hv. discriminate.
Qed.

(** The fan-out over nodes that were in the map at the start, none under the
    dispatcher's own identity: the calls it makes. *)
Lemma fan_out_walk_trace ks st0 o0 : StronglySorted key_lt ks ->
  heap st0 !! this = Some o0 -> cls o0 = ServiceSecheduler -> stack_wf (mgr_ o0) ->
  forall rest w,
    (forall x, In x rest -> In x (mgr_ o0) /\ fst x <> idd) ->
    fan_out_ready type_name hooks this ks (store w) -> keeps type_name st0 (store w) ->
    exists w', walk (fun w => stack_at this (store w)) fan_out (keys rest) w = Returned w' /\
               fan_out_ready type_name hooks this ks (store w') /\
               trace w' = trace w
                            ++ flat_map (fun n => match sev (snd n) with
                                                  | Some p => [CallServe p; HookRun p]
                                                  | None => []
                                                  end) rest.
Proof.
  intros Hs Ho0 Hcls0 Hwf0. induction rest as [| [k e0] rest IH]; intros w Hin Hready K.
  - exists w. simpl. rewrite app_nil_r. now repeat split.
  - destruct (Hin (k, e0) (or_introl eq_refl)) as [Hke Hne]. simpl in Hne.
    assert (stack_find k (mgr_ o0) = Some e0) as Hf0.
    { apply in_split in Hke as (s1 & s2 & E). rewrite E in Hwf0 |- *.
      now apply stack_find_app. }
    destruct (K this o0 Ho0) as (od & Hod & _ & _ & Hk).
    destruct (Hk Hcls0) as [_ Hkey]. specialize (Hkey k).
    rewrite Hf0 in Hkey. destruct Hkey as (e & Hfind & Hsev).
    pose proof Hready as (od' & Hod' & _ & _ & Hchildren).
    rewrite Hod in Hod'. injection Hod' as <-.
    specialize (Hchildren k e Hfind).
    destruct (sev e) as [p |] eqn:Hp; [| contradiction].
    destruct (fan_out_visit_returns ks w od k e p Hready Hod Hfind Hp)
      as (w1 & Hv & Hready1 & Ht1).
    pose proof (fan_out_visit_keeps w k e w1 Hv) as K1.
    destruct (IH w1 (fun x Hx => Hin x (or_intror Hx)) Hready1
                (keeps_trans _ _ _ _ _ K K1)) as (w2 & Hw2 & Hready2 & Ht2).
    exists w2. split; [| split; [exact Hready2 |]].
    + cbn [keys map walk fst]. cbv beta.
      rewrite (proj2 (stack_at_obj _ this (store w) (mgr_ od))
                 (ex_intro _ od (conj Hod eq_refl))).
      cbn [mbind outcome_bind]. rewrite Hfind. rewrite Hv.
      cbn [mbind outcome_bind]. exact Hw2.
    + rewrite Ht2, Ht1. cbn [flat_map snd].
      rewrite <- Hsev. now rewrite <- app_assoc.
Qed.

End FanOut.

(** A dispatcher in whose map the node of its own identity has a null
    service, the others being services whose [run] is plain: [serve]
    dereferences the null pointer. *)
Lemma dispatcher_serve_null_deref fuel bot event this w ks :
  StronglySorted key_lt ks ->
  fan_out_ready type_name hooks this ks (store w) ->
  null_entry this (type_name ServiceSecheduler) (store w) ->
  (List.length ks + 2 <= fuel)%nat ->
  serve type_name hooks fuel bot event this w = Crashed NullDeref.
Proof.
  intros Hs Hready Hnull Hfuel.
  destruct fuel as [| [| n]]; try lia.
  pose proof Hready as (od & Hod & Hcls & Hkeys & _).
  cbn [serve]. unfold obj_at. rewrite Hod. cbn [mbind outcome_bind].
  rewrite Hcls. unfold Impl_run, ServiceSecheduler_run.
  rewrite (fan_out_foreach bot event this n ks (S n)); trivial; [| lia].
  rewrite (fan_out_walk_crashes bot event this n ks Hs ks); trivial.
  destruct Hnull as (o0 & e & Ho0 & _ & Hf & _).
  simpl in Ho0. rewrite Hod in Ho0. injection Ho0 as <-.
  apply stack_find_In in Hf. apply (in_map fst) in Hf. simpl in Hf.
  fold (keys (mgr_ od)) in Hf. now rewrite Hkeys in Hf.
Qed.

(** After calls that keep the objects, a dispatcher over services whose
    [run] is plain is still one, with at most one more node. *)
Lemma keeps_fan_out_ready this st st' o :
  keeps type_name st st' ->
  heap st !! this = Some o -> cls o = ServiceSecheduler -> stack_wf (mgr_ o) ->
  plain_children type_name hooks st (mgr_ o) ->
  exists o', heap st' !! this = Some o' /\ stack_wf (mgr_ o') /\
    fan_out_ready type_name hooks this (keys (mgr_ o')) st' /\
    (List.length (mgr_ o') <= S (List.length (mgr_ o)))%nat.
Proof.
  intros K Ho Hcls Hwf Hchildren.
  destruct (K this o Ho) as (o' & Ho' & Hcls' & Hwf' & Hk).
  destruct (Hk Hcls) as [_ Hkey].
  exists o'. split; [exact Ho' |]. split; [auto |]. split.
  - exists o'. split; [exact Ho' |]. split; [congruence |]. split; [reflexivity |].
    intros k e' Hf'. specialize (Hkey k).
    destruct (stack_find k (mgr_ o)) as [e |] eqn:Hf.
    + destruct Hkey as (e1 & Hf1 & He1). rewrite Hf' in Hf1. injection Hf1 as <-.
      destruct (Hchildren k e Hf) as (p & op & n & Hp & Hop & Hn & Hplain).
      rewrite He1, Hp. destruct (K p op Hop) as (op' & Hop' & Hn' & _).
      exists op', n. split; [exact Hop' |]. split; [congruence | exact Hplain].
    + destruct (Hkey e' Hf') as [-> ->]. now rewrite Hcls.
  - rewrite <- (length_map fst (mgr_ o')), <- (length_map fst (mgr_ o)).
    change (List.length (keys (mgr_ o')) <= List.length (type_name (cls o) :: keys (mgr_ o)))%nat.
    apply NoDup_incl_length.
    + apply NoDup_ListNoDup, stack_wf_NoDup. auto.
    + intros k Hin. destruct (stack_find_keys k (mgr_ o') (Hwf' Hwf) Hin) as [e' Hf'].
      specialize (Hkey k). destruct (stack_find k (mgr_ o)) as [e |] eqn:Hf.
      * right. apply stack_find_In in Hf. now apply (in_map fst) in Hf.
      * left. symmetry. now apply (Hkey e' Hf').
Qed.

(** C5, as the code has it. A [serve] that returns leaves, in the service's
    own map, a node under the service's own identity. On a dispatcher, and
    on a service whose [run] is plain, the service of that node is null
    unless a node under that identity held a service before the call: the
    service itself, or another service of the same identity. No later
    [serve] on a dispatcher in that state returns: its [run] calls [serve]
    through the null pointer. When the children of the dispatcher are
    services whose [run] is plain, the second [serve] is exactly that null
    dereference. *)
Theorem serve_leaves_null_self_entry fuel bot event this w o r w' :
  heap (store w) !! this = Some o -> stack_wf (mgr_ o) ->
  serve type_name hooks fuel bot event this w = Returned (r, w') ->
  (exists s' e, stack_at this (store w') = Returned s' /\
                stack_find (type_name (cls o)) s' = Some e) /\
  ((forall e, stack_find (type_name (cls o)) (mgr_ o) = Some e -> sev e = None) ->
   (cls o = ServiceSecheduler \/
    exists n, cls o = UserImpl n /\ runs_plainly type_name hooks n) ->
   null_entry this (type_name (cls o)) (store w')) /\
  ((forall e, stack_find (type_name (cls o)) (mgr_ o) = Some e -> sev e = None) ->
   cls o = ServiceSecheduler ->
   (forall fuel' bot' event',
      ~ returns (serve type_name hooks fuel' bot' event' this w')) /\
   (plain_children type_name hooks (store w) (mgr_ o) ->
    forall fuel' bot' event', (List.length (mgr_ o) + 3 <= fuel')%nat ->
      serve type_name hooks fuel' bot' event' this w' = Crashed NullDeref)).
Proof.
  intros Ho Hwf H.
  pose proof (serve_keeps _ _ _ _ _ _ _ H) as K.
  destruct (K this o Ho) as (o' & Ho' & Hcls' & Hwf' & Hk).
  assert (exists e, stack_find (type_name (cls o)) (mgr_ o') = Some e) as [e' He'].
  { destruct fuel as [| fuel]; simpl in H; [discriminate |].
    apply bind_returned in H as (o0 & Ho0 & H).
    unfold obj_at in Ho0. rewrite Ho in Ho0. injection Ho0 as <-.
    apply bind_returned in H as ([r1 w1] & _ & H).
    apply mgr_replace_inv in H as (s1 & _ & _ & Hs' & _).
    apply stack_at_obj in Hs' as (o1 & Ho1 & Hs').
    rewrite Ho' in Ho1. injection Ho1 as <-. rewrite Hs', replace_spec. simpl.
    rewrite stack_find_assign_eq. now eexists. }
  assert ((forall e, stack_find (type_name (cls o)) (mgr_ o) = Some e -> sev e = None) ->
          cls o = ServiceSecheduler ->
          null_entry this (type_name (cls o)) (store w')) as Hdispatcher.
  { intros Hself Hcls. exists o', e'. split; [exact Ho' |]. split; [auto |].
    split; [exact He' |]. destruct (Hk Hcls) as [_ Hkey].
    specialize (Hkey (type_name (cls o))).
    destruct (stack_find (type_name (cls o)) (mgr_ o)) as [e0 |] eqn:H0.
    - destruct Hkey as (e1 & He1 & Hs1). rewrite He' in He1. injection He1 as <-.
      rewrite Hs1. now apply Hself.
    - now apply (Hkey e' He'). }
  split; [| split].
  - exists (mgr_ o'), e'. split; [apply stack_at_obj; now exists o' | exact He'].
  - intros Hself [Hcls | (n & Hcls & Hplain)]; [now apply Hdispatcher |].
    destruct fuel as [| fuel]; [discriminate |].
    destruct (serve_plain fuel bot event this w o n Ho Hcls Hplain)
      as (r_new & w1 & Hserve & Hheap & _).
    rewrite Hserve in H. injection H as _ <-.
    rewrite replace_spec in Hheap. cbn [snd] in Hheap.
    eexists. eexists. split; [rewrite Hheap; apply lookup_insert_eq |]. cbn [mgr_].
    split; [now apply stack_wf_assign |]. split; [apply stack_find_assign_eq |].
    cbn [sev]. destruct (stack_find (type_name (cls o)) (mgr_ o)) as [e0 |] eqn:H0;
      [now apply Hself | reflexivity].
  - intros Hself Hcls. pose proof (Hdispatcher Hself Hcls) as Hnull. split.
    + intros fuel' bot' event'.
      apply (serve_stuck this (type_name (cls o)) _ _ _ _ o'); trivial. congruence.
    + intros Hchildren fuel' bot' event' Hfuel.
      destruct (keeps_fan_out_ready this _ _ o K Ho Hcls Hwf Hchildren)
        as (o'' & Ho'' & Hwf'' & Hready & Hlen).
      apply (dispatcher_serve_null_deref _ _ _ _ _ (keys (mgr_ o''))); trivial.
      * now rewrite <- Hcls.
      * unfold keys. rewrite length_map. lia.
Qed.

(** C1, as the code has it. [serve] runs the [run] hook of the concrete type
    first and then stores the result that [run] computed, through
    [replace], in the node of the service's own identity in the service's
    own map; the other objects are as [run] left them. *)
Theorem serve_caches_in_own_stack fuel bot event this w o r_new w1 :
  heap (store w) !! this = Some o ->
  Impl_run type_name hooks (serve type_name hooks fuel) fuel (cls o) bot event this
    (log (CallServe this) w) = Returned (r_new, w1) ->
  exists r w' s1,
    serve type_name hooks (S fuel) bot event this w = Returned (r, w') /\
    stack_at this (store w1) = Returned s1 /\
    stack_at this (store w') = Returned (snd (replace (type_name (cls o)) r_new s1)) /\
    result <$> stack_find (type_name (cls o)) (snd (replace (type_name (cls o)) r_new s1))
      = Some r_new /\
    (forall a, a <> this -> heap (store w') !! a = heap (store w1) !! a) /\
    env (store w') = env (store w1) /\
    trace w' = trace w1.
Proof.
  intros Ho Hrun.
  pose proof Hrun as Hk.
  apply (Impl_run_keeps _ _ _ _ _ (log (CallServe this) w) o) in Hk;
    [| intros; eapply serve_keeps; eassumption | exact Ho].
  destruct (Hk this o Ho) as (o1 & Ho1 & _).
  destruct (mgr_replace_returns this (type_name (cls o)) r_new w1 o1 Ho1)
    as (w' & Hrep & Hheap & Henv & _ & Htrace).
  exists (fst (replace (type_name (cls o)) r_new (mgr_ o1))), w', (mgr_ o1).
  split.
  { simpl. unfold obj_at. rewrite Ho. cbn [mbind outcome_bind].
    rewrite Hrun. cbn [mbind outcome_bind]. exact Hrep. }
  split; [apply stack_at_obj; now exists o1 |].
  split; [apply stack_at_obj; eexists; split;
          [rewrite Hheap; apply lookup_insert_eq | reflexivity] |].
  split; [rewrite replace_spec; simpl; now rewrite stack_find_assign_eq |].
  split; [intros a Ha; rewrite Hheap; now apply lookup_insert_ne |].
  split; assumption.
Qed.

(** The value that [serve] hands back is the one [replace] returns: what the
    node held before. *)
Lemma serve_returns_previous fuel bot event this w r w' :
  serve type_name hooks fuel bot event this w = Returned (r, w') ->
  exists fuel' o r_new w1 s1,
    fuel = S fuel' /\ heap (store w) !! this = Some o /\
    Impl_run type_name hooks (serve type_name hooks fuel') fuel' (cls o) bot event this
      (log (CallServe this) w) = Returned (r_new, w1) /\
    stack_at this (store w1) = Returned s1 /\
    r = match stack_find (type_name (cls o)) s1 with
        | Some e => result e
        | None => RunResult_default
        end.
Proof.
  destruct fuel as [| fuel']; simpl; [discriminate |]. intros H.
  apply bind_returned in H as (o & Ho & H).
  apply bind_returned in H as ([r1 w1] & Hrun & H).
  apply mgr_replace_inv in H as (s1 & Hs1 & -> & _).
  exists fuel', o, r1, w1, s1. rewrite replace_spec. simpl.
  unfold obj_at in Ho. destruct (heap (store w) !! this) as [o0 |]; [| discriminate].
  injection Ho as ->. repeat split; trivial.
Qed.

(** *** The order of the lifecycle calls *)

Lemma Impl_usuage_trace c this w w' :
  Impl_usuage hooks c this w = Returned w' -> trace w' = trace w ++ [HookUsuage this].
Proof.
  unfold Impl_usuage. destruct c as [| n]; [now intros [= <-] |].
  intros H. apply bind_returned in H as (st' & _ & [= <-]). reflexivity.
Qed.

Lemma grows_refl w : grows w w.
Proof. exists []. now rewrite app_nil_r. Qed.

Lemma grows_trans (a b c : World Env) : grows a b -> grows b c -> grows a c.
Proof. intros [t1 H1] [t2 H2]. exists (t1 ++ t2). now rewrite H2, H1, app_assoc. Qed.

Lemma extends_grows first w w' : extends first w w' -> grows w w'.
Proof. intros [t H]. now exists (first :: t). Qed.

(** For any number of children, the calls of an [install] are the call
    itself, the [usuage] hook, those of the children, and the [load] hook
    last. *)
Lemma install_hooks_order fuel : forall bot this w w',
  install type_name hooks fuel bot this w = Returned w' ->
  exists mid, trace w' = trace w ++ [CallInstall this; HookUsuage this]
                           ++ mid ++ [HookLoad this].
Proof.
  induction fuel as [| fuel IH]; intros bot this w w' H; simpl in H; [discriminate |].
  apply bind_returned in H as (o & Ho & H).
  apply bind_returned in H as (w1 & Hu & H).
  apply bind_returned in H as (w2 & Hfe & H).
  apply Impl_usuage_trace in Hu. simpl in Hu.
  apply Impl_load_inv in H as [H3 _].
  assert (grows w1 w2) as [t2 H2].
  { refine (foreach_rel _ _ (@grows Env) grows_refl grows_trans _ _ _ _ _ Hfe).
    intros k e w0 w0' Hv. cbv beta in Hv. destruct (sev e) as [child |]; [| discriminate].
    destruct (IH _ _ _ _ Hv) as [mid Hmid]. eexists. exact Hmid. }
  exists t2. rewrite H3, H2, Hu. now rewrite <- !app_assoc.
Qed.

Lemma install_extends fuel bot this w w' :
  install type_name hooks fuel bot this w = Returned w' -> extends (CallInstall this) w w'.
Proof.
  intros H. destruct (install_hooks_order _ _ _ _ _ H) as [mid Hmid].
  eexists. rewrite Hmid. reflexivity.
Qed.

(** Likewise for [uninstall]: the call itself, the calls of the children,
    and the [unload] hook last. *)
Lemma uninstall_hooks_order fuel : forall bot this w w',
  uninstall type_name hooks fuel bot this w = Returned w' ->
  exists mid, trace w' = trace w ++ [CallUninstall this] ++ mid ++ [HookUnload this].
Proof.
  induction fuel as [| fuel IH]; intros bot this w w' H; simpl in H; [discriminate |].
  apply bind_returned in H as (o & Ho & H).
  apply bind_returned in H as (w1 & Hfe & H).
  apply Impl_unload_inv in H as [H2 _].
  assert (grows (log (CallUninstall this) w) w1) as [t1 H1].
  { refine (foreach_rel _ _ (@grows Env) grows_refl grows_trans _ _ _ _ _ Hfe).
    intros k e w0 w0' Hv. cbv beta in Hv. destruct (sev e) as [child |]; [| discriminate].
    destruct (IH _ _ _ _ Hv) as [mid Hmid]. eexists. exact Hmid. }
  exists t1. rewrite H2, H1. simpl. now rewrite <- !app_assoc.
Qed.

Lemma uninstall_extends fuel bot this w w' :
  uninstall type_name hooks fuel bot this w = Returned w' ->
  extends (CallUninstall this) w w'.
Proof.
  intros H. destruct (uninstall_hooks_order _ _ _ _ _ H) as [mid Hmid].
  eexists. rewrite Hmid. reflexivity.
Qed.

(** The traversal of a map of two nodes that the visits leave alone. *)
Lemma foreach_two (visit : string -> ExecState -> World Env -> outcome (World Env))
    this kp stP kq stQ fuel w1 w2 w3 :
  key_lt kp kq ->
  stack_at this (store w1) = Returned [(kp, stP); (kq, stQ)] ->
  visit kp stP w1 = Returned w2 ->
  stack_at this (store w2) = Returned [(kp, stP); (kq, stQ)] ->
  visit kq stQ w2 = Returned w3 ->
  stack_at this (store w3) = Returned [(kp, stP); (kq, stQ)] ->
  (3 <= fuel)%nat ->
  foreach fuel (fun w => stack_at this (store w)) visit None w1 = Returned w3.
Proof.
  intros Hlt H1 Hv1 H2 Hv2 H3 Hf.
  destruct fuel as [| [| [| fuel]]]; try lia.
  assert (key_ltb kp kq = true) as Lpq by now apply key_ltb_lt.
  assert (key_ltb kq kp = false) as Lqp.
  { unfold key_ltb. now rewrite (key_lt_gt _ _ Hlt). }
  cbn [foreach]. rewrite H1. cbn [mbind outcome_bind stack_next].
  rewrite Hv1. cbn [mbind outcome_bind foreach]. rewrite H2.
  cbn [mbind outcome_bind stack_next]. rewrite key_ltb_refl, Lpq.
  rewrite Hv2. cbn [mbind outcome_bind foreach]. rewrite H3.
  cbn [mbind outcome_bind stack_next]. rewrite Lqp, key_ltb_refl. reflexivity.
Qed.

(** The hooks of a concrete type of the program are run as the program
    wrote them. *)
Lemma Impl_usuage_user n this w w1 :
  Impl_usuage hooks (UserImpl n) this w = Returned w1 ->
  usuage (hooks n) this (store w) = Returned (store w1).
Proof.
  unfold Impl_usuage. intros H. apply bind_returned in H as (st' & Hu & [= <-]).
  exact Hu.
Qed.

Lemma Impl_load_user n bot this w w4 :
  Impl_load type_name hooks (UserImpl n) bot this w = Returned w4 ->
  perform type_name no_call this (load (hooks n) this bot) (log (HookLoad this) w)
  = Returned (tt, w4).
Proof.
  unfold Impl_load. intros H. apply bind_returned in H as ([[] w1] & Hp & [= <-]).
  exact Hp.
Qed.

Lemma Impl_unload_user n bot this w w4 :
  Impl_unload type_name hooks (UserImpl n) bot this w = Returned w4 ->
  perform type_name no_call this (unload (hooks n) this bot) (log (HookUnload this) w)
  = Returned (tt, w4).
Proof.
  unfold Impl_unload. intros H. apply bind_returned in H as ([[] w1] & Hp & [= <-]).
  exact Hp.
Qed.

(** C6, as the code has it. For a service whose map holds the children [P]
    and [Q] and no other node, and whose children leave that map alone:
    [install] runs the [usuage] hook first, then [P.install] and
    [Q.install] by ascending identity, and its own [load] hook last, on the
    world that [Q.install] left; [uninstall] runs [P.uninstall] and
    [Q.uninstall] first and its own [unload] hook last, on the world that
    [Q.uninstall] left. The calls of [P] and of [Q] are those of their own
    [install] and [uninstall], in one piece each, and for a concrete type
    of the program the hooks that run are the bodies that the program
    gave. *)
Theorem lifecycle_order fuel bot this kp stP kq stQ p q :
  key_lt kp kq -> sev stP = Some p -> sev stQ = Some q -> (3 <= fuel)%nat ->
  (forall o w w1 w2 w3,
     heap (store w) !! this = Some o ->
     Impl_usuage hooks (cls o) this (log (CallInstall this) w) = Returned w1 ->
     stack_at this (store w1) = Returned [(kp, stP); (kq, stQ)] ->
     install type_name hooks fuel bot p w1 = Returned w2 ->
     stack_at this (store w2) = Returned [(kp, stP); (kq, stQ)] ->
     install type_name hooks fuel bot q w2 = Returned w3 ->
     stack_at this (store w3) = Returned [(kp, stP); (kq, stQ)] ->
     install type_name hooks (S fuel) bot this w
       = Impl_load type_name hooks (cls o) bot this w3 /\
     (exists tP tQ,
        trace w1 = trace w ++ [CallInstall this; HookUsuage this] /\
        trace w2 = trace w1 ++ CallInstall p :: tP /\
        trace w3 = trace w2 ++ CallInstall q :: tQ /\
        forall w4, install type_name hooks (S fuel) bot this w = Returned w4 ->
          trace w4 = trace w ++ [CallInstall this; HookUsuage this]
                       ++ (CallInstall p :: tP) ++ (CallInstall q :: tQ)
                       ++ [HookLoad this]) /\
     (forall n, cls o = UserImpl n ->
        usuage (hooks n) this (store w) = Returned (store w1) /\
        forall w4, install type_name hooks (S fuel) bot this w = Returned w4 ->
          perform type_name no_call this (load (hooks n) this bot)
            (log (HookLoad this) w3) = Returned (tt, w4))) /\
  (forall o w w2 w3,
     heap (store w) !! this = Some o ->
     mgr_ o = [(kp, stP); (kq, stQ)] ->
     uninstall type_name hooks fuel bot p (log (CallUninstall this) w) = Returned w2 ->
     stack_at this (store w2) = Returned [(kp, stP); (kq, stQ)] ->
     uninstall type_name hooks fuel bot q w2 = Returned w3 ->
     stack_at this (store w3) = Returned [(kp, stP); (kq, stQ)] ->
     uninstall type_name hooks (S fuel) bot this w
       = Impl_unload type_name hooks (cls o) bot this w3 /\
     (exists tP tQ,
        trace w2 = trace w ++ [CallUninstall this] ++ CallUninstall p :: tP /\
        trace w3 = trace w2 ++ CallUninstall q :: tQ /\
        forall w4, uninstall type_name hooks (S fuel) bot this w = Returned w4 ->
          trace w4 = trace w ++ [CallUninstall this]
                       ++ (CallUninstall p :: tP) ++ (CallUninstall q :: tQ)
                       ++ [HookUnload this]) /\
     (forall n, cls o = UserImpl n ->
        forall w4, uninstall type_name hooks (S fuel) bot this w = Returned w4 ->
          perform type_name no_call this (unload (hooks n) this bot)
            (log (HookUnload this) w3) = Returned (tt, w4))).
Proof.
  intros Hlt Hp Hq Hf. split.
  - intros o w w1 w2 w3 Ho Hu H1 HP H2 HQ H3.
    assert (install type_name hooks (S fuel) bot this w
            = Impl_load type_name hooks (cls o) bot this w3) as Hinstall.
    { simpl. unfold obj_at. rewrite Ho. cbn [mbind outcome_bind]. rewrite Hu.
      cbn [mbind outcome_bind].
      rewrite (foreach_two _ this kp stP kq stQ fuel w1 w2 w3); trivial.
      - now rewrite Hp.
      - now rewrite Hq. }
    split; [exact Hinstall |]. split.
    + destruct (install_extends _ _ _ _ _ HP) as [tP HtP].
      destruct (install_extends _ _ _ _ _ HQ) as [tQ HtQ].
      pose proof (Impl_usuage_trace _ _ _ _ Hu) as Ht1. simpl in Ht1.
      exists tP, tQ. split; [now rewrite Ht1, <- app_assoc |].
      split; [exact HtP |]. split; [exact HtQ |].
      intros w4 H4. rewrite Hinstall in H4. apply Impl_load_inv in H4 as [H4 _].
      rewrite H4, HtQ, HtP, Ht1. rewrite <- !app_assoc. reflexivity.
    + intros n Hn. rewrite Hn in Hu, Hinstall. split.
      * apply Impl_usuage_user in Hu. exact Hu.
      * intros w4 H4. rewrite Hinstall in H4. now apply Impl_load_user.
  - intros o w w2 w3 Ho Hs HP H2 HQ H3.
    assert (uninstall type_name hooks (S fuel) bot this w
            = Impl_unload type_name hooks (cls o) bot this w3) as Huninstall.
    { simpl. unfold obj_at. rewrite Ho. cbn [mbind outcome_bind].
      rewrite (foreach_two _ this kp stP kq stQ fuel _ w2 w3); trivial.
      - apply stack_at_obj. now exists o.
      - now rewrite Hp.
      - now rewrite Hq. }
    split; [exact Huninstall |]. split.
    + destruct (uninstall_extends _ _ _ _ _ HP) as [tP HtP].
      destruct (uninstall_extends _ _ _ _ _ HQ) as [tQ HtQ].
      simpl in HtP.
      exists tP, tQ. split; [now rewrite HtP, <- app_assoc |].
      split; [exact HtQ |].
      intros w4 H4. rewrite Huninstall in H4. apply Impl_unload_inv in H4 as [H4 _].
      rewrite H4, HtQ, HtP. rewrite <- !app_assoc. reflexivity.
    + intros n Hn w4 H4. rewrite Hn in Huninstall. rewrite Huninstall in H4.
      now apply Impl_unload_user.
Qed.

Lemma keeps_stack_ok this st st' :
  keeps type_name st st' -> stack_ok this st -> stack_ok this st'.
Proof.
  intros K (s & Hs & Hwf). apply stack_at_obj in Hs as (o & Ho & <-).
  destruct (K this o Ho) as (o' & Ho' & _ & Hwf' & _).
  exists (mgr_ o'). split; [apply stack_at_obj; now exists o' | auto].
Qed.

(** C8. The map of a manager has one node per identity, and every operation
    keeps it so: those of the manager, [serve] with the results it caches,
    and [uninstall]. [add(A)] followed by [add(A')] for two services of one
    identity leaves a single node for it, which refers to [A'] and holds the
    inert result. *)
Theorem one_entry_per_identity this st :
  stack_ok this st ->
  (forall s, stack_at this st = Returned s -> NoDup (keys s)) /\
  (forall c st', manager_call type_name this c st = Returned st' ->
     stack_ok this st' /\
     forall s', stack_at this st' = Returned s' -> NoDup (keys s')) /\
  (forall fuel bot event a tr r w',
     serve type_name hooks fuel bot event a {| store := st; trace := tr |}
       = Returned (r, w') ->
     stack_ok this (store w') /\
     forall s', stack_at this (store w') = Returned s' -> NoDup (keys s')) /\
  (forall fuel bot a tr w',
     uninstall type_name hooks fuel bot a {| store := st; trace := tr |} = Returned w' ->
     stack_ok this (store w') /\
     forall s', stack_at this (store w') = Returned s' -> NoDup (keys s')) /\
  (forall A A' id,
     identity type_name (Some A) st = Returned id ->
     identity type_name (Some A') st = Returned id ->
     exists st1 st2 s2,
       add type_name this (Some A) st = Returned st1 /\
       add type_name this (Some A') st1 = Returned st2 /\
       stack_at this st2 = Returned s2 /\
       stack_find id s2 = Some {| result := RunResult_default; sev := Some A' |} /\
       count_occ string_dec (keys s2) id = 1%nat /\
       NoDup (keys s2)).
Proof.
  intros Hok. split; [intros s; now apply stack_ok_NoDup |].
  split; [| split; [| split]].
  - intros c st' Hc.
    pose proof (manager_call_ok _ type_name this c st st' Hok Hc) as Hok'.
    split; [exact Hok' | intros s'; now apply stack_ok_NoDup].
  - intros fuel bot event a tr r w' H. apply serve_keeps in H. simpl in H.
    pose proof (keeps_stack_ok this _ _ H Hok) as Hok'.
    split; [exact Hok' | intros s'; now apply stack_ok_NoDup].
  - intros fuel bot a tr w' H. apply uninstall_keeps in H. simpl in H.
    pose proof (keeps_stack_ok this _ _ H Hok) as Hok'.
    split; [exact Hok' | intros s'; now apply stack_ok_NoDup].
  - intros A A' id. now apply add_twice.
Qed.

End Lifecycle.

(** ** The registry *)

Lemma registered_names type_name (types : list Impl) (name : string) :
  is_Some (fold_right (make_available type_name) ∅ types !! name) ->
  In name (map type_name types).
Proof.
  induction types as [| c types IH]; simpl.
  - rewrite lookup_empty. intros [x Hx]. discriminate.
  - unfold make_available at 1.
    destruct (fold_right (make_available type_name) ∅ types !! type_name c) eqn:E.
    + intros H. right. now apply IH.
    + destruct (String.string_dec (type_name c) name) as [-> | Hne]; [now left |].
      rewrite lookup_insert_ne by exact Hne. intros H. right. now apply IH.
Qed.

(** C3, as the code has it. [require] of a name that no concrete type was
    registered under does not return: the lookup [.at] throws
    [std::out_of_range] inside a [noexcept] function, which terminates the
    process; no error value is produced and nothing is added. *)
Theorem require_unregistered_terminates {Env} type_name (types : list Impl)
    (this : addr) (name : string) (st : Store Env) :
  registry st = fold_right (make_available type_name) ∅ types ->
  ~ In name (map type_name types) ->
  require type_name this name st = Crashed Terminate_out_of_range /\
  ~ returns (require type_name this name st).
Proof.
  intros Hreg Hname.
  assert (require type_name this name st = Crashed Terminate_out_of_range) as H.
  { unfold require. destruct (registry st !! name) as [c |] eqn:E; [| reflexivity].
    destruct Hname. apply registered_names. rewrite <- Hreg, E. now exists c. }
  split; [exact H |]. intros [st' H']. rewrite H in H'. discriminate.
Qed.

(** ** The example program *)

(** The registry of the example has no ["NoSuchService"]. *)
Lemma require_unregistered_terminates_witness :
  registry Demo.st0 =
    fold_right (make_available Demo.type_name) ∅
      [ServiceSecheduler; Demo.X; Demo.Y; Demo.P; Demo.Q; Demo.Host] /\
  require Demo.type_name 1%positive "NoSuchService" Demo.st0
    = Crashed Terminate_out_of_range.
Proof.
  split; [reflexivity |].
  apply (require_unregistered_terminates Demo.type_name
           [ServiceSecheduler; Demo.X; Demo.Y; Demo.P; Demo.Q; Demo.Host]).
  - reflexivity.
  - simpl. intros H. repeat (destruct H as [H | H]; [discriminate |]). exact H.
Defined.

(** C3 as stated does not hold: constructing ["NoSuchService"] against a
    registry that does not have it yields no value, it terminates. *)
Lemma create_unknown_counterexample :
  registry Demo.st0 !! "NoSuchService" = None /\
  require Demo.type_name 1%positive "NoSuchService" Demo.st0
    = Crashed Terminate_out_of_range /\
  ~ returns (require Demo.type_name 1%positive "NoSuchService" Demo.st0).
Proof.
  split; [vm_compute; reflexivity |]. split; [vm_compute; reflexivity |].
  intros [st H]. vm_compute in H. discriminate.
Qed.

(** C1 as stated does not hold: the [Y] served on its own computes status 1
    in [run], and [serve] returns the inert result instead; the node of [Y]
    in the map of its parent, the dispatcher, is not written. *)
Lemma serve_returns_computed_counterexample :
  run (Demo.hooks 1) 3%positive tt tt = Done (Demo.status 1) /\
  exists w',
    Demo.Y_served = Returned (RunResult_default, w') /\
    RunResult_default <> Demo.status 1 /\
    stack_at 1%positive (store w') = stack_at 1%positive Demo.dispatcher_store /\
    (s ← stack_at 1%positive (store w'); Returned (result <$> stack_find "Y" s))
      = Returned (Some RunResult_default).
Proof.
  split; [reflexivity |]. eexists. split; [vm_compute; reflexivity |].
  split; [discriminate |]. split; vm_compute; reflexivity.
Qed.

(** The [Y] of the example, served once: status 1 is cached under ["Y"] in
    its own map. *)
Lemma serve_caches_in_own_stack_witness :
  exists r w' s1,
    serve Demo.type_name Demo.hooks 1 tt tt 3%positive Demo.dispatcher_world
      = Returned (r, w') /\
    stack_at 3%positive (store Demo.Y_ran) = Returned s1 /\
    stack_at 3%positive (store w') = Returned (snd (replace "Y" (Demo.status 1) s1)) /\
    result <$> stack_find "Y" (snd (replace "Y" (Demo.status 1) s1))
      = Some (Demo.status 1) /\
    (forall a, a <> 3%positive ->
       heap (store w') !! a = heap (store Demo.Y_ran) !! a) /\
    env (store w') = env (store Demo.Y_ran) /\
    trace w' = trace Demo.Y_ran.
Proof.
  apply (serve_caches_in_own_stack unit unit unit Demo.type_name Demo.hooks
           0 tt tt 3%positive Demo.dispatcher_world (Demo.object Demo.Y)
           (Demo.status 1) Demo.Y_ran).
  - vm_compute. reflexivity.
  - vm_compute. reflexivity.
Defined.

(** C2 on the code: after one [serve] on a dispatcher with [X] (status -1)
    and [Y] (status 1), the dispatcher returns the inert result, the fan-out
    reached both children, whose own maps hold the failure and the success,
    but the nodes of [X] and [Y] in the dispatcher's map both hold the inert
    result. *)
Lemma fan_out_caches_stale_results :
  exists w s sx sy,
    Demo.served_once = Returned (nothing, w) /\
    trace w = [CallServe 1%positive; HookRun 1%positive;
               CallServe 2%positive; HookRun 2%positive;
               CallServe 3%positive; HookRun 3%positive] /\
    stack_at 1%positive (store w) = Returned s /\
    stack_find "X" s = Some {| result := RunResult_default; sev := Some 2%positive |} /\
    stack_find "Y" s = Some {| result := RunResult_default; sev := Some 3%positive |} /\
    failed RunResult_default = false /\ success RunResult_default = false /\
    stack_at 2%positive (store w) = Returned sx /\
    result <$> stack_find "X" sx = Some (Demo.status (-1)) /\
    stack_at 3%positive (store w) = Returned sy /\
    result <$> stack_find "Y" sy = Some (Demo.status 1).
Proof.
  do 4 eexists. split; [vm_compute; reflexivity |].
  repeat (split; [vm_compute; reflexivity |]). vm_compute. reflexivity.
Qed.


(** The [run] of the [X] and of the [Y] of the example is plain. *)
Lemma Demo_runs_plainly (n : nat) :
  (n <= 1)%nat -> runs_plainly Demo.type_name Demo.hooks n.
Proof.
  intros Hn invoke this bot event w. destruct n as [| [| n]]; [| | lia].
  - exists (Demo.status (-1)), w. now repeat split.
  - exists (Demo.status 1), w. now repeat split.
Qed.

(** The dispatcher of the example, served once and then again. *)
Lemma serve_leaves_null_self_entry_witness :
  heap (store Demo.dispatcher_world) !! 1%positive
    = Some {| cls := ServiceSecheduler;
              mgr_ := [("X", Demo.entry 2%positive); ("Y", Demo.entry 3%positive)] |} /\
  stack_wf [("X", Demo.entry 2%positive); ("Y", Demo.entry 3%positive)] /\
  Demo.served_once = Returned (nothing, Demo.world_once) /\
  null_entry 1%positive "ayan::ServiceSecheduler" (store Demo.world_once) /\
  (forall fuel, ~ returns (serve Demo.type_name Demo.hooks fuel tt tt 1%positive
                             Demo.world_once)) /\
  serve Demo.type_name Demo.hooks 5 tt tt 1%positive Demo.world_once
    = Crashed NullDeref.
Proof.
  assert (heap (store Demo.dispatcher_world) !! 1%positive
          = Some {| cls := ServiceSecheduler;
                    mgr_ := [("X", Demo.entry 2%positive); ("Y", Demo.entry 3%positive)] |})
    as H1 by (vm_compute; reflexivity).
  assert (stack_wf [("X", Demo.entry 2%positive); ("Y", Demo.entry 3%positive)]) as H2.
  { repeat constructor. }
  assert (Demo.served_once = Returned (nothing, Demo.world_once)) as H3
    by (vm_compute; reflexivity).
  repeat (split; [assumption |]).
  destruct (serve_leaves_null_self_entry unit unit unit Demo.type_name Demo.hooks
              10 tt tt 1%positive Demo.dispatcher_world _ nothing Demo.world_once
              H1 H2 H3) as (_ & Hnull & Hlater).
  assert (forall e : ExecState,
            stack_find (Demo.type_name ServiceSecheduler)
              [("X", Demo.entry 2%positive); ("Y", Demo.entry 3%positive)] = Some e ->
            sev e = None) as Hself.
  { intros e He. vm_compute in He. discriminate. }
  destruct (Hlater Hself eq_refl) as [Hstuck Hcrash].
  split; [apply (Hnull Hself); now left |]. split; [intros fuel; apply Hstuck |].
  apply Hcrash; [| simpl; lia].
  intros k e Hf. simpl in Hf.
  destruct (key_compare k "X") eqn:EX; [| discriminate |].
  - injection Hf as <-. exists 2%positive. eexists. exists 0%nat.
    split; [reflexivity |]. split; [vm_compute; reflexivity |].
    split; [reflexivity |]. apply Demo_runs_plainly. lia.
  - destruct (key_compare k "Y") eqn:EY; [| discriminate | discriminate].
    injection Hf as <-. exists 3%positive. eexists. exists 1%nat.
    split; [reflexivity |]. split; [vm_compute; reflexivity |].
    split; [reflexivity |]. apply Demo_runs_plainly. lia.
Defined.

(** C5 as stated does not hold: a dispatcher that holds a second dispatcher
    never added itself, and after a [serve] the node under its own identity
    holds that second dispatcher, not a null pointer. *)
Lemma serve_null_self_entry_counterexample :
  stack_at 1%positive (store Demo.nested_world)
    = Returned [("ayan::ServiceSecheduler", Demo.entry 2%positive)] /\
  (forall k e, In (k, e) [("ayan::ServiceSecheduler", Demo.entry 2%positive)] ->
     sev e <> Some 1%positive) /\
  Demo.nested_served = Returned (nothing, Demo.the_world Demo.nested_served) /\
  (s ← stack_at 1%positive (store (Demo.the_world Demo.nested_served));
   Returned (sev <$> stack_find "ayan::ServiceSecheduler" s))
    = Returned (Some (Some 2%positive)) /\
  ~ null_entry 1%positive "ayan::ServiceSecheduler"
      (store (Demo.the_world Demo.nested_served)).
Proof.
  split; [vm_compute; reflexivity |].
  split; [intros k e [[= <- <-] | []]; discriminate |].
  split; [vm_compute; reflexivity |].
  split; [vm_compute; reflexivity |].
  intros (o & e & Ho & _ & Hf & He).
  vm_compute in Ho. injection Ho as <-. vm_compute in Hf. injection Hf as <-.
  discriminate.
Qed.

(** There the second [serve] stops all the same, inside the second
    dispatcher, whose own first [serve] left it a node with a null service. *)
Lemma nested_second_serve :
  serve Demo.type_name Demo.hooks 10 tt tt 1%positive
    (Demo.the_world Demo.nested_served) = Crashed NullDeref.
Proof. vm_compute. reflexivity. Qed.

(** On the example, the second [serve] stops on the null pointer. *)
Lemma second_serve_null_deref : Demo.served_twice = Crashed NullDeref.
Proof. vm_compute. reflexivity. Qed.

(** The [Host] of the example, whose [usuage] adds a [Q] and then a [P],
    whose [load] resets the cached results and whose [unload] empties the
    map. *)
Lemma lifecycle_order_witness :
  key_lt "P" "Q" /\
  (install Demo.type_name Demo.hooks 4 tt 1%positive Demo.host_world
     = Impl_load Demo.type_name Demo.hooks Demo.Host tt 1%positive Demo.host_Q_installed /\
   exists w4,
     install Demo.type_name Demo.hooks 4 tt 1%positive Demo.host_world = Returned w4 /\
     trace w4 = [CallInstall 1%positive; HookUsuage 1%positive;
                 CallInstall 3%positive; HookUsuage 3%positive; HookLoad 3%positive;
                 CallInstall 2%positive; HookUsuage 2%positive; HookLoad 2%positive;
                 HookLoad 1%positive] /\
     perform Demo.type_name no_call 1%positive (Manager call_invalid (Done tt))
       (log (HookLoad 1%positive) Demo.host_Q_installed) = Returned (tt, w4)) /\
  (uninstall Demo.type_name Demo.hooks 4 tt 1%positive Demo.host_installed
     = Impl_unload Demo.type_name Demo.hooks Demo.Host tt 1%positive
         Demo.host_Q_uninstalled /\
   exists w4,
     uninstall Demo.type_name Demo.hooks 4 tt 1%positive Demo.host_installed
       = Returned w4 /\
     trace w4 = [CallUninstall 1%positive;
                 CallUninstall 3%positive; HookUnload 3%positive;
                 CallUninstall 2%positive; HookUnload 2%positive;
                 HookUnload 1%positive] /\
     stack_at 1%positive (store w4) = Returned [] /\
     perform Demo.type_name no_call 1%positive (Manager call_remove_all (Done tt))
       (log (HookUnload 1%positive) Demo.host_Q_uninstalled) = Returned (tt, w4)).
Proof.
  assert (key_lt "P" "Q") as Hlt by reflexivity.
  split; [exact Hlt |].
  destruct (lifecycle_order unit unit unit Demo.type_name Demo.hooks 3 tt 1%positive
              "P" (Demo.entry 3%positive) "Q" (Demo.entry 2%positive)
              3%positive 2%positive Hlt eq_refl eq_refl (le_n 3))
    as [Hinstall Huninstall].
  split.
  - destruct (Hinstall (Demo.object Demo.Host) Demo.host_world Demo.host_declared
                Demo.host_P_installed Demo.host_Q_installed)
      as (Heq & (tP & tQ & Ht1 & Ht2 & Ht3 & Ht4) & Huser);
      try (vm_compute; reflexivity).
    split; [exact Heq |].
    assert (exists w4, install Demo.type_name Demo.hooks 4 tt 1%positive Demo.host_world
                       = Returned w4) as [w4 H4] by (eexists; vm_compute; reflexivity).
    exists w4. split; [exact H4 |]. split.
    + rewrite (Ht4 w4 H4).
      assert (tP = [HookUsuage 3%positive; HookLoad 3%positive]) as ->.
      { vm_compute in Ht2. now injection Ht2 as <-. }
      assert (tQ = [HookUsuage 2%positive; HookLoad 2%positive]) as ->.
      { vm_compute in Ht3. now injection Ht3 as <-. }
      reflexivity.
    + destruct (Huser 4%nat eq_refl) as [_ Hload]. exact (Hload w4 H4).
  - destruct (Huninstall
                {| cls := Demo.Host;
                   mgr_ := [("P", Demo.entry 3%positive); ("Q", Demo.entry 2%positive)] |}
                Demo.host_installed Demo.host_P_uninstalled Demo.host_Q_uninstalled)
      as (Heq & (tP & tQ & Ht2 & Ht3 & Ht4) & Huser);
      try (vm_compute; reflexivity).
    split; [exact Heq |].
    assert (exists w4, uninstall Demo.type_name Demo.hooks 4 tt 1%positive
                         Demo.host_installed = Returned w4) as [w4 H4]
      by (eexists; vm_compute; reflexivity).
    exists w4. split; [exact H4 |]. split; [| split].
    + rewrite (Ht4 w4 H4).
      assert (tP = [HookUnload 3%positive]) as ->.
      { vm_compute in Ht2. now injection Ht2 as <-. }
      assert (tQ = [HookUnload 2%positive]) as ->.
      { vm_compute in Ht3. now injection Ht3 as <-. }
      reflexivity.
    + vm_compute in H4. injection H4 as <-. vm_compute. reflexivity.
    + exact (Huser 4%nat eq_refl w4 H4).
Defined.

(** C6 as stated does not hold of every service with the children [P] and
    [Q]: once the [Host] has served an event, its map has a third node,
    under its own identity and with a null service, which comes first;
    [uninstall] and [install] stop there, before any child is reached and
    without running the [unload] or the [load] hook. *)
Lemma lifecycle_order_counterexample :
  serve Demo.type_name Demo.hooks 5 tt tt 1%positive Demo.host_installed
    = Returned (nothing, Demo.host_served) /\
  stack_at 1%positive (store Demo.host_served)
    = Returned [("Host", {| result := RunResult_default; sev := None |});
                ("P", Demo.entry 3%positive); ("Q", Demo.entry 2%positive)] /\
  uninstall Demo.type_name Demo.hooks 5 tt 1%positive Demo.host_served
    = Crashed NullDeref /\
  install Demo.type_name Demo.hooks 5 tt 1%positive Demo.host_served
    = Crashed NullDeref.
Proof. repeat split; vm_compute; reflexivity. Qed.

(** The identities ["b"], ["a"], ["c"], added in two different orders. *)
Lemma foreach_visits_in_key_order_witness :
  (forall k, In k (map fst Demo.added_bac) <-> In k (map fst Demo.added_cab)) /\
  visit_order (stack_after Demo.added_bac) = Returned ["a"; "b"; "c"] /\
  visit_order (stack_after Demo.added_cab) = visit_order (stack_after Demo.added_bac).
Proof.
  assert (forall k, In k (map fst Demo.added_bac) <-> In k (map fst Demo.added_cab)) as H.
  { intros k. simpl. tauto. }
  split; [exact H |].
  destruct (foreach_visits_in_key_order Demo.added_bac Demo.added_cab H)
    as (Hv & _ & _ & Hsame).
  split; [rewrite Hv; reflexivity | exact Hsame].
Defined.

(** The identities ["b"], ["a"], ["c"], added in any order, are visited as
    ["a"], ["b"], ["c"]. *)
Lemma visit_order_abc (l : list (string * ExecState)) :
  Permutation l Demo.added_bac ->
  visit_order (stack_after l) = Returned ["a"; "b"; "c"].
Proof.
  intros Hperm. rewrite visit_order_keys by apply stack_after_wf. f_equal.
  apply sorted_keys_unique.
  - apply stack_after_wf.
  - repeat constructor.
  - intros k. rewrite stack_after_keys.
    rewrite (Permutation_in' (eq_refl k) (Permutation_map fst Hperm)).
    simpl. tauto.
Qed.

(** The two [X] of the example, added to the dispatcher one after the other. *)
Lemma one_entry_per_identity_witness :
  stack_ok 1%positive Demo.st0 /\
  exists st1 st2 s2,
    add Demo.type_name 1%positive (Some 2%positive) Demo.st0 = Returned st1 /\
    add Demo.type_name 1%positive (Some 4%positive) st1 = Returned st2 /\
    stack_at 1%positive st2 = Returned s2 /\
    stack_find "X" s2 = Some (Demo.entry 4%positive) /\
    count_occ string_dec (keys s2) "X" = 1%nat /\
    NoDup (keys s2).
Proof.
  assert (stack_ok 1%positive Demo.st0) as H.
  { exists []. split; [vm_compute; reflexivity | constructor]. }
  split; [exact H |].
  destruct (one_entry_per_identity unit unit unit Demo.type_name Demo.hooks
              1%positive Demo.st0 H) as (_ & _ & _ & _ & Hadd).
  apply (Hadd 2%positive 4%positive "X"); vm_compute; reflexivity.
Defined.

(** * Further properties of the core *)

(** ** [RunResult] *)

(** X1. A result is inert, a success or a failure, and exactly one of the
    three, by the sign of its status; [nothing()] is inert. *)
Theorem RunResult_trichotomy (r : RunResult) :
  ill nothing = true /\
  (ill r = true <-> ret r = 0) /\
  (success r = true <-> 0 < ret r) /\
  (failed r = true <-> ret r < 0) /\
  ((ill r = true /\ success r = false /\ failed r = false) \/
   (ill r = false /\ success r = true /\ failed r = false) \/
   (ill r = false /\ success r = false /\ failed r = true)).
Proof.
  unfold ill, success, failed, NoSignaficantRet.
  split; [reflexivity |].
  split; [apply Z.eqb_eq |].
  split; [rewrite Z.gtb_ltb; apply Z.ltb_lt |].
  split; [apply Z.ltb_lt |].
  rewrite Z.gtb_ltb.
  destruct (Z.eqb_spec (ret r) 0), (Z.ltb_spec 0 (ret r)), (Z.ltb_spec (ret r) 0);
    try lia; tauto.
Qed.

(** ** The registry *)

(** X2. Registration is insert-only: [make_available] registers a type
    under its name when the name is free, leaves the registry as it is when
    the name is taken (a second registration under one identity is ignored,
    whatever the type), and never touches another name. *)
Theorem make_available_insert_only (type_name : Impl -> string) (c : Impl)
    (reg : gmap string Impl) :
  is_Some (make_available type_name c reg !! type_name c) /\
  (reg !! type_name c = None ->
   make_available type_name c reg !! type_name c = Some c) /\
  (forall c0, reg !! type_name c = Some c0 ->
   make_available type_name c reg = reg) /\
  (forall name, name <> type_name c ->
   make_available type_name c reg !! name = reg !! name) /\
  (forall c', type_name c' = type_name c ->
   make_available type_name c' (make_available type_name c reg)
   = make_available type_name c reg).
Proof.
  unfold make_available.
  destruct (reg !! type_name c) as [c0 |] eqn:E.
  - split; [rewrite E; now exists c0 |].
    split; [discriminate |]. split; [reflexivity |]. split; [reflexivity |].
    intros c' Hc'. rewrite Hc', E. reflexivity.
  - split; [rewrite lookup_insert_eq; now exists c |].
    split; [intros _; apply lookup_insert_eq |].
    split; [discriminate |].
    split; [intros name Hne; apply lookup_insert_ne; congruence |].
    intros c' Hc'. rewrite Hc', lookup_insert_eq. reflexivity.
Qed.

Section Creation.

Variable Env : Type.
Variable type_name : Impl -> string.
Implicit Types (st : Store Env).

(** X3. [ServiceCreator<Sev>::create] hands out an object of its own: the
    address was not in use, the object has the requested type and an empty
    manager, every object that was there is untouched, and a second call
    gives another address. *)
Theorem create_is_fresh (c c' : Impl) st :
  let p := fst (make_shared c st) in
  let st1 := snd (make_shared c st) in
  heap st !! p = None /\
  heap st1 !! p = Some {| cls := c; mgr_ := [] |} /\
  (forall a o, heap st !! a = Some o -> heap st1 !! a = Some o) /\
  registry st1 = registry st /\ env st1 = env st /\
  fst (make_shared c' st1) <> p.
Proof.
  unfold make_shared. simpl.
  assert (heap st !! fresh (dom (heap st)) = None) as Hfresh
    by (apply not_elem_of_dom, is_fresh).
  split; [exact Hfresh |].
  split; [apply lookup_insert_eq |].
  split.
  { intros a o Ha. rewrite lookup_insert_ne; [exact Ha |]. congruence. }
  split; [reflexivity |]. split; [reflexivity |].
  intros E.
  pose proof (is_fresh (dom (<[fresh (dom (heap st)) := {| cls := c; mgr_ := [] |}]> (heap st))))
    as Hf.
  rewrite E in Hf. apply Hf. apply elem_of_dom. rewrite lookup_insert_eq. now eexists.
Qed.

End Creation.

(** ** More on the ordered map *)

Lemma stack_In_find k e s : stack_wf s -> In (k, e) s -> stack_find k s = Some e.
Proof.
  intros Hwf Hin. apply in_split in Hin as (s1 & s2 & ->). now apply stack_find_app.
Qed.

Lemma stack_find_iff_In k e s :
  stack_wf s -> (stack_find k s = Some e <-> In (k, e) s).
Proof. intros Hwf. split; [apply stack_find_In | now apply stack_In_find]. Qed.

(** Two well-formed maps with the same lookups are the same map. *)
Lemma stack_ext s1 : forall s2,
  stack_wf s1 -> stack_wf s2 ->
  (forall k, stack_find k s1 = stack_find k s2) -> s1 = s2.
Proof.
  induction s1 as [| [k1 e1] s1 IH]; intros s2 H1 H2 Hfind.
  - destruct s2 as [| [k2 e2] s2]; [reflexivity |].
    specialize (Hfind k2). simpl in Hfind. rewrite key_compare_refl in Hfind. discriminate.
  - destruct s2 as [| [k2 e2] s2].
    + specialize (Hfind k1). simpl in Hfind. rewrite key_compare_refl in Hfind. discriminate.
    + pose proof H1 as H1'. pose proof H2 as H2'.
      unfold stack_wf in H1', H2'. simpl in H1', H2'.
      apply StronglySorted_inv in H1' as [W1 A1].
      apply StronglySorted_inv in H2' as [W2 A2].
      rewrite List.Forall_forall in A1, A2.
      assert (k1 = k2) as ->.
      { pose proof (Hfind k1) as F1. pose proof (Hfind k2) as F2.
        simpl in F1, F2. rewrite key_compare_refl in F1, F2.
        destruct (key_compare k1 k2) eqn:E12.
        - now apply key_compare_eq.
        - discriminate.
        - destruct (key_compare k2 k1) eqn:E21.
          + symmetry. now apply key_compare_eq.
          + discriminate.
          + apply key_compare_gt in E12, E21.
            destruct (key_lt_irrefl _ (key_lt_trans _ _ _ E12 E21)). }
      assert (e1 = e2) as ->.
      { specialize (Hfind k2). simpl in Hfind. rewrite key_compare_refl in Hfind.
        congruence. }
      f_equal. apply IH; try assumption.
      intros k. specialize (Hfind k). simpl in Hfind.
      destruct (key_compare k k2) eqn:E; try exact Hfind.
      * apply key_compare_eq in E. subst k.
        destruct (stack_find k2 s1) as [e |] eqn:F1.
        { apply stack_find_In in F1. apply (in_map fst) in F1.
          destruct (key_lt_irrefl _ (A1 _ F1)). }
        destruct (stack_find k2 s2) as [e |] eqn:F2; [| reflexivity].
        apply stack_find_In in F2. apply (in_map fst) in F2.
        destruct (key_lt_irrefl _ (A2 _ F2)).
      * change (key_lt k k2) in E.
        destruct (stack_find k s1) as [e |] eqn:F1.
        { apply stack_find_In in F1. apply (in_map fst) in F1.
          destruct (key_lt_irrefl _ (key_lt_trans _ _ _ E (A1 _ F1))). }
        destruct (stack_find k s2) as [e |] eqn:F2; [| reflexivity].
        apply stack_find_In in F2. apply (in_map fst) in F2.
        destruct (key_lt_irrefl _ (key_lt_trans _ _ _ E (A2 _ F2))).
Qed.

Lemma stack_wf_filter (f : string * ExecState -> bool) s :
  stack_wf s -> stack_wf (List.filter f s).
Proof.
  unfold stack_wf, keys. apply StronglySorted_sublist.
  induction s as [| n s IH]; simpl; [constructor |].
  destruct (f n); simpl; [now apply sublist_skip | now apply sublist_cons].
Qed.

Lemma stack_find_filter (f : string * ExecState -> bool) s k :
  stack_wf s ->
  stack_find k (List.filter f s) =
    match stack_find k s with
    | Some e => if f (k, e) then Some e else None
    | None => None
    end.
Proof.
  intros Hwf. pose proof (stack_wf_filter f s Hwf) as Hwf'.
  destruct (stack_find k s) as [e |] eqn:F.
  - apply stack_find_In in F. destruct (f (k, e)) eqn:Ef.
    + apply stack_In_find; [exact Hwf' |]. apply filter_In. now split.
    + destruct (stack_find k (List.filter f s)) as [e' |] eqn:F'; [| reflexivity].
      apply stack_find_In in F'. apply filter_In in F' as [Hin Hf].
      apply (stack_In_find _ _ _ Hwf) in Hin, F. congruence.
  - destruct (stack_find k (List.filter f s)) as [e' |] eqn:F'; [| reflexivity].
    apply stack_find_In in F'. apply filter_In in F' as [Hin _].
    apply (stack_In_find _ _ _ Hwf) in Hin. congruence.
Qed.

(** At most one node of a well-formed map has a given key. *)
Lemma count_key s k :
  stack_wf s ->
  List.length (List.filter (fun n => String.eqb k (fst n)) s)
  = match stack_find k s with Some _ => 1%nat | None => 0%nat end.
Proof.
  unfold stack_wf. induction s as [| [k0 e0] s IH]; simpl; intros Hwf; [reflexivity |].
  apply StronglySorted_inv in Hwf as [Hs Hall]. rewrite List.Forall_forall in Hall.
  specialize (IH Hs).
  destruct (String.eqb_spec k k0) as [-> | Hne].
  - rewrite key_compare_refl. simpl. rewrite IH.
    destruct (stack_find k0 s) as [e |] eqn:F; [| reflexivity].
    apply stack_find_In in F. apply (in_map fst) in F.
    destruct (key_lt_irrefl _ (Hall _ F)).
  - destruct (key_compare k k0) eqn:E.
    + apply key_compare_eq in E. contradiction.
    + rewrite IH. destruct (stack_find k s) as [e |] eqn:F; [| reflexivity].
      apply stack_find_In in F. apply (in_map fst) in F.
      destruct (key_lt_irrefl _ (key_lt_trans _ _ _ E (Hall _ F))).
    + exact IH.
Qed.

(** X4. [replace] on a key that has a node links nothing: it returns the
    result the node held, the node keeps its service and takes the new
    result, and the keys and every other node are as before. *)
Theorem replace_existing_entry (key : string) (newer : RunResult)
    (e : ExecState) (s : ExecuteStack) :
  stack_find key s = Some e ->
  fst (replace key newer s) = result e /\
  stack_find key (snd (replace key newer s)) = Some {| result := newer; sev := sev e |} /\
  keys (snd (replace key newer s)) = keys s /\
  (forall k, k <> key ->
     stack_find k (snd (replace key newer s)) = stack_find k s) /\
  (stack_wf s -> stack_wf (snd (replace key newer s))).
Proof.
  intros Hf. rewrite replace_spec, Hf. simpl.
  split; [reflexivity |].
  split; [apply stack_find_assign_eq |].
  split; [now apply (keys_assign_found _ _ _ e) |].
  split; [intros k Hk; apply stack_find_assign_ne; congruence |].
  apply stack_wf_assign.
Qed.

Lemma In_stack_assign k v s k' e' :
  In (k', e') (stack_assign k v s) -> (k', e') = (k, v) \/ In (k', e') s.
Proof.
  induction s as [| [k0 e0] s IH]; simpl.
  - intros [H | []]. left. now symmetry.
  - destruct (key_compare k k0) eqn:E; simpl.
    + apply key_compare_eq in E. subst k0. intros [H | H]; [left; now symmetry | auto].
    + intros [H | H]; [left; now symmetry | auto].
    + intros [H | H]; [auto |]. destruct (IH H); auto.
Qed.

Lemma stack_find_map_values (h : string * ExecState -> ExecState) s k :
  stack_find k (map (fun n => (fst n, h n)) s)
  = (fun e => h (k, e)) <$> stack_find k s.
Proof.
  induction s as [| [k0 e0] s IH]; simpl; [reflexivity |].
  destruct (key_compare k k0) eqn:E; try reflexivity; [| exact IH].
  apply key_compare_eq in E. now subst k0.
Qed.

(** What [invalid_if] computes when the predicate is a function of the
    node. *)
Lemma invalid_if_spec (cond : ExecState -> outcome bool)
    (g : string * ExecState -> bool) s :
  (forall k e, In (k, e) s -> cond e = Returned (g (k, e))) ->
  invalid_if cond s =
    Returned (List.length (List.filter g s),
              map (fun n => (fst n, if g n then reset (snd n) else snd n)) s).
Proof.
  induction s as [| [k0 e0] s IH]; intros Hc; [reflexivity |].
  cbn [invalid_if]. rewrite (Hc k0 e0 (or_introl eq_refl)). cbn [mbind outcome_bind].
  rewrite IH by (intros k e Hin; apply Hc; now right).
  cbn [mbind outcome_bind]. simpl. destruct (g (k0, e0)); reflexivity.
Qed.

(** X5. [invalid_if] with a predicate on the node resets the result of
    exactly the nodes that satisfy it and returns their number; it links and
    unlinks nothing and leaves every service and every other result alone. *)
Theorem invalid_if_resets_matching (f : ExecState -> bool) (s : ExecuteStack) :
  exists s',
    invalid_if (fun e => Returned (f e)) s
      = Returned (List.length (List.filter (fun n => f (snd n)) s), s') /\
    keys s' = keys s /\
    (forall k, stack_find k s'
               = (fun e => if f e then reset e else e) <$> stack_find k s) /\
    map (fun n => sev (snd n)) s' = map (fun n => sev (snd n)) s /\
    (List.length (List.filter (fun n => f (snd n)) s) <= List.length s)%nat.
Proof.
  eexists. split.
  { apply (invalid_if_spec _ (fun n => f (snd n))). reflexivity. }
  split; [unfold keys; rewrite map_map; reflexivity |].
  split.
  { intros k.
    apply (stack_find_map_values (fun n => if f (snd n) then reset (snd n) else snd n)). }
  split.
  { rewrite map_map. apply map_ext. intros [k e]. simpl. now destruct (f e). }
  apply List.filter_length_le.
Qed.

Lemma filter_none {A} (g : A -> bool) (l : list A) :
  (forall x, In x l -> g x = false) -> List.filter g l = [].
Proof.
  induction l as [| x l IH]; intros H; [reflexivity |]. simpl.
  rewrite (H x (or_introl eq_refl)). apply IH. intros y Hy. apply H. now right.
Qed.

(** X6. With a predicate on the status that does not hold of the inert
    status, [invalid_if] leaves only nodes that the predicate rejects: a
    second call resets nothing and returns 0. *)
Theorem invalid_if_ret_twice (f : RetCode -> bool) (s : ExecuteStack) :
  f NoSignaficantRet = false ->
  exists s',
    invalid_if_ret (fun r => Returned (f r)) s
      = Returned (List.length (List.filter (fun n => f (ret (result (snd n)))) s), s') /\
    Forall (fun n => f (ret (result (snd n))) = false) s' /\
    invalid_if_ret (fun r => Returned (f r)) s' = Returned (0%nat, s').
Proof.
  intros Hf. unfold invalid_if_ret.
  set (g := fun n : string * ExecState => f (ret (result (snd n)))).
  set (s' := map (fun n => (fst n, if g n then reset (snd n) else snd n)) s).
  assert (forall n, In n s' -> g n = false) as Hrej.
  { intros n Hn. apply in_map_iff in Hn as ([k e] & <- & _). unfold g. simpl.
    destruct (f (ret (result e))) eqn:E; [exact Hf | exact E]. }
  exists s'. split; [apply (invalid_if_spec _ g); reflexivity |].
  split; [apply List.Forall_forall; exact Hrej |].
  rewrite (invalid_if_spec _ g) by reflexivity.
  rewrite (filter_none g s' Hrej). simpl. f_equal. f_equal.
  rewrite <- (map_id s') at 2. apply map_ext_in.
  intros [k e] Hn. simpl. now rewrite (Hrej _ Hn).
Qed.

Section ManagerExtras.

Variable Env : Type.
Variable type_name : Impl -> string.
Implicit Types (st : Store Env) (s : ExecuteStack) (this : addr).

Lemma identity_set_stack this s st st' :
  set_stack this s st = Returned st' ->
  forall q, identity type_name q st' = identity type_name q st.
Proof.
  intros H. apply set_stack_inv in H as (o & Ho & ->).
  intros [q |]; [| reflexivity]. unfold identity, obj_at. simpl.
  destruct (decide (this = q)) as [<- | Hne].
  - now rewrite lookup_insert_eq, Ho.
  - now rewrite lookup_insert_ne.
Qed.

Lemma stack_consistent_identity st st' s :
  (forall q, identity type_name q st' = identity type_name q st) ->
  stack_consistent type_name st s -> stack_consistent type_name st' s.
Proof. intros Hid Hc k e Hin. rewrite Hid. now apply Hc. Qed.

Lemma set_stack_replaced this o s' st :
  heap st !! this = Some o ->
  exists st', set_stack this s' st = Returned st' /\ stack_replaced this o s' st st'.
Proof.
  intros Ho. rewrite (set_stack_returns _ _ _ _ _ Ho). eexists. split; [reflexivity |].
  repeat split.
Qed.

Lemma add_consistent this p st o id :
  heap st !! this = Some o -> stack_wf (mgr_ o) ->
  stack_consistent type_name st (mgr_ o) ->
  identity type_name p st = Returned id ->
  exists st' s',
    add type_name this p st = Returned st' /\
    s' = stack_assign id {| result := RunResult_default; sev := p |} (mgr_ o) /\
    stack_replaced this o s' st st' /\
    stack_wf s' /\ stack_consistent type_name st' s'.
Proof.
  intros Ho Hwf Hc Hid.
  destruct (set_stack_replaced this o
              (stack_assign id {| result := RunResult_default; sev := p |} (mgr_ o))
              st Ho) as (st' & Hset & Hrep).
  exists st'. eexists. split.
  { unfold add, stack_at, obj_at. rewrite Hid, Ho. cbn [mbind outcome_bind]. exact Hset. }
  split; [reflexivity |]. split; [exact Hrep |]. split; [now apply stack_wf_assign |].
  intros k e Hin. rewrite (identity_set_stack _ _ _ _ Hset).
  apply In_stack_assign in Hin as [[= -> ->] | Hin]; [exact Hid | now apply Hc].
Qed.

Lemma erase_if_consistent st name s :
  stack_consistent type_name st s ->
  erase_if (fun state => id ← identity type_name (sev state) st;
                         Returned (String.eqb name id)) s
  = Returned (List.length (List.filter (fun n => String.eqb name (fst n)) s),
              List.filter (fun n => negb (String.eqb name (fst n))) s).
Proof.
  induction s as [| [k0 e0] s IH]; intros Hc; [reflexivity |].
  cbn [erase_if]. rewrite (Hc k0 e0 (or_introl eq_refl)). cbn [mbind outcome_bind].
  rewrite IH by (intros k e Hin; apply Hc; now right).
  cbn [mbind outcome_bind]. simpl. destruct (String.eqb name k0); reflexivity.
Qed.

Lemma remove_consistent this name st o :
  heap st !! this = Some o -> stack_wf (mgr_ o) ->
  stack_consistent type_name st (mgr_ o) ->
  exists st' s',
    remove type_name this name st
      = Returned (match stack_find name (mgr_ o) with Some _ => true | None => false end, st') /\
    stack_replaced this o s' st st' /\
    stack_find name s' = None /\
    (forall k, k <> name -> stack_find k s' = stack_find k (mgr_ o)) /\
    stack_wf s' /\ stack_consistent type_name st' s'.
Proof.
  intros Ho Hwf Hc.
  set (s' := List.filter (fun n => negb (String.eqb name (fst n))) (mgr_ o)).
  destruct (set_stack_replaced this o s' st Ho) as (st' & Hset & Hrep).
  exists st', s'. split.
  { unfold remove, stack_at, obj_at. rewrite Ho. cbn [mbind outcome_bind].
    rewrite (erase_if_consistent _ _ _ Hc). cbn [mbind outcome_bind].
    fold s'. rewrite Hset. cbn [mbind outcome_bind].
    rewrite (count_key _ _ Hwf). now destruct (stack_find name (mgr_ o)). }
  split; [exact Hrep |].
  split.
  { unfold s'. rewrite stack_find_filter by exact Hwf.
    destruct (stack_find name (mgr_ o)); [| reflexivity].
    simpl. now rewrite String.eqb_refl. }
  split.
  { intros k Hk. unfold s'. rewrite stack_find_filter by exact Hwf.
    destruct (stack_find k (mgr_ o)); [| reflexivity]. simpl.
    destruct (String.eqb_spec name k); [congruence | reflexivity]. }
  split; [now apply stack_wf_filter |].
  intros k e Hin. rewrite (identity_set_stack _ _ _ _ Hset).
  apply filter_In in Hin as [Hin _]. now apply Hc.
Qed.

(** X7. [add] keeps every key equal to the identity of the service of its
    node: the new node is under the identity of the service added, with the
    inert result, and the other nodes and objects are as before. A null
    pointer is dereferenced. *)
Theorem add_keeps_keys_as_identities this p st o id :
  heap st !! this = Some o -> stack_wf (mgr_ o) ->
  stack_consistent type_name st (mgr_ o) ->
  identity type_name p st = Returned id ->
  add type_name this None st = Crashed NullDeref /\
  exists st' s',
    add type_name this p st = Returned st' /\
    stack_at this st' = Returned s' /\
    stack_find id s' = Some {| result := RunResult_default; sev := p |} /\
    (forall k, k <> id -> stack_find k s' = stack_find k (mgr_ o)) /\
    stack_wf s' /\ stack_consistent type_name st' s' /\
    (forall a, a <> this -> heap st' !! a = heap st !! a).
Proof.
  intros Ho Hwf Hc Hid. split; [reflexivity |].
  destruct (add_consistent this p st o id Ho Hwf Hc Hid)
    as (st' & s' & Hadd & -> & (Hheap & _) & Hwf' & Hc').
  exists st'. eexists. split; [exact Hadd |].
  split; [apply stack_at_obj; eexists; split;
          [rewrite Hheap; apply lookup_insert_eq | reflexivity] |].
  split; [apply stack_find_assign_eq |].
  split; [intros k Hk; apply stack_find_assign_ne; congruence |].
  split; [exact Hwf' |]. split; [exact Hc' |].
  intros a Ha. rewrite Hheap. apply lookup_insert_ne. congruence.
Qed.

(** X8. On a map whose keys are the identities of its services,
    [remove(name)] unlinks the node of [name] and nothing else, and returns
    whether there was one; the map stays well formed with keys as
    identities, and the other objects are untouched. *)
Theorem remove_by_identity this name st o :
  heap st !! this = Some o -> stack_wf (mgr_ o) ->
  stack_consistent type_name st (mgr_ o) ->
  exists st' s',
    remove type_name this name st
      = Returned (match stack_find name (mgr_ o) with Some _ => true | None => false end, st') /\
    stack_at this st' = Returned s' /\
    stack_find name s' = None /\
    (forall k, k <> name -> stack_find k s' = stack_find k (mgr_ o)) /\
    stack_wf s' /\ stack_consistent type_name st' s' /\
    (forall a, a <> this -> heap st' !! a = heap st !! a).
Proof.
  intros Ho Hwf Hc.
  destruct (remove_consistent this name st o Ho Hwf Hc)
    as (st' & s' & Hrm & (Hheap & _) & Hnone & Hother & Hwf' & Hc').
  exists st', s'. split; [exact Hrm |].
  split; [apply stack_at_obj; eexists; split;
          [rewrite Hheap; apply lookup_insert_eq | reflexivity] |].
  repeat (split; [assumption |]).
  intros a Ha. rewrite Hheap. apply lookup_insert_ne. congruence.
Qed.

Lemma store_eq st st' :
  heap st' = heap st -> registry st' = registry st -> env st' = env st -> st' = st.
Proof. destruct st, st'. simpl. now intros -> -> ->. Qed.

(** X9. [add] and then [remove] of the identity added is a round trip: when
    the identity had no node, the store is back to what it was, and
    [remove] reports [true]; a second [remove] reports [false] and changes
    nothing. *)
Theorem add_remove_round_trip this p st o id :
  heap st !! this = Some o -> stack_wf (mgr_ o) ->
  stack_consistent type_name st (mgr_ o) ->
  identity type_name p st = Returned id ->
  stack_find id (mgr_ o) = None ->
  exists st1,
    add type_name this p st = Returned st1 /\
    remove type_name this id st1 = Returned (true, st) /\
    remove type_name this id st = Returned (false, st).
Proof.
  intros Ho Hwf Hc Hid Hnone.
  assert (forall o0 st0 s' st',
            heap st0 !! this = Some o0 -> cls o0 = cls o ->
            heap st0 = <[this := o0]> (heap st) ->
            registry st0 = registry st -> env st0 = env st ->
            stack_replaced this o0 s' st0 st' -> s' = mgr_ o -> st' = st) as Hback.
  { intros o0 st0 s' st' Ho0 Hcls Hh0 Hr0 He0 (Hh & Hr & He) ->.
    apply store_eq; [| congruence | congruence].
    rewrite Hh, Hh0, insert_insert_eq, Hcls. apply insert_id.
    rewrite Ho. now destruct o. }
  destruct (add_consistent this p st o id Ho Hwf Hc Hid)
    as (st1 & s1 & Hadd & -> & (Hh1 & Hr1 & He1) & Hwf1 & Hc1).
  exists st1. split; [exact Hadd |].
  set (o1 := {| cls := cls o;
                mgr_ := stack_assign id {| result := RunResult_default; sev := p |} (mgr_ o) |}).
  assert (heap st1 !! this = Some o1) as Ho1 by (rewrite Hh1; apply lookup_insert_eq).
  split.
  - destruct (remove_consistent this id st1 o1 Ho1 Hwf1 Hc1)
      as (st2 & s2 & Hrm & Hrep & Hnone2 & Hother & Hwf2 & _).
    simpl in Hrm. rewrite stack_find_assign_eq in Hrm. rewrite Hrm. f_equal. f_equal.
    apply (Hback o1 st1 s2 st2); trivial.
    apply stack_ext; trivial. intros k.
    destruct (String.string_dec k id) as [-> | Hne]; [congruence |].
    rewrite (Hother k Hne). simpl. apply stack_find_assign_ne. congruence.
  - destruct (remove_consistent this id st o Ho Hwf Hc)
      as (st2 & s2 & Hrm & Hrep & Hnone2 & Hother & Hwf2 & _).
    rewrite Hnone in Hrm. rewrite Hrm. f_equal. f_equal.
    apply (Hback o st s2 st2); trivial.
    + symmetry. now apply insert_id.
    + apply stack_ext; trivial. intros k.
      destruct (String.string_dec k id) as [-> | Hne]; [congruence |].
      now apply Hother.
Qed.

(** X10. On a map whose keys are the identities of its services,
    [invalid(name)] resets the cached result of the node of [name] and
    returns whether there was one; the keys, the services and the results
    of the other nodes stay. *)
Theorem invalid_by_identity this name st o :
  heap st !! this = Some o -> stack_wf (mgr_ o) ->
  stack_consistent type_name st (mgr_ o) ->
  exists st' s',
    invalid_name type_name this name st
      = Returned (match stack_find name (mgr_ o) with Some _ => true | None => false end,
                  st') /\
    stack_at this st' = Returned s' /\
    keys s' = keys (mgr_ o) /\
    stack_find name s' = reset <$> stack_find name (mgr_ o) /\
    (forall k, k <> name -> stack_find k s' = stack_find k (mgr_ o)) /\
    (forall a, a <> this -> heap st' !! a = heap st !! a).
Proof.
  intros Ho Hwf Hc.
  set (g := fun n : string * ExecState => String.eqb (fst n) name).
  set (s' := map (fun n => (fst n, if g n then reset (snd n) else snd n)) (mgr_ o)).
  destruct (set_stack_replaced this o s' st Ho) as (st' & Hset & (Hheap & _)).
  exists st', s'. split.
  { unfold invalid_name, stack_at, obj_at. rewrite Ho. cbn [mbind outcome_bind].
    rewrite (invalid_if_spec _ g).
    - cbn [mbind outcome_bind]. fold s'. rewrite Hset. cbn [mbind outcome_bind].
      rewrite (List.filter_ext g (fun n => String.eqb name (fst n)))
        by (intros n; apply String.eqb_sym).
      rewrite (count_key _ _ Hwf). now destruct (stack_find name (mgr_ o)).
    - intros k e Hin. now rewrite (Hc k e Hin). }
  split; [apply stack_at_obj; eexists; split;
          [rewrite Hheap; apply lookup_insert_eq | reflexivity] |].
  split; [unfold s', keys; rewrite map_map; reflexivity |].
  split.
  { unfold s'.
    rewrite (stack_find_map_values (fun n => if g n then reset (snd n) else snd n)).
    unfold g. simpl. now rewrite String.eqb_refl. }
  split.
  { intros k Hk. unfold s'.
    rewrite (stack_find_map_values (fun n => if g n then reset (snd n) else snd n)).
    unfold g. simpl. destruct (String.eqb_spec k name); [contradiction |].
    now destruct (stack_find k (mgr_ o)). }
  intros a Ha. rewrite Hheap. apply lookup_insert_ne. congruence.
Qed.

(** X11. [require] of a registered name does not add the service: the
    pointer has been moved into the new [ExecState] when [sev->identity()]
    is evaluated, and the call stops on the null pointer. Creating the
    service and handing it to [add] does what [require] is after: the new
    object is linked under the identity of its type. *)
Theorem require_registered_null_deref this name ctor st o :
  registry st !! name = Some ctor -> heap st !! this = Some o ->
  require type_name this name st = Crashed NullDeref /\
  exists st',
    add type_name this (Some (fst (make_shared ctor st))) (snd (make_shared ctor st))
      = Returned st' /\
    stack_at this st' =
      Returned (stack_assign (type_name ctor)
                  {| result := RunResult_default;
                     sev := Some (fst (make_shared ctor st)) |} (mgr_ o)) /\
    heap st' !! fst (make_shared ctor st) = Some {| cls := ctor; mgr_ := [] |}.
Proof.
  intros Hreg Ho.
  split; [unfold require; rewrite Hreg; reflexivity |].
  unfold make_shared. simpl.
  set (p := fresh (dom (heap st))).
  assert (p <> this) as Hne.
  { intros E. pose proof (is_fresh (dom (heap st))) as Hf. fold p in Hf.
    apply Hf. apply elem_of_dom. rewrite E, Ho. now eexists. }
  unfold add, identity, stack_at, obj_at. simpl.
  rewrite lookup_insert_eq. cbn [mbind outcome_bind cls].
  rewrite lookup_insert_ne by exact Hne. rewrite Ho. cbn [mbind outcome_bind].
  unfold set_stack, obj_at. simpl. rewrite lookup_insert_ne by exact Hne.
  rewrite Ho. cbn [mbind outcome_bind]. eexists. split; [reflexivity |].
  split.
  - apply stack_at_obj. eexists. split; [apply lookup_insert_eq | reflexivity].
  - simpl. rewrite lookup_insert_ne by congruence. apply lookup_insert_eq.
Qed.

End ManagerExtras.

(** ** More on the lifecycle template *)

Section LifecycleExtras.

Variables (Bot Event Env : Type).
Variable type_name : Impl -> string.
Variable hooks : nat -> Hooks Bot Event Env.
Implicit Types (st : Store Env) (w : World Env) (bot : Bot) (event : Event).

(** A traversal whose visits leave the heap alone visits the nodes of the
    map as it was, in order. *)
Lemma foreach_constant_heap
    (visit : string -> ExecState -> World Env -> outcome (World Env))
    (calls : ExecState -> list Call) this (h0 : gmap addr Object) o s :
  h0 !! this = Some o -> mgr_ o = s -> stack_wf s ->
  (forall k e w, In (k, e) s -> heap (store w) = h0 ->
     exists w', visit k e w = Returned w' /\ heap (store w') = h0 /\
                trace w' = trace w ++ calls e) ->
  forall n w, (List.length s < n)%nat -> heap (store w) = h0 ->
    exists w', foreach n (fun w => stack_at this (store w)) visit None w = Returned w' /\
               heap (store w') = h0 /\
               trace w' = trace w ++ flat_map (fun n => calls (snd n)) s.
Proof.
  intros Ho Hs Hwf Hvisit n w Hn Hw.
  assert (forall w0, heap (store w0) = h0 -> stack_at this (store w0) = Returned s) as Hstack.
  { intros w0 H0. apply stack_at_obj. exists o. split; [now rewrite H0 | exact Hs]. }
  rewrite (foreach_walk _ _ (fun w => heap (store w) = h0) (keys s)); trivial.
  - assert (forall rest w0, (forall x, In x rest -> In x s) -> heap (store w0) = h0 ->
              exists w', walk (fun w => stack_at this (store w)) visit (keys rest) w0
                         = Returned w' /\ heap (store w') = h0 /\
                         trace w' = trace w0 ++ flat_map (fun n => calls (snd n)) rest)
      as Hwalk.
    { induction rest as [| [k e] rest IH]; intros w0 Hin H0.
      - exists w0. simpl. rewrite app_nil_r. now repeat split.
      - assert (In (k, e) s) as Hke by (apply Hin; now left).
        destruct (Hvisit k e w0 Hke H0) as (w1 & Hv & H1 & Ht1).
        destruct (IH w1 (fun x Hx => Hin x (or_intror Hx)) H1) as (w2 & Hw2 & H2 & Ht2).
        exists w2. split; [| split; [exact H2 |]].
        + cbn [keys map walk fst]. cbv beta. rewrite (Hstack w0 H0).
          cbn [mbind outcome_bind]. rewrite (stack_In_find _ _ _ Hwf Hke).
          rewrite Hv. cbn [mbind outcome_bind]. exact Hw2.
        + rewrite Ht2, Ht1. simpl. now rewrite <- app_assoc. }
    apply Hwalk; trivial.
  - intros w0 H0. exists s. split; [now apply Hstack | reflexivity].
  - intros w0 s0 k e w' H0 Hs0 Hfind Hv.
    rewrite (Hstack w0 H0) in Hs0. injection Hs0 as <-.
    apply stack_find_In in Hfind.
    destruct (Hvisit k e w0 Hfind H0) as (w1 & Hv1 & H1 & _). congruence.
  - unfold keys. rewrite length_map. exact Hn.
Qed.

(** A service without children whose [unload] is plain: [uninstall] is the
    call and the [unload] hook. *)
Lemma uninstall_leaf fuel bot p w op :
  heap (store w) !! p = Some op -> mgr_ op = [] ->
  unloads_plainly type_name hooks (cls op) -> (2 <= fuel)%nat ->
  exists w', uninstall type_name hooks fuel bot p w = Returned w' /\
             heap (store w') = heap (store w) /\
             trace w' = trace w ++ [CallUninstall p; HookUnload p].
Proof.
  intros Hop Hleaf Hplain Hfuel. destruct fuel as [| [| f]]; try lia.
  assert (exists w', Impl_unload type_name hooks (cls op) bot p (log (CallUninstall p) w)
                     = Returned w' /\ heap (store w') = heap (store w) /\
                     trace w' = trace w ++ [CallUninstall p; HookUnload p])
    as (w' & Hl & Hh & Ht).
  { unfold Impl_unload. destruct (cls op) as [| n].
    - eexists. split; [reflexivity |]. split; [reflexivity |].
      simpl. now rewrite <- app_assoc.
    - destruct (Hplain p bot (log (HookUnload p) (log (CallUninstall p) w)))
        as (w' & Hp & Hh).
      exists w'. rewrite Hp. split; [reflexivity |]. split; [exact Hh |].
      apply perform_no_call in Hp as [Ht _]. rewrite Ht. simpl.
      now rewrite <- app_assoc. }
  exists w'. split; [| split; assumption].
  cbn [uninstall]. unfold obj_at. rewrite Hop. cbn [mbind outcome_bind foreach].
  unfold stack_at, obj_at. simpl. rewrite Hop. cbn [mbind outcome_bind].
  rewrite Hleaf. simpl. exact Hl.
Qed.

(** A service without children whose [usuage] is empty and whose [load] is
    plain: [install] is the call and the two hooks. *)
Lemma install_leaf fuel bot p w op :
  heap (store w) !! p = Some op -> mgr_ op = [] -> usuage_is_empty hooks (cls op) ->
  loads_plainly type_name hooks (cls op) -> (2 <= fuel)%nat ->
  exists w', install type_name hooks fuel bot p w = Returned w' /\
             heap (store w') = heap (store w) /\
             trace w' = trace w ++ [CallInstall p; HookUsuage p; HookLoad p].
Proof.
  intros Hop Hleaf Hempty Hplain Hfuel. destruct fuel as [| [| f]]; try lia.
  set (w1 := log (HookUsuage p) (log (CallInstall p) w)).
  assert (Impl_usuage hooks (cls op) p (log (CallInstall p) w) = Returned w1) as Hu.
  { unfold Impl_usuage. destruct (cls op) as [| n]; [reflexivity |].
    simpl in Hempty. rewrite Hempty. reflexivity. }
  assert (exists w', Impl_load type_name hooks (cls op) bot p w1 = Returned w' /\
                     heap (store w') = heap (store w) /\
                     trace w' = trace w ++ [CallInstall p; HookUsuage p; HookLoad p])
    as (w' & Hl & Hh & Ht).
  { unfold Impl_load. destruct (cls op) as [| n].
    - eexists. split; [reflexivity |]. split; [reflexivity |].
      unfold w1. simpl. now rewrite <- !app_assoc.
    - destruct (Hplain p bot (log (HookLoad p) w1)) as (w' & Hp & Hh).
      exists w'. rewrite Hp. split; [reflexivity |]. split; [exact Hh |].
      apply perform_no_call in Hp as [Ht _]. rewrite Ht. unfold w1. simpl.
      now rewrite <- !app_assoc. }
  exists w'. split; [| split; assumption].
  cbn [install]. unfold obj_at. rewrite Hop. cbn [mbind outcome_bind].
  rewrite Hu. cbn [mbind outcome_bind foreach].
  unfold stack_at, obj_at. simpl. rewrite Hop. cbn [mbind outcome_bind].
  rewrite Hleaf. simpl. exact Hl.
Qed.

(** X12. [uninstall] of a service over any number of children that have no
    children of their own and whose [unload] is plain: every child is
    uninstalled once, by ascending key, each with its [unload] hook, and
    the service's own [unload] hook, whatever its body, runs last, on the
    world that the children left. *)
Theorem uninstall_children_in_order fuel bot this w o :
  heap (store w) !! this = Some o -> stack_wf (mgr_ o) ->
  (forall k e, In (k, e) (mgr_ o) ->
     exists p op, sev e = Some p /\ heap (store w) !! p = Some op /\
                  mgr_ op = [] /\ unloads_plainly type_name hooks (cls op)) ->
  (List.length (mgr_ o) + 3 <= fuel)%nat ->
  exists w1,
    heap (store w1) = heap (store w) /\
    trace w1 = trace w ++ [CallUninstall this] ++ uninstall_calls (mgr_ o) /\
    uninstall type_name hooks fuel bot this w
      = Impl_unload type_name hooks (cls o) bot this w1 /\
    forall w', uninstall type_name hooks fuel bot this w = Returned w' ->
      trace w' = trace w ++ [CallUninstall this] ++ uninstall_calls (mgr_ o)
                   ++ [HookUnload this].
Proof.
  intros Ho Hwf Hleaves Hfuel. destruct fuel as [| n]; [lia |].
  destruct (foreach_constant_heap
              (fun _ state w => match sev state with
                                | None => Crashed NullDeref
                                | Some child => uninstall type_name hooks n bot child w
                                end)
              (fun e => match sev e with
                        | Some p => [CallUninstall p; HookUnload p]
                        | None => []
                        end)
              this (heap (store w)) o (mgr_ o) Ho eq_refl Hwf)
    with (n := n) (w := log (CallUninstall this) w) as (w1 & Hfe & Hh1 & Ht1);
    [| lia | reflexivity |].
  { intros k e w0 Hin H0.
    destruct (Hleaves k e Hin) as (p & op & -> & Hop & Hleaf & Hplain).
    rewrite <- H0 in Hop.
    destruct (uninstall_leaf n bot p w0 op Hop Hleaf Hplain) as (w' & Hw' & Hh & Ht);
      [lia |].
    exists w'. split; [exact Hw' |]. split; [congruence | exact Ht]. }
  assert (trace w1 = trace w ++ [CallUninstall this] ++ uninstall_calls (mgr_ o)) as Ht.
  { rewrite Ht1. unfold uninstall_calls. simpl. now rewrite <- app_assoc. }
  assert (uninstall type_name hooks (S n) bot this w
          = Impl_unload type_name hooks (cls o) bot this w1) as Heq.
  { cbn [uninstall]. unfold obj_at. rewrite Ho. cbn [mbind outcome_bind].
    rewrite Hfe. reflexivity. }
  exists w1. split; [exact Hh1 |]. split; [exact Ht |]. split; [exact Heq |].
  intros w' H. rewrite Heq in H. apply Impl_unload_inv in H as [H _].
  rewrite H, Ht. now rewrite <- !app_assoc.
Qed.

(** X13. [install] of a service whose [usuage] left it with any number of
    children that have no children of their own, an empty [usuage] and a
    plain [load]: after the service's [usuage] hook every child is
    installed once, by ascending key, each with its two hooks, and the
    service's own [load] hook, whatever its body, runs last, on the world
    that the children left. *)
Theorem install_children_in_order fuel bot this w o w1 s :
  heap (store w) !! this = Some o ->
  Impl_usuage hooks (cls o) this (log (CallInstall this) w) = Returned w1 ->
  stack_at this (store w1) = Returned s -> stack_wf s ->
  (forall k e, In (k, e) s ->
     exists p op, sev e = Some p /\ heap (store w1) !! p = Some op /\
                  mgr_ op = [] /\ usuage_is_empty hooks (cls op) /\
                  loads_plainly type_name hooks (cls op)) ->
  (List.length s + 3 <= fuel)%nat ->
  exists w2,
    heap (store w2) = heap (store w1) /\
    trace w2 = trace w ++ [CallInstall this; HookUsuage this] ++ install_calls s /\
    install type_name hooks fuel bot this w
      = Impl_load type_name hooks (cls o) bot this w2 /\
    forall w', install type_name hooks fuel bot this w = Returned w' ->
      trace w' = trace w ++ [CallInstall this; HookUsuage this] ++ install_calls s
                   ++ [HookLoad this].
Proof.
  intros Ho Hu Hs Hwf Hleaves Hfuel. destruct fuel as [| n]; [lia |].
  apply stack_at_obj in Hs as (o1 & Ho1 & Hs).
  destruct (foreach_constant_heap
              (fun _ state w => match sev state with
                                | None => Crashed NullDeref
                                | Some child => install type_name hooks n bot child w
                                end)
              (fun e => match sev e with
                        | Some p => [CallInstall p; HookUsuage p; HookLoad p]
                        | None => []
                        end)
              this (heap (store w1)) o1 s Ho1 Hs Hwf)
    with (n := n) (w := w1) as (w2 & Hfe & Hh2 & Ht2); [| lia | reflexivity |].
  { intros k e w0 Hin H0.
    destruct (Hleaves k e Hin) as (p & op & -> & Hop & Hleaf & Hempty & Hplain).
    rewrite <- H0 in Hop.
    destruct (install_leaf n bot p w0 op Hop Hleaf Hempty Hplain)
      as (w' & Hw' & Hh & Ht); [lia |].
    exists w'. split; [exact Hw' |]. split; [congruence | exact Ht]. }
  assert (trace w2 = trace w ++ [CallInstall this; HookUsuage this] ++ install_calls s)
    as Ht.
  { pose proof (Impl_usuage_trace _ _ _ hooks _ _ _ _ Hu) as Hut. simpl in Hut.
    rewrite Ht2, Hut. unfold install_calls. now rewrite <- !app_assoc. }
  assert (install type_name hooks (S n) bot this w
          = Impl_load type_name hooks (cls o) bot this w2) as Heq.
  { cbn [install]. unfold obj_at. rewrite Ho. cbn [mbind outcome_bind].
    rewrite Hu. cbn [mbind outcome_bind]. rewrite Hfe. reflexivity. }
  exists w2. split; [exact Hh2 |]. split; [exact Ht |]. split; [exact Heq |].
  intros w' H. rewrite Heq in H. apply Impl_load_inv in H as [H _].
  rewrite H, Ht. now rewrite <- !app_assoc.
Qed.

(** The dispatchers are as they were after an [uninstall]: their [unload]
    is empty, and the hooks of the other types work on maps of their own. *)
Lemma uninstall_dispatchers fuel : forall bot this w w',
  uninstall type_name hooks fuel bot this w = Returned w' ->
  forall a o, heap (store w) !! a = Some o -> cls o = ServiceSecheduler ->
    heap (store w') !! a = Some o.
Proof.
  induction fuel as [| fuel IH]; intros bot this w w' H; simpl in H; [discriminate |].
  apply bind_returned in H as (o0 & Ho0 & H).
  apply bind_returned in H as (w1 & Hfe & H).
  unfold obj_at in Ho0.
  destruct (heap (store w) !! this) as [o |] eqn:Ho; [| discriminate].
  injection Ho0 as <-.
  assert (keeps type_name (store w) (store w1)) as K.
  { refine (foreach_rel _ _ (fun a b => keeps type_name (store a) (store b))
              _ _ _ _ _ _ _ Hfe).
    - intros a. apply keeps_refl.
    - intros a b c. apply keeps_trans.
    - intros k e w0 w0' Hv. cbv beta in Hv.
      destruct (sev e) as [child |]; [| discriminate].
      eapply uninstall_keeps, Hv. }
  assert (forall a o, heap (store w) !! a = Some o -> cls o = ServiceSecheduler ->
            heap (store w1) !! a = Some o) as H1.
  { refine (foreach_rel _ _
              (fun w w' => forall a o, heap (store w) !! a = Some o ->
                                       cls o = ServiceSecheduler ->
                                       heap (store w') !! a = Some o)
              _ _ _ _ _ _ _ Hfe).
    - trivial.
    - intros wa wb wc Hab Hbc a o1 Ha Hc. apply Hbc; [apply Hab |]; assumption.
    - intros k e w0 w0' Hv. cbv beta in Hv.
      destruct (sev e) as [child |]; [| discriminate].
      eapply IH, Hv. }
  intros a oa Ha Hd. specialize (H1 a oa Ha Hd).
  destruct (K this o Ho) as (o1 & Ho1 & Hcls1 & _).
  unfold Impl_unload in H. destruct (cls o) as [| n] eqn:Hcls.
  - injection H as <-. exact H1.
  - apply bind_returned in H as ([u w2] & Hp & [= <-]).
    apply perform_no_call in Hp as [_ Hframe].
    apply Hframe; [| exact H1]. intros ->. simpl in Ho1.
    rewrite Ho1 in H1. injection H1 as ->. congruence.
Qed.

(** Registration is never taken back: a registered name keeps its type. *)
Lemma make_available_kept c (reg : gmap string Impl) name c0 :
  reg !! name = Some c0 -> make_available type_name c reg !! name = Some c0.
Proof.
  intros H. unfold make_available.
  destruct (reg !! type_name c) eqn:E; [exact H |].
  rewrite lookup_insert_ne; [exact H |]. intros <-. congruence.
Qed.

Lemma perform_registry {C A} invoke this (a : Action Env C A) w x w' :
  (forall c w r w', invoke c w = Returned (r, w') ->
     forall name c0, registry (store w) !! name = Some c0 ->
                     registry (store w') !! name = Some c0) ->
  perform type_name invoke this a w = Returned (x, w') ->
  forall name c0, registry (store w) !! name = Some c0 ->
                  registry (store w') !! name = Some c0.
Proof.
  intros Hinv H.
  refine (perform_rel _ type_name invoke this
            (fun a b => forall name c0, registry (store a) !! name = Some c0 ->
                                        registry (store b) !! name = Some c0)
            _ _ _ _ _ _ _ _ _ _ _ H).
  - trivial.
  - intros w1 w2 w3 H1 H2 name c0 Hn. now apply H2, H1.
  - trivial.
  - trivial.
  - intros c w0 name c0 Hn. simpl. now apply make_available_kept.
  - intros c w0 name c0 Hn. exact Hn.
  - exact Hinv.
Qed.

Lemma uninstall_registry fuel : forall bot this w w',
  uninstall type_name hooks fuel bot this w = Returned w' ->
  forall name c0, registry (store w) !! name = Some c0 ->
                  registry (store w') !! name = Some c0.
Proof.
  induction fuel as [| fuel IH]; intros bot this w w' H; simpl in H; [discriminate |].
  apply bind_returned in H as (o & _ & H).
  apply bind_returned in H as (w1 & Hfe & H).
  assert (forall name c0, registry (store w) !! name = Some c0 ->
                          registry (store w1) !! name = Some c0) as H1.
  { refine (foreach_rel _ _
              (fun a b => forall name c0, registry (store a) !! name = Some c0 ->
                                          registry (store b) !! name = Some c0)
              _ _ _ _ _ _ _ Hfe).
    - trivial.
    - intros a b c Hab Hbc name c0 Hn. now apply Hbc, Hab.
    - intros k e w0 w0' Hv. cbv beta in Hv.
      destruct (sev e) as [child |]; [| discriminate].
      eapply IH, Hv. }
  intros name c0 Hn. apply H1 in Hn.
  unfold Impl_unload in H. destruct (cls o) as [| n].
  - injection H as <-. exact Hn.
  - apply bind_returned in H as ([u w2] & Hp & [= <-]).
    refine (perform_registry no_call this _ _ _ _ _ Hp name c0 Hn).
    intros [].
Qed.



Lemma serve_registry fuel : forall bot event this w r w',
  serve type_name hooks fuel bot event this w = Returned (r, w') ->
  forall name c0, registry (store w) !! name = Some c0 ->
                  registry (store w') !! name = Some c0.
Proof.
  induction fuel as [| fuel IH]; intros bot event this w r w' H; simpl in H;
    [discriminate |].
  apply bind_returned in H as (o & _ & H).
  apply bind_returned in H as ([r1 w1] & Hrun & H).
  apply mgr_replace_inv in H as (s & _ & _ & _ & Hset & _).
  apply set_stack_inv in Hset as (o1 & _ & Hset). rewrite Hset. cbn [registry set_heap].
  clear Hset. unfold Impl_run in Hrun. destruct (cls o) as [| n].
  - unfold ServiceSecheduler_run in Hrun.
    apply bind_returned in Hrun as (w2 & Hfe & [= <- <-]).
    refine (foreach_rel _ _
              (fun a b => forall name c0, registry (store a) !! name = Some c0 ->
                                          registry (store b) !! name = Some c0)
              _ _ _ _ _ _ _ Hfe).
    + trivial.
    + intros a b c H1 H2 name c0 Hn. now apply H2, H1.
    + intros k e w0 w0' Hv. cbv beta in Hv.
      destruct (sev e) as [child |]; [| discriminate].
      apply bind_returned in Hv as ([r2 w3] & Hs & Hset).
      pose proof (IH _ _ _ _ _ _ Hs) as Hr.
      apply set_result_inv in Hset as (s2 & e2 & _ & _ & Hset & _).
      apply set_stack_inv in Hset as (o2 & _ & Hset). rewrite Hset. exact Hr.
  - refine (perform_registry _ this _ _ _ _ _ Hrun).
    intros [[p b] ev] w0 r0 w2 Hi. simpl in Hi.
    destruct p as [child |]; [| discriminate]. eapply IH, Hi.
Qed.


(** X17. The first [serve] on a dispatcher over any number of services whose
    [run] is plain: every child is served once, by ascending key, each
    running its [run] hook, and the dispatcher itself returns the inert
    result. *)
Theorem dispatcher_fan_out_order fuel bot event this w o :
  heap (store w) !! this = Some o -> cls o = ServiceSecheduler ->
  stack_wf (mgr_ o) ->
  stack_find (type_name ServiceSecheduler) (mgr_ o) = None ->
  plain_children type_name hooks (store w) (mgr_ o) ->
  (List.length (mgr_ o) + 2 <= fuel)%nat ->
  exists w1,
    serve type_name hooks fuel bot event this w = Returned (nothing, w1) /\
    trace w1 = trace w ++ [CallServe this; HookRun this] ++ serve_calls (mgr_ o).
Proof.
  intros Ho Hcls Hwf Hself Hchildren Hfuel.
  destruct fuel as [| [| n]]; try lia.
  set (ks := keys (mgr_ o)).
  set (w0 := log (HookRun this) (log (CallServe this) w)).
  assert (List.length ks = List.length (mgr_ o)) as Hlen
    by (unfold ks, keys; apply length_map).
  assert (fan_out_ready type_name hooks this ks (store w0)) as Hready.
  { exists o. repeat split; trivial. intros k e Hf.
    destruct (Hchildren k e Hf) as (p & op & m & -> & Hop & Hm & Hpl). now exists op, m. }
  destruct (fan_out_walk_trace _ _ _ type_name hooks bot event this n ks (store w) o
              Hwf Ho Hcls Hwf (mgr_ o) w0)
    as (w2 & Hwalk & (o2 & Ho2 & Hcls2 & Hkeys2 & _) & Ht2).
  { intros [k e] Hin. split; [exact Hin |]. simpl. intros E.
    apply stack_find_None_keys in Hself; [| exact Hwf]. apply Hself.
    rewrite <- E. now apply (in_map fst) in Hin. }
  { exact Hready. }
  { apply keeps_refl. }
  assert (stack_find (type_name ServiceSecheduler) (mgr_ o2) = None) as Hself2.
  { destruct (stack_find (type_name ServiceSecheduler) (mgr_ o2)) as [e |] eqn:E;
      [| reflexivity].
    apply stack_find_In in E. apply (in_map fst) in E. simpl in E.
    fold (keys (mgr_ o2)) in E. rewrite Hkeys2 in E.
    destruct (stack_find_None_keys _ (mgr_ o) Hwf Hself E). }
  destruct (mgr_replace_returns _ this (type_name ServiceSecheduler) nothing w2 o2 Ho2)
    as (w1 & Hrep & _ & _ & _ & Ht1).
  rewrite replace_spec, Hself2 in Hrep. simpl in Hrep.
  exists w1. split.
  - cbn [serve]. unfold obj_at. rewrite Ho. cbn [mbind outcome_bind]. rewrite Hcls.
    unfold Impl_run, ServiceSecheduler_run.
    rewrite (fan_out_foreach _ _ _ type_name hooks bot event this n ks (S n));
      trivial; [| lia].
    fold w0. fold ks in Hwalk. rewrite Hwalk. cbn [mbind outcome_bind]. exact Hrep.
  - rewrite Ht1, Ht2. unfold w0, serve_calls. simpl. now rewrite <- !app_assoc.
Qed.


(** X18. A service of a concrete type that overrides no hook and has no
    children: [install] and [uninstall] return and leave the store as it
    is. *)
Theorem default_hooks_change_nothing fuel bot this w o n :
  heap (store w) !! this = Some o -> cls o = UserImpl n ->
  hooks n = ServiceImpl_hooks -> mgr_ o = [] -> (2 <= fuel)%nat ->
  (exists w1, install type_name hooks fuel bot this w = Returned w1 /\ store w1 = store w /\
              trace w1 = trace w ++ [CallInstall this; HookUsuage this; HookLoad this]) /\
  (exists w2, uninstall type_name hooks fuel bot this w = Returned w2 /\ store w2 = store w /\
              trace w2 = trace w ++ [CallUninstall this; HookUnload this]).
Proof.
  intros Ho Hcls Hdef Hleaf Hfuel. destruct fuel as [| [| f]]; try lia.
  destruct w as [[h r e] tr]. simpl in Ho.
  split.
  - cbn [install]. unfold obj_at. simpl. rewrite Ho. cbn [mbind outcome_bind].
    rewrite Hcls. unfold Impl_usuage, Impl_load. rewrite Hdef. simpl.
    unfold stack_at, obj_at. simpl. rewrite Ho. cbn [mbind outcome_bind].
    rewrite Hleaf. simpl. eexists. split; [reflexivity |]. simpl.
    split; [reflexivity |]. now rewrite <- !app_assoc.
  - cbn [uninstall]. unfold obj_at. simpl. rewrite Ho. cbn [mbind outcome_bind foreach].
    unfold stack_at, obj_at. simpl. rewrite Ho. cbn [mbind outcome_bind].
    rewrite Hleaf. simpl. rewrite Hcls. unfold Impl_unload. rewrite Hdef. simpl.
    eexists. split; [reflexivity |]. simpl.
    split; [reflexivity |]. now rewrite <- !app_assoc.
Qed.

(** X19. A service of a concrete type that keeps the default [run]: the
    first [serve] returns what its map had cached under its identity (the
    inert result when there is no such node) and caches the inert result
    there; every later [serve] returns the inert result and leaves the
    store as it is. *)
Theorem default_run_serves_inert fuel bot event this w o n :
  heap (store w) !! this = Some o -> cls o = UserImpl n ->
  hooks n = ServiceImpl_hooks -> (1 <= fuel)%nat ->
  exists w1,
    serve type_name hooks fuel bot event this w
      = Returned (match stack_find (type_name (cls o)) (mgr_ o) with
                  | Some e => result e
                  | None => RunResult_default
                  end, w1) /\
    env (store w1) = env (store w) /\
    (exists s1 e1, stack_at this (store w1) = Returned s1 /\
                   stack_find (type_name (cls o)) s1 = Some e1 /\ result e1 = nothing) /\
    forall bot' event', exists w2,
      serve type_name hooks fuel bot' event' this w1 = Returned (nothing, w2) /\
      store w2 = store w1.
Proof.
  intros Ho Hcls Hdef Hfuel. destruct fuel as [| f]; [lia |].
  set (id := type_name (cls o)).
  assert (forall bot event w0 o0,
            heap (store w0) !! this = Some o0 -> cls o0 = cls o ->
            exists w1,
              serve type_name hooks (S f) bot event this w0
                = Returned (fst (replace id RunResult_default (mgr_ o0)), w1) /\
              heap (store w1)
                = <[this := {| cls := cls o;
                               mgr_ := snd (replace id RunResult_default (mgr_ o0)) |}]>
                    (heap (store w0)) /\
              env (store w1) = env (store w0) /\
              registry (store w1) = registry (store w0)) as Hstep.
  { intros b ev w0 o0 Ho0 Hcls0.
    cbn [serve]. unfold obj_at. rewrite Ho0. cbn [mbind outcome_bind].
    rewrite Hcls0, Hcls. unfold Impl_run. rewrite Hdef. cbn [run ServiceImpl_hooks perform].
    cbn [mbind outcome_bind]. rewrite <- Hcls. fold id.
    match goal with |- context [mgr_replace this id RunResult_default ?w'] =>
      destruct (mgr_replace_returns _ this id RunResult_default w' o0 Ho0)
        as (w1 & Hrep & Hheap & Henv & Hreg & _)
    end.
    exists w1. split; [exact Hrep |]. rewrite <- Hcls0.
    split; [exact Hheap |]. split; [exact Henv | exact Hreg]. }
  destruct (Hstep bot event w o Ho eq_refl) as (w1 & Hserve & Hheap & Henv & Hreg).
  rewrite replace_spec in Hserve, Hheap. cbn [fst snd] in Hserve, Hheap.
  set (e1 := {| result := RunResult_default;
                sev := match stack_find id (mgr_ o) with
                       | Some st => sev st
                       | None => None
                       end |}) in *.
  set (s1 := stack_assign id e1 (mgr_ o)) in *.
  assert (heap (store w1) !! this = Some {| cls := cls o; mgr_ := s1 |}) as Ho1
    by (rewrite Hheap; apply lookup_insert_eq).
  exists w1. split; [exact Hserve |]. split; [exact Henv |]. split.
  { exists s1, e1. split; [apply stack_at_obj; eexists; split; [exact Ho1 | reflexivity] |].
    split; [apply stack_find_assign_eq | reflexivity]. }
  intros bot' event'.
  destruct (Hstep bot' event' w1 _ Ho1 eq_refl) as (w2 & Hserve2 & Hheap2 & Henv2 & Hreg2).
  rewrite replace_spec in Hserve2, Hheap2. cbn [fst snd mgr_] in Hserve2, Hheap2.
  unfold s1 in Hserve2, Hheap2. rewrite stack_find_assign_eq in Hserve2, Hheap2.
  rewrite stack_assign_assign in Hheap2. cbn [result sev e1] in Hserve2, Hheap2.
  exists w2. split; [exact Hserve2 |].
  apply (store_eq _); [| exact Hreg2 | exact Henv2].
  rewrite Hheap2. apply insert_id. exact Ho1.
Qed.

End LifecycleExtras.

(** ** The properties on the examples *)

Lemma xy_stack_consistent :
  stack_consistent Demo.type_name Demo.dispatcher_store Examples.xy_stack.
Proof.
  intros k e [[= <- <-] | [[= <- <-] | []]]; vm_compute; reflexivity.
Qed.

Lemma dispatcher_store_object :
  heap Demo.dispatcher_store !! 1%positive = Some Examples.dispatcher_object.
Proof. vm_compute. reflexivity. Qed.

Lemma xy_stack_wf : stack_wf Examples.xy_stack.
Proof. repeat constructor. Qed.

Lemma pq_stack_wf : stack_wf Examples.pq_stack.
Proof. repeat constructor. Qed.

Lemma host_installed_object :
  heap (store Demo.host_installed) !! 1%positive = Some Examples.host_object.
Proof. vm_compute. reflexivity. Qed.

Lemma replace_existing_entry_witness :
  stack_find "Y" Examples.xy_cached
    = Some {| result := Demo.status 1; sev := Some 3%positive |} /\
  fst (replace "Y" nothing Examples.xy_cached) = Demo.status 1 /\
  stack_find "Y" (snd (replace "Y" nothing Examples.xy_cached))
    = Some {| result := nothing; sev := Some 3%positive |} /\
  keys (snd (replace "Y" nothing Examples.xy_cached)) = ["X"; "Y"].
Proof.
  split; [reflexivity |].
  destruct (replace_existing_entry "Y" nothing
              {| result := Demo.status 1; sev := Some 3%positive |}
              Examples.xy_cached eq_refl) as (H1 & H2 & H3 & _).
  split; [exact H1 |]. split; [exact H2 | exact H3].
Defined.

Lemma invalid_if_ret_twice_witness :
  Examples.is_failure NoSignaficantRet = false /\
  exists s',
    invalid_if_ret (fun r => Returned (Examples.is_failure r)) Examples.xy_cached
      = Returned (1%nat, s') /\
    invalid_if_ret (fun r => Returned (Examples.is_failure r)) s' = Returned (0%nat, s').
Proof.
  split; [reflexivity |].
  destruct (invalid_if_ret_twice Examples.is_failure Examples.xy_cached eq_refl)
    as (s' & H1 & _ & H2).
  exists s'. split; [exact H1 | exact H2].
Defined.

Lemma add_keeps_keys_as_identities_witness :
  heap Demo.st0 !! 1%positive = Some (Demo.object ServiceSecheduler) /\
  identity Demo.type_name (Some 2%positive) Demo.st0 = Returned "X" /\
  add Demo.type_name 1%positive None Demo.st0 = Crashed NullDeref /\
  exists st' s',
    add Demo.type_name 1%positive (Some 2%positive) Demo.st0 = Returned st' /\
    stack_at 1%positive st' = Returned s' /\
    stack_find "X" s' = Some (Demo.entry 2%positive) /\
    stack_wf s' /\ stack_consistent Demo.type_name st' s'.
Proof.
  assert (heap Demo.st0 !! 1%positive = Some (Demo.object ServiceSecheduler)) as H1
    by (vm_compute; reflexivity).
  assert (identity Demo.type_name (Some 2%positive) Demo.st0 = Returned "X") as H2
    by (vm_compute; reflexivity).
  split; [exact H1 |]. split; [exact H2 |].
  destruct (add_keeps_keys_as_identities unit Demo.type_name 1%positive
              (Some 2%positive) Demo.st0 _ "X" H1)
    as (Hnull & st' & s' & Ha & Hs & Hf & _ & Hwf & Hc & _).
  - constructor.
  - intros k e [].
  - exact H2.
  - split; [exact Hnull |]. exists st', s'. repeat (split; [assumption |]). exact Hc.
Defined.

Lemma remove_by_identity_witness :
  exists st' s',
    remove Demo.type_name 1%positive "Y" Demo.dispatcher_store = Returned (true, st') /\
    stack_at 1%positive st' = Returned s' /\
    stack_find "Y" s' = None /\
    stack_find "X" s' = Some (Demo.entry 2%positive) /\
    stack_wf s' /\ stack_consistent Demo.type_name st' s'.
Proof.
  destruct (remove_by_identity unit Demo.type_name 1%positive "Y"
              Demo.dispatcher_store Examples.dispatcher_object
              dispatcher_store_object xy_stack_wf xy_stack_consistent)
    as (st' & s' & Hr & Hs & Hn & Ho & Hwf & Hc & _).
  exists st', s'. split; [exact Hr |]. split; [exact Hs |]. split; [exact Hn |].
  split; [rewrite Ho by discriminate; reflexivity |]. split; [exact Hwf | exact Hc].
Defined.

Lemma add_remove_round_trip_witness :
  stack_find "X" (mgr_ (Demo.object ServiceSecheduler)) = None /\
  exists st1,
    add Demo.type_name 1%positive (Some 2%positive) Demo.st0 = Returned st1 /\
    remove Demo.type_name 1%positive "X" st1 = Returned (true, Demo.st0) /\
    remove Demo.type_name 1%positive "X" Demo.st0 = Returned (false, Demo.st0).
Proof.
  split; [reflexivity |].
  apply (add_remove_round_trip unit Demo.type_name 1%positive (Some 2%positive)
           Demo.st0 (Demo.object ServiceSecheduler) "X").
  - vm_compute. reflexivity.
  - constructor.
  - intros k e [].
  - vm_compute. reflexivity.
  - reflexivity.
Defined.

Lemma invalid_by_identity_witness :
  exists st' s',
    invalid_name Demo.type_name 1%positive "X" Demo.dispatcher_store
      = Returned (true, st') /\
    stack_at 1%positive st' = Returned s' /\
    keys s' = ["X"; "Y"] /\
    stack_find "X" s' = Some (reset (Demo.entry 2%positive)) /\
    stack_find "Y" s' = Some (Demo.entry 3%positive).
Proof.
  destruct (invalid_by_identity unit Demo.type_name 1%positive "X"
              Demo.dispatcher_store Examples.dispatcher_object
              dispatcher_store_object xy_stack_wf xy_stack_consistent)
    as (st' & s' & Hr & Hs & Hk & Hx & Ho & _).
  exists st', s'. split; [exact Hr |]. split; [exact Hs |]. split; [exact Hk |].
  split; [exact Hx |]. rewrite Ho by discriminate. reflexivity.
Defined.

Lemma require_registered_null_deref_witness :
  registry Demo.st0 !! "X" = Some Demo.X /\
  require Demo.type_name 1%positive "X" Demo.st0 = Crashed NullDeref /\
  exists st',
    add Demo.type_name 1%positive (Some (fst (make_shared Demo.X Demo.st0)))
        (snd (make_shared Demo.X Demo.st0)) = Returned st' /\
    heap st' !! fst (make_shared Demo.X Demo.st0) = Some (Demo.object Demo.X).
Proof.
  assert (registry Demo.st0 !! "X" = Some Demo.X) as H1 by (vm_compute; reflexivity).
  split; [exact H1 |].
  destruct (require_registered_null_deref unit Demo.type_name 1%positive "X" Demo.X
              Demo.st0 (Demo.object ServiceSecheduler) H1)
    as (Hreq & st' & Ha & _ & Hh).
  - vm_compute. reflexivity.
  - split; [exact Hreq |]. exists st'. split; [exact Ha | exact Hh].
Defined.

Lemma host_P_object :
  heap (store Demo.host_installed) !! 3%positive = Some (Demo.object Demo.P).
Proof. vm_compute. reflexivity. Qed.

Lemma pq_children_unload_plainly :
  forall k e, In (k, e) Examples.pq_stack ->
    exists p op, sev e = Some p /\
      heap (store Demo.host_installed) !! p = Some op /\
      mgr_ op = [] /\ unloads_plainly Demo.type_name Demo.hooks (cls op).
Proof.
  intros k e [[= <- <-] | [[= <- <-] | []]].
  - exists 3%positive, (Demo.object Demo.P).
    split; [reflexivity |]. split; [vm_compute; reflexivity |].
    split; [reflexivity |]. intros this bot w. now exists w.
  - exists 2%positive, (Demo.object Demo.Q).
    split; [reflexivity |]. split; [vm_compute; reflexivity |].
    split; [reflexivity |]. intros this bot w. now exists w.
Qed.

Lemma pq_children_load_plainly :
  forall k e, In (k, e) Examples.pq_stack ->
    exists p op, sev e = Some p /\
      heap (store Demo.host_declared) !! p = Some op /\
      mgr_ op = [] /\ usuage_is_empty Demo.hooks (cls op) /\
      loads_plainly Demo.type_name Demo.hooks (cls op).
Proof.
  intros k e [[= <- <-] | [[= <- <-] | []]].
  - exists 3%positive, (Demo.object Demo.P).
    split; [reflexivity |]. split; [vm_compute; reflexivity |].
    split; [reflexivity |]. split; [intros a st; reflexivity |].
    intros this bot w. now exists w.
  - exists 2%positive, (Demo.object Demo.Q).
    split; [reflexivity |]. split; [vm_compute; reflexivity |].
    split; [reflexivity |]. split; [intros a st; reflexivity |].
    intros this bot w. now exists w.
Qed.

Lemma uninstall_children_in_order_witness :
  heap (store Demo.host_installed) !! 1%positive = Some Examples.host_object /\
  exists w1,
    trace w1 = [CallUninstall 1%positive;
                CallUninstall 3%positive; HookUnload 3%positive;
                CallUninstall 2%positive; HookUnload 2%positive] /\
    uninstall Demo.type_name Demo.hooks 5 tt 1%positive Demo.host_installed
      = Impl_unload Demo.type_name Demo.hooks Demo.Host tt 1%positive w1 /\
    exists w',
      uninstall Demo.type_name Demo.hooks 5 tt 1%positive Demo.host_installed
        = Returned w' /\
      trace w' = [CallUninstall 1%positive;
                  CallUninstall 3%positive; HookUnload 3%positive;
                  CallUninstall 2%positive; HookUnload 2%positive;
                  HookUnload 1%positive] /\
      stack_at 1%positive (store w') = Returned [].
Proof.
  split; [exact host_installed_object |].
  destruct (uninstall_children_in_order unit unit unit Demo.type_name Demo.hooks 5 tt
              1%positive Demo.host_installed Examples.host_object host_installed_object
              pq_stack_wf pq_children_unload_plainly)
    as (w1 & _ & Ht1 & Heq & Hlast); [simpl; lia |].
  exists w1. split; [exact Ht1 |]. split; [exact Heq |].
  assert (exists w', uninstall Demo.type_name Demo.hooks 5 tt 1%positive
                       Demo.host_installed = Returned w') as [w' H']
    by (eexists; vm_compute; reflexivity).
  exists w'. split; [exact H' |]. split; [exact (Hlast w' H') |].
  vm_compute in H'. injection H' as <-. vm_compute. reflexivity.
Defined.

Lemma install_children_in_order_witness :
  Impl_usuage Demo.hooks Demo.Host 1%positive
    (log (CallInstall 1%positive) Demo.host_world) = Returned Demo.host_declared /\
  stack_at 1%positive (store Demo.host_declared) = Returned Examples.pq_stack /\
  exists w2,
    trace w2 = [CallInstall 1%positive; HookUsuage 1%positive;
                CallInstall 3%positive; HookUsuage 3%positive; HookLoad 3%positive;
                CallInstall 2%positive; HookUsuage 2%positive; HookLoad 2%positive] /\
    install Demo.type_name Demo.hooks 5 tt 1%positive Demo.host_world
      = Impl_load Demo.type_name Demo.hooks Demo.Host tt 1%positive w2 /\
    exists w',
      install Demo.type_name Demo.hooks 5 tt 1%positive Demo.host_world = Returned w' /\
      trace w' = [CallInstall 1%positive; HookUsuage 1%positive;
                  CallInstall 3%positive; HookUsuage 3%positive; HookLoad 3%positive;
                  CallInstall 2%positive; HookUsuage 2%positive; HookLoad 2%positive;
                  HookLoad 1%positive].
Proof.
  assert (Impl_usuage Demo.hooks Demo.Host 1%positive
            (log (CallInstall 1%positive) Demo.host_world) = Returned Demo.host_declared)
    as H1 by (vm_compute; reflexivity).
  assert (stack_at 1%positive (store Demo.host_declared) = Returned Examples.pq_stack)
    as H2 by (vm_compute; reflexivity).
  split; [exact H1 |]. split; [exact H2 |].
  destruct (install_children_in_order unit unit unit Demo.type_name Demo.hooks 5 tt
              1%positive Demo.host_world (Demo.object Demo.Host) Demo.host_declared
              Examples.pq_stack)
    as (w2 & _ & Ht2 & Heq & Hlast).
  - vm_compute. reflexivity.
  - exact H1.
  - exact H2.
  - exact pq_stack_wf.
  - exact pq_children_load_plainly.
  - simpl. lia.
  - exists w2. split; [exact Ht2 |]. split; [exact Heq |].
    assert (exists w', install Demo.type_name Demo.hooks 5 tt 1%positive Demo.host_world
                       = Returned w') as [w' H']
      by (eexists; vm_compute; reflexivity).
    exists w'. split; [exact H' | exact (Hlast w' H')].
Defined.


Lemma host_installed_heap :
  heap (store Demo.host_installed)
  = <[1%positive := Examples.host_object]>
      (<[2%positive := Demo.object Demo.Q]> (<[3%positive := Demo.object Demo.P]> ∅)).
Proof. vm_compute. reflexivity. Qed.

(** Only the map of the [Host] holds the [P] at address 3. *)
Lemma host_P_only_owner b ob k e :
  heap (store Demo.host_installed) !! b = Some ob -> In (k, e) (mgr_ ob) ->
  sev e = Some 3%positive -> b = 1%positive.
Proof.
  rewrite host_installed_heap. intros Hb Hin _.
  destruct (decide (b = 1%positive)) as [-> | H1]; [reflexivity |].
  rewrite lookup_insert_ne in Hb by congruence.
  destruct (decide (b = 2%positive)) as [-> | H2].
  { rewrite lookup_insert_eq in Hb. injection Hb as <-. destruct Hin. }
  rewrite lookup_insert_ne in Hb by congruence.
  destruct (decide (b = 3%positive)) as [-> | H3].
  { rewrite lookup_insert_eq in Hb. injection Hb as <-. destruct Hin. }
  rewrite lookup_insert_ne in Hb by congruence.
  rewrite lookup_empty in Hb. discriminate.
Qed.



Lemma xy_children_plain :
  plain_children Demo.type_name Demo.hooks (store Demo.dispatcher_world)
    Examples.xy_stack.
Proof.
  intros k e Hf. unfold Examples.xy_stack in Hf. simpl in Hf.
  destruct (key_compare k "X") eqn:EX; [| discriminate |].
  - injection Hf as <-. exists 2%positive. eexists. exists 0%nat.
    split; [reflexivity |]. split; [vm_compute; reflexivity |].
    split; [reflexivity |]. apply Demo_runs_plainly. lia.
  - destruct (key_compare k "Y") eqn:EY; [| discriminate | discriminate].
    injection Hf as <-. exists 3%positive. eexists. exists 1%nat.
    split; [reflexivity |]. split; [vm_compute; reflexivity |].
    split; [reflexivity |]. apply Demo_runs_plainly. lia.
Qed.

Lemma dispatcher_fan_out_order_witness :
  heap (store Demo.dispatcher_world) !! 1%positive = Some Examples.dispatcher_object /\
  exists w1,
    serve Demo.type_name Demo.hooks 4 tt tt 1%positive Demo.dispatcher_world
      = Returned (nothing, w1) /\
    trace w1 = [CallServe 1%positive; HookRun 1%positive;
                CallServe 2%positive; HookRun 2%positive;
                CallServe 3%positive; HookRun 3%positive].
Proof.
  split; [exact dispatcher_store_object |].
  apply (dispatcher_fan_out_order unit unit unit Demo.type_name Demo.hooks 4 tt tt
           1%positive Demo.dispatcher_world Examples.dispatcher_object
           dispatcher_store_object eq_refl xy_stack_wf eq_refl xy_children_plain).
  simpl. lia.
Defined.

Lemma default_hooks_change_nothing_witness :
  Demo.hooks 2 = ServiceImpl_hooks /\
  (exists w1, install Demo.type_name Demo.hooks 2 tt 3%positive Demo.host_installed
              = Returned w1 /\
              store w1 = store Demo.host_installed) /\
  (exists w2, uninstall Demo.type_name Demo.hooks 2 tt 3%positive Demo.host_installed
              = Returned w2 /\
              store w2 = store Demo.host_installed).
Proof.
  split; [reflexivity |].
  destruct (default_hooks_change_nothing unit unit unit Demo.type_name Demo.hooks 2 tt
              3%positive Demo.host_installed (Demo.object Demo.P) 2 host_P_object
              eq_refl eq_refl eq_refl (le_n 2))
    as [(w1 & H1 & S1 & _) (w2 & H2 & S2 & _)].
  split; [exists w1 | exists w2]; now split.
Defined.

Lemma default_run_serves_inert_witness :
  Demo.hooks 2 = ServiceImpl_hooks /\
  exists w1,
    serve Demo.type_name Demo.hooks 1 tt tt 3%positive Demo.host_installed
      = Returned (nothing, w1) /\
    exists w2,
      serve Demo.type_name Demo.hooks 1 tt tt 3%positive w1 = Returned (nothing, w2) /\
      store w2 = store w1.
Proof.
  split; [reflexivity |].
  destruct (default_run_serves_inert unit unit unit Demo.type_name Demo.hooks 1 tt tt
              3%positive Demo.host_installed (Demo.object Demo.P) 2 host_P_object
              eq_refl eq_refl (le_n 1))
    as (w1 & H1 & _ & _ & Hlater).
  exists w1. split; [exact H1 |]. exact (Hlater tt tt).
Defined.
